(** * colorUtils: hex/HSL conversion and colour-harmony searches

    A shallow embedding of [src/utils/colorUtils.js] and the properties
    of its conversion functions, brightness, sorts, harmony searches and
    suggestion aggregator.

    Numbers.  A JavaScript Number is an IEEE 754 binary64 value, so the
    fractional arithmetic of [hexToHsl] and [hslToHex] is carried out on
    Rocq's primitive [float] (binary64, round to nearest even), operation
    for operation.  Integer-valued Numbers (parsed channels, the results
    of [Math.round], hue differences, counts) are held in [Z]; [num] and
    [toInt] cross the boundary and are exact below 2^53. *)

From Stdlib Require Import ZArith List String Ascii Bool Lia.
From Stdlib Require Import Floats Uint63 PArray Sorted Permutation.
Import ListNotations.

Local Open Scope Z_scope.

(** ** JavaScript numbers *)

Module JS.

(** The Number holding the integer [z] (exact for |z| < 2^53). *)
Definition num (z : Z) : float :=
  if z <? 0 then (- of_uint63 (Uint63.of_Z (- z)))%float
  else of_uint63 (Uint63.of_Z z).

(** Integer part of a finite Number [0 <= x < 2^63], as a machine
    integer: [x = m * 2^(e - 2101)] with [m] in [[1/2, 1)], and
    [normfr_mantissa m = m * 2^53]. *)
Definition trunc63 (x : float) : int :=
  let (m, e) := frshiftexp x in
  if (2101 <? e)%uint63 then
    if (e <=? 2154)%uint63 then (normfr_mantissa m >> (2154 - e))%uint63
    else (normfr_mantissa m << (e - 2154))%uint63
  else 0%uint63.

(** The integer held by an integer-valued Number (|x| < 2^63). *)
Definition toInt (x : float) : Z :=
  if (x <? 0)%float then - Uint63.to_Z (trunc63 (- x)%float)
  else Uint63.to_Z (trunc63 x).

(** [Math.round]: the nearest integer, ties towards +infinity.  NaN,
    the infinities and every Number of magnitude 2^52 or more (already
    integral) are returned unchanged.  Below that, the integer part and
    the exact fractional remainder decide; the sign of a zero result is
    not tracked. *)
Definition roundHalfUp (x : float) : int :=
  let i := trunc63 x in
  if (x - of_uint63 i <? 0.5)%float then i else (i + 1)%uint63.

Definition roundHalfDown (y : float) : int :=
  let i := trunc63 y in
  if (y - of_uint63 i <=? 0.5)%float then i else (i + 1)%uint63.

Definition Math_round (x : float) : float :=
  if (abs x <? 0x1p52)%float then
    if (x <? 0)%float then (- of_uint63 (roundHalfDown (- x)))%float
    else of_uint63 (roundHalfUp x)
  else x.

(** [Math.max] and [Math.min] (NaN if an argument is NaN; the two zeros
    are not told apart). *)
Definition max2 (a b : float) : float :=
  if is_nan b then b else if (a <? b)%float then b else a.
Definition min2 (a b : float) : float :=
  if is_nan b then b else if (b <? a)%float then b else a.
Definition Math_max (a b c : float) : float := max2 (max2 a b) c.
Definition Math_min (a b c : float) : float := min2 (min2 a b) c.

(** [x % 2] on Numbers: the remainder has the sign of [x] and is exact.
    Below 2^53 it is [|x| - 2 * trunc (|x| / 2)]; from 2^53 on every
    Number is an even integer; NaN and the infinities give NaN. *)
Definition rem2 (x : float) : float :=
  let a := abs x in
  if (a <? 0x1p53)%float then
    let r := (a - 2 * of_uint63 (trunc63 (a / 2)))%float in
    if (x <? 0)%float then (- r)%float else r
  else (x - x)%float.

(** [n % m] on integers: the remainder takes the sign of the dividend. *)
Definition rem (n m : Z) : Z := Z.rem n m.

(** *** Strings *)

Definition hexDigit (c : ascii) : option Z :=
  let n := Z.of_nat (nat_of_ascii c) in
  if (48 <=? n) && (n <=? 57) then Some (n - 48)
  else if (65 <=? n) && (n <=? 70) then Some (n - 55)
  else if (97 <=? n) && (n <=? 102) then Some (n - 87)
  else None.

(** [parseInt(s, 16)] on a two-character string of hex digits; [None]
    stands for every other argument (where the source gets NaN or a
    one-digit prefix), which the properties below do not concern. *)
Definition parseInt16 (s : string) : option Z :=
  match s with
  | String a (String b EmptyString) =>
      match hexDigit a, hexDigit b with
      | Some x, Some y => Some (16 * x + y)
      | _, _ => None
      end
  | _ => None
  end.

(** [s.replace('#', '')]: the first ['#'] is removed, wherever it is. *)
Fixpoint removeFirstHash (s : string) : string :=
  match s with
  | EmptyString => EmptyString
  | String c s' =>
      if Ascii.eqb c "#"%char then s' else String c (removeFirstHash s')
  end.

(** [s.substr(start, len)]. *)
Definition substr (s : string) (start len : nat) : string :=
  String.substring start len s.

Definition digitChar (d : Z) : ascii :=
  ascii_of_nat (Z.to_nat (if d <? 10 then 48 + d else 87 + d)).

Fixpoint digits16 (fuel : nat) (n : Z) (acc : string) : string :=
  match fuel with
  | O => acc
  | S fuel' =>
      let acc' := String (digitChar (n mod 16)) acc in
      if n / 16 =? 0 then acc' else digits16 fuel' (n / 16) acc'
  end.

(** [n.toString(16)] on an integer. *)
Definition toString16 (n : Z) : string :=
  if n <? 0
  then String "-"%char (digits16 (S (Z.to_nat (Z.log2 (- n)))) (- n) ""%string)
  else digits16 (S (Z.to_nat (Z.log2 n))) n ""%string.

(** [s.padStart(2, '0')]. *)
Definition padStart2 (s : string) : string :=
  match s with
  | EmptyString => "00"%string
  | String c EmptyString => String "0"%char s
  | _ => s
  end.

Definition upperChar (c : ascii) : ascii :=
  let n := nat_of_ascii c in
  if (97 <=? n)%nat && (n <=? 122)%nat then ascii_of_nat (n - 32) else c.

(** [s.toUpperCase()] (ASCII letters). *)
Fixpoint toUpperCase (s : string) : string :=
  match s with
  | EmptyString => EmptyString
  | String c s' => String (upperChar c) (toUpperCase s')
  end.

End JS.

Import JS.

(** [Math.round] and [%] at the values that tell the roundings apart:
    ties go up, the largest Number below 1/2 goes to 0, and the remainder
    keeps the sign of the dividend. *)
Example Math_round_ties :
  Math_round 2.5 = 3%float /\ Math_round (-2.5) = (-2)%float
  /\ Math_round 0.5 = 1%float /\ Math_round 0x1.fffffffffffffp-2 = 0%float
  /\ Math_round (-2.75) = (-3)%float /\ Math_round 255.5 = 256%float
  /\ toInt (Math_round 255.5) = 256 /\ toInt (Math_round (-2.5)) = -2.
Proof. repeat split; reflexivity. Qed.

Example rem2_values :
  rem2 5.5 = 1.5%float /\ rem2 (-5.5) = (-1.5)%float
  /\ rem2 6 = 0%float /\ rem2 2 = 0%float /\ rem2 0.25 = 0.25%float.
Proof. repeat split; reflexivity. Qed.

(** ** Colour model conversion *)

Record hsl := mkHsl { h : Z; s : Z; l : Z }.

(** The three channels [parseInt(hex.substr(i, 2), 16)], [i = 0, 2, 4],
    of the string left by [hex.replace('#', '')]. *)
Definition channels (hex : string) : option (Z * Z * Z) :=
  let hex := removeFirstHash hex in
  match parseInt16 (substr hex 0 2),
        parseInt16 (substr hex 2 2),
        parseInt16 (substr hex 4 2) with
  | Some r, Some g, Some b => Some (r, g, b)
  | _, _, _ => None
  end.

(** Lines 13-40 of [hexToHsl] on the Numbers [R], [G], [B] delivered by
    [parseInt]: the arguments [h * 360], [s * 100], [l * 100] of the
    three [Math.round] calls. *)
Definition hslUnrounded (R G B : float) : float * float * float :=
  let r := (R / 255)%float in
  let g := (G / 255)%float in
  let b := (B / 255)%float in
  let max := Math_max r g b in
  let min := Math_min r g b in
  let diff := (max - min)%float in
  let l := ((max + min) / 2)%float in
  if negb (diff =? 0)%float then
    let s := if (0.5 <? l)%float then (diff / (2 - max - min))%float
             else (diff / (max + min))%float in
    let h :=
      if (max =? r)%float then
        ((g - b) / diff + (if (g <? b)%float then 6 else 0))%float
      else if (max =? g)%float then ((b - r) / diff + 2)%float
      else if (max =? b)%float then ((r - g) / diff + 4)%float
      else 0%float in
    let h := (h / 6)%float in
    ((h * 360)%float, (s * 100)%float, (l * 100)%float)
  else
    ((0 * 360)%float, (0 * 100)%float, (l * 100)%float).

(** Lines 42-46: the returned object, as Numbers. *)
Definition hslNumbers (R G B : float) : float * float * float :=
  let '(h, s, l) := hslUnrounded R G B in
  (Math_round h, Math_round s, Math_round l).

Definition hslOfChannels (R G B : Z) : hsl :=
  let '(h, s, l) := hslNumbers (num R) (num G) (num B) in
  {| h := toInt h; s := toInt s; l := toInt l |}.

(** [hexToHsl(hex)], defined where the three channels parse. *)
Definition hexToHsl (hex : string) : option hsl :=
  match channels hex with
  | Some (R, G, B) => Some (hslOfChannels R G B)
  | None => None
  end.

(** Lines 384-406 of [hslToHex]: the arguments [(r + m) * 255],
    [(g + m) * 255], [(b + m) * 255] of the three [Math.round] calls. *)
Definition rgbUnrounded (h s l : float) : float * float * float :=
  let h := (h / 360)%float in
  let s := (s / 100)%float in
  let l := (l / 100)%float in
  let c := ((1 - abs (2 * l - 1)) * s)%float in
  let x := (c * (1 - abs (rem2 (h * 6) - 1)))%float in
  let m := (l - c / 2)%float in
  let '(r, g, b) :=
    if (0 <=? h)%float && (h <? 1 / 6)%float then (c, x, 0%float)
    else if (1 / 6 <=? h)%float && (h <? 2 / 6)%float then (x, c, 0%float)
    else if (2 / 6 <=? h)%float && (h <? 3 / 6)%float then (0%float, c, x)
    else if (3 / 6 <=? h)%float && (h <? 4 / 6)%float then (0%float, x, c)
    else if (4 / 6 <=? h)%float && (h <? 5 / 6)%float then (x, 0%float, c)
    else if (5 / 6 <=? h)%float && (h <? 1)%float then (c, 0%float, x)
    else (0%float, 0%float, 0%float) in
  (((r + m) * 255)%float, ((g + m) * 255)%float, ((b + m) * 255)%float).

(** Lines 408-410: the three rounded channels, as Numbers. *)
Definition rgbNumbers (h s l : float) : float * float * float :=
  let '(r, g, b) := rgbUnrounded h s l in
  (Math_round r, Math_round g, Math_round b).

Definition channelsOfHsl (h s l : Z) : Z * Z * Z :=
  let '(r, g, b) := rgbNumbers (num h) (num s) (num l) in
  (toInt r, toInt g, toInt b).

(** Line 412: ['#' + [r, g, b].map(x => x.toString(16).padStart(2, '0'))
    .join('').toUpperCase()]. *)
Definition formatHex (rgb : Z * Z * Z) : string :=
  let '(r, g, b) := rgb in
  let hex2 x := padStart2 (toString16 x) in
  ("#" ++ toUpperCase (hex2 r ++ hex2 g ++ hex2 b))%string.

Definition hslToHex (h s l : Z) : string :=
  formatHex (channelsOfHsl h s l).

Definition getComplementaryColor (hex : string) : option string :=
  match hexToHsl hex with
  | Some hsl =>
      let complementaryHue := rem (hsl.(h) + 180) 360 in
      Some (hslToHex complementaryHue hsl.(s) hsl.(l))
  | None => None
  end.

(** ** Brightness *)

(** Line 61 of [getColorBrightness]: the argument of [Math.round]. *)
#[warnings="-inexact-float"]
Definition brightnessUnrounded (r g b : float) : float :=
  (0.299 * r + 0.587 * g + 0.114 * b)%float.

Definition brightnessOfChannels (R G B : Z) : Z :=
  toInt (Math_round (brightnessUnrounded (num R) (num G) (num B))).

(** [getColorBrightness(hex)], defined where the three channels parse. *)
Definition getColorBrightness (hex : string) : option Z :=
  match channels hex with
  | Some (r, g, b) => Some (brightnessOfChannels r g b)
  | None => None
  end.

(** ** Arrays, objects and control flow of the searches *)

(** A Color of the caller's collection: [hex], [name] and whatever else
    the caller attached, which every operation passes through.  The one
    use the code makes of an additional attribute is the subtraction in
    the comparators of the searches, which reads [hueDiff] or
    [lightnessDiff] as a Number: an attribute is held by name with that
    Number for value, an integer as for the attributes the searches
    themselves attach. *)
Record color := mkColor {
  hex : string;
  name : string;
  extra : list (string * Z)
}.

(** [c[key]] for an additional attribute; [None] is [undefined]. *)
Definition attribute (key : string) (c : color) : option Z :=
  match find (fun p => String.eqb (fst p) key) c.(extra) with
  | Some p => Some (snd p)
  | None => None
  end.

(** An entry of a returned array: a Color together with the [hueDiff]
    and [lightnessDiff] attributes of the returned object, its own or
    the search's.  [None] is an absent attribute, which reads as
    [undefined]. *)
Record annotated := mkAnnotated {
  source : color;
  hueDiff : option Z;
  lightnessDiff : option Z
}.

(** [push(baseColor)]: the input record itself, with the attributes it
    came with and none added. *)
Definition unannotated (c : color) : annotated :=
  mkAnnotated c (attribute "hueDiff" c) (attribute "lightnessDiff" c).
(** [{...color, hueDiff: d}] and [{...color, lightnessDiff: d}]: a copy
    of the record with the one attribute set, or overridden. *)
Definition withHueDiff (c : color) (d : Z) : annotated :=
  mkAnnotated c (Some d) (attribute "lightnessDiff" c).
Definition withLightnessDiff (c : color) (d : Z) : annotated :=
  mkAnnotated c (attribute "hueDiff" c) (Some d).

Definition bind {A B} (m : option A) (f : A -> option B) : option B :=
  match m with Some a => f a | None => None end.

Notation "'let*' x ':=' m 'in' k" := (bind m (fun x => k))
  (at level 10, x name, m at level 100, k at level 200).

(** [l.forEach(body)] threading the array the body pushes to. *)
Fixpoint forEach {A S} (l : list A) (acc : S) (body : S -> A -> option S)
  : option S :=
  match l with
  | [] => Some acc
  | x :: l' => let* acc' := body acc x in forEach l' acc' body
  end.

(** [l.forEach((x, index) => body)]. *)
Fixpoint forEachIndexed {A S} (l : list A) (index : Z) (acc : S)
  (body : S -> A -> Z -> option S) : option S :=
  match l with
  | [] => Some acc
  | x :: l' =>
      let* acc' := body acc x index in forEachIndexed l' (index + 1) acc' body
  end.

(** [Array.prototype.sort(comparefn)]: a stable sort, here by insertion
    from the left.  The comparator returns a Number, [None] for NaN;
    the sort reads NaN as +0 (ECMAScript SortCompare). *)
Section Sort.
Context {A : Type} (comparefn : A -> A -> option Z).

Definition SortCompare (x y : A) : Z :=
  match comparefn x y with Some v => v | None => 0 end.

Fixpoint insert (x : A) (l : list A) : list A :=
  match l with
  | [] => [x]
  | y :: l' => if SortCompare x y <? 0 then x :: l else y :: insert x l'
  end.

Definition sort (l : list A) : list A :=
  fold_left (fun sorted x => insert x sorted) l [].
End Sort.

(** [a - b] on two attribute reads; an absent attribute gives NaN. *)
Definition minus (a b : option Z) : option Z :=
  match a, b with
  | Some x, Some y => Some (x - y)
  | _, _ => None
  end.

Definition byHueDiff (a b : annotated) : option Z :=
  minus a.(hueDiff) b.(hueDiff).
Definition byLightnessDiff (a b : annotated) : option Z :=
  minus a.(lightnessDiff) b.(lightnessDiff).

(** [l.slice(0, count)]. *)
Definition slice0 {A} (count : Z) (l : list A) : list A :=
  if count <? 0 then firstn (List.length l - Z.to_nat (- count)) l
  else firstn (Z.to_nat count) l.

(** [Math.min(Math.abs(a - b), 360 - Math.abs(a - b))], written out at
    every use in the source. *)
Definition hueDistance (a b : Z) : Z :=
  Z.min (Z.abs (a - b)) (360 - Z.abs (a - b)).

(** ** Sorting a collection *)

(** [[...colors].sort(comparefn)] with a comparator that reads both
    colours through [hexToHsl]: the same insertion as [sort], defined as
    long as every comparison it makes is.  The differences are integers,
    so no comparison is NaN. *)
Section SortBy.
Context {A : Type} (comparefn : A -> A -> option Z).

Fixpoint insertBy (x : A) (l : list A) : option (list A) :=
  match l with
  | [] => Some [x]
  | y :: l' =>
      let* v := comparefn x y in
      if v <? 0 then Some (x :: l)
      else let* l'' := insertBy x l' in Some (y :: l'')
  end.

Definition sortBy (l : list A) : option (list A) :=
  forEach l [] (fun sorted x => insertBy x sorted).
End SortBy.

(** Lines 69-75. *)
Definition sortColorsByHue (colors : list color) : option (list color) :=
  sortBy (fun a b =>
            let* hslA := hexToHsl a.(hex) in
            let* hslB := hexToHsl b.(hex) in
            Some (hslA.(h) - hslB.(h)))
         colors.

(** Lines 82-88: [hslB.s - hslA.s]. *)
Definition sortColorsBySaturation (colors : list color) : option (list color) :=
  sortBy (fun a b =>
            let* hslA := hexToHsl a.(hex) in
            let* hslB := hexToHsl b.(hex) in
            Some (hslB.(s) - hslA.(s)))
         colors.

(** Lines 95-101: [hslA.l - hslB.l]. *)
Definition sortColorsByLightness (colors : list color) : option (list color) :=
  sortBy (fun a b =>
            let* hslA := hexToHsl a.(hex) in
            let* hslB := hexToHsl b.(hex) in
            Some (hslA.(l) - hslB.(l)))
         colors.

(** Lines 108-110. *)
Definition sortColorsChromatically (colors : list color) : option (list color) :=
  sortColorsByHue colors.

(** ** Harmony searches *)

Definition findAnalogousColorsFromCollection
  (colors : list color) (baseHex : string) (count : Z)
  : option (list annotated) :=
  let* baseHsl := hexToHsl baseHex in
  let* analogousColors := forEach colors [] (fun analogousColors color =>
    let* colorHsl := hexToHsl color.(hex) in
    let hueDiff := hueDistance colorHsl.(h) baseHsl.(h) in
    Some (if hueDiff <=? 60
          then analogousColors ++ [withHueDiff color hueDiff]
          else analogousColors)) in
  Some (slice0 count (sort byHueDiff analogousColors)).

Definition findComplementaryColorsFromCollection
  (colors : list color) (baseHex : string) (count : Z)
  : option (list annotated) :=
  let* baseHsl := hexToHsl baseHex in
  let complementaryHue := rem (baseHsl.(h) + 180) 360 in
  let complementaryColors :=
    match find (fun c => String.eqb c.(hex) baseHex) colors with
    | Some baseColor => [unannotated baseColor]
    | None => []
    end in
  let* complementaryColors := forEach colors complementaryColors
    (fun complementaryColors color =>
      if String.eqb color.(hex) baseHex then Some complementaryColors else
      let* colorHsl := hexToHsl color.(hex) in
      let hueDiff := hueDistance colorHsl.(h) complementaryHue in
      Some (if hueDiff <=? 45
            then complementaryColors ++ [withHueDiff color hueDiff]
            else complementaryColors)) in
  let* complementaryColors := forEach colors complementaryColors
    (fun complementaryColors color =>
      if String.eqb color.(hex) baseHex then Some complementaryColors else
      match find (fun c => String.eqb c.(source).(hex) color.(hex))
                 complementaryColors with
      | Some _ => Some complementaryColors
      | None =>
          let* colorHsl := hexToHsl color.(hex) in
          let hueDiff := hueDistance colorHsl.(h) baseHsl.(h) in
          Some (if hueDiff <=? 30
                then complementaryColors ++ [withHueDiff color (hueDiff + 1000)]
                else complementaryColors)
      end) in
  Some (slice0 count (sort byHueDiff complementaryColors)).

Definition findTriadicColorsFromCollection
  (colors : list color) (baseHex : string) (count : Z)
  : option (list annotated) :=
  let* baseHsl := hexToHsl baseHex in
  let triadic1 := rem (baseHsl.(h) + 120) 360 in
  let triadic2 := rem (baseHsl.(h) + 240) 360 in
  let triadicColors :=
    match find (fun c => String.eqb c.(hex) baseHex) colors with
    | Some baseColor => [unannotated baseColor]
    | None => []
    end in
  let* triadicColors := forEach colors triadicColors (fun triadicColors color =>
    if String.eqb color.(hex) baseHex then Some triadicColors else
    let* colorHsl := hexToHsl color.(hex) in
    let diff1 := hueDistance colorHsl.(h) triadic1 in
    let diff2 := hueDistance colorHsl.(h) triadic2 in
    let diff3 := hueDistance colorHsl.(h) baseHsl.(h) in
    let minDiff := Z.min (Z.min diff1 diff2) diff3 in
    Some (if minDiff <=? 45
          then triadicColors ++ [withHueDiff color minDiff]
          else triadicColors)) in
  Some (slice0 count (sort byHueDiff triadicColors)).

Definition findMonochromaticColorsFromCollection
  (colors : list color) (baseHex : string) (count : Z)
  : option (list annotated) :=
  let* baseHsl := hexToHsl baseHex in
  let* monochromaticColors := forEach colors [] (fun monochromaticColors color =>
    let* colorHsl := hexToHsl color.(hex) in
    let hueDiff := hueDistance colorHsl.(h) baseHsl.(h) in
    Some (if hueDiff <=? 15
          then monochromaticColors
                 ++ [withLightnessDiff color (Z.abs (colorHsl.(l) - baseHsl.(l)))]
          else monochromaticColors)) in
  Some (slice0 count (sort byLightnessDiff monochromaticColors)).

Definition findSplitComplementaryFromCollection
  (colors : list color) (baseHex : string) (count : Z)
  : option (list annotated) :=
  let* baseHsl := hexToHsl baseHex in
  let comp1 := rem (baseHsl.(h) + 150) 360 in
  let comp2 := rem (baseHsl.(h) + 210) 360 in
  let splitColors :=
    match find (fun c => String.eqb c.(hex) baseHex) colors with
    | Some baseColor => [unannotated baseColor]
    | None => []
    end in
  let* splitColors := forEach colors splitColors (fun splitColors color =>
    if String.eqb color.(hex) baseHex then Some splitColors else
    let* colorHsl := hexToHsl color.(hex) in
    let diff1 := hueDistance colorHsl.(h) comp1 in
    let diff2 := hueDistance colorHsl.(h) comp2 in
    let diffBase := hueDistance colorHsl.(h) baseHsl.(h) in
    let minDiff := Z.min (Z.min diff1 diff2) diffBase in
    Some (if minDiff <=? 30
          then splitColors ++ [withHueDiff color minDiff]
          else splitColors)) in
  Some (slice0 count (sort byHueDiff splitColors)).

(** ** Suggestion aggregator *)

Inductive paletteType := analogous | complementary | triadic.

Module Suggestion.
Record t := make {
  name : string;
  type : paletteType;
  baseColor : color;
  colors : list annotated
}.
End Suggestion.

Definition generateSmartPaletteSuggestions (colors : list color)
  : option (list Suggestion.t) :=
  if Z.of_nat (List.length colors) <? 3 then Some [] else
  let baseColors :=
    slice0 (Z.min 5 (Z.of_nat (List.length colors))) colors in
  let* suggestions := forEachIndexed baseColors 0 []
    (fun suggestions baseColor index =>
      let* suggestions :=
        (if index <? 3 then
           let* found := findAnalogousColorsFromCollection colors baseColor.(hex) 5 in
           Some (suggestions ++
                 [Suggestion.make ("Análoga desde " ++ baseColor.(name))%string
                    analogous baseColor found])
         else Some suggestions) in
      let* suggestions :=
        (if index <? 2 then
           let* found := findComplementaryColorsFromCollection colors baseColor.(hex) 4 in
           Some (suggestions ++
                 [Suggestion.make ("Complementaria desde " ++ baseColor.(name))%string
                    complementary baseColor found])
         else Some suggestions) in
      (if index <? 2 then
         let* found := findTriadicColorsFromCollection colors baseColor.(hex) 6 in
         Some (suggestions ++
               [Suggestion.make ("Triádica desde " ++ baseColor.(name))%string
                  triadic baseColor found])
       else Some suggestions)) in
  Some (filter (fun s => 3 <=? Z.of_nat (List.length s.(Suggestion.colors)))
               suggestions).

(** * Properties *)

(** ** Arrays: [forEach], [sort], [slice] *)

Lemma forEach_pure {A S} (l : list A) (body : S -> A -> option S)
  (step : S -> A -> S) :
  (forall acc x, In x l -> body acc x = Some (step acc x)) ->
  forall acc, forEach l acc body = Some (fold_left step l acc).
Proof.
  induction l as [|x l IH]; intros Hbody acc; simpl.
  - reflexivity.
  - rewrite (Hbody acc x (or_introl eq_refl)). simpl.
    apply IH. intros acc' y Hy. apply Hbody. now right.
Qed.

Lemma fold_left_push {A B} (g : A -> list B) (l : list A) (init : list B) :
  fold_left (fun acc x => acc ++ g x) l init = init ++ flat_map g l.
Proof.
  revert init. induction l as [|x l IH]; intros init; simpl.
  - now rewrite app_nil_r.
  - rewrite IH. now rewrite app_assoc.
Qed.

Lemma fold_left_ext {A S} (f g : S -> A -> S) (l : list A) (init : S) :
  (forall acc x, f acc x = g acc x) -> fold_left f l init = fold_left g l init.
Proof.
  intros H. revert init. induction l as [|x l IH]; intros init; simpl.
  - reflexivity.
  - now rewrite H, IH.
Qed.

Lemma flat_map_filter_map {A B} (p : A -> bool) (f : A -> B) (l : list A) :
  flat_map (fun x => if p x then [f x] else []) l = map f (filter p l).
Proof.
  induction l as [|x l IH]; simpl; [reflexivity|].
  destruct (p x); simpl; now rewrite IH.
Qed.

Section SortFacts.
Context {A : Type} (comparefn : A -> A -> option Z).

Lemma insert_perm x l : Permutation (insert comparefn x l) (x :: l).
Proof.
  induction l as [|y l IH]; simpl; [reflexivity|].
  destruct (SortCompare comparefn x y <? 0); [reflexivity|].
  rewrite IH. apply perm_swap.
Qed.

Lemma fold_insert_perm l acc :
  Permutation (fold_left (fun sorted x => insert comparefn x sorted) l acc)
              (acc ++ l).
Proof.
  revert acc. induction l as [|x l IH]; intros acc; simpl.
  - now rewrite app_nil_r.
  - rewrite IH, insert_perm. apply Permutation_middle.
Qed.

Lemma sort_perm l : Permutation (sort comparefn l) l.
Proof. unfold sort. now rewrite fold_insert_perm. Qed.

(** An element whose comparisons are all NaN, and which enters the
    array first, is never passed by a later insertion. *)
Lemma insert_after_nan b x l :
  comparefn x b = None ->
  insert comparefn x (b :: l) = b :: insert comparefn x l.
Proof. intros H. simpl. unfold SortCompare. now rewrite H. Qed.

Lemma fold_insert_nan_head b l acc :
  (forall x, In x l -> comparefn x b = None) ->
  fold_left (fun sorted x => insert comparefn x sorted) l (b :: acc)
  = b :: fold_left (fun sorted x => insert comparefn x sorted) l acc.
Proof.
  revert acc. induction l as [|x l IH]; intros acc H; simpl; [reflexivity|].
  unfold SortCompare at 1. rewrite (H x (or_introl eq_refl)). simpl.
  apply IH. intros y Hy. apply H. now right.
Qed.

Lemma sort_nan_head b l :
  (forall x, In x l -> comparefn x b = None) ->
  sort comparefn (b :: l) = b :: sort comparefn l.
Proof.
  intros H. unfold sort. simpl. now apply fold_insert_nan_head.
Qed.

(** On entries that all carry a numeric key the comparator is the
    difference of the keys, and the sort orders by it. *)
Section Keyed.
Variables (key : A -> Z) (P : A -> Prop).
Hypothesis comparefn_key :
  forall a b, P a -> P b -> comparefn a b = Some (key a - key b).

Let le (a b : A) : Prop := key a <= key b.

Lemma insert_sorted x l :
  P x -> Forall P l -> StronglySorted le l ->
  StronglySorted le (insert comparefn x l).
Proof.
  intros Px Pl Hs. induction Hs as [|y l Hs IH Hy]; simpl.
  - repeat constructor.
  - inversion Pl as [|? ? Py Pl']; subst.
    unfold SortCompare. rewrite (comparefn_key x y Px Py).
    destruct (Z.ltb_spec (key x - key y) 0) as [Hlt|Hge].
    + constructor; [now constructor|].
      constructor; [unfold le; lia|].
      eapply Forall_impl; [|exact Hy]. unfold le. intros; lia.
    + constructor; [now apply IH|].
      eapply Permutation_Forall; [symmetry; apply insert_perm|].
      constructor; [unfold le; lia | exact Hy].
Qed.

Lemma insert_forall x l : P x -> Forall P l -> Forall P (insert comparefn x l).
Proof.
  intros Px Pl. eapply Permutation_Forall; [symmetry; apply insert_perm|].
  now constructor.
Qed.

Lemma fold_insert_sorted l acc :
  Forall P l -> Forall P acc -> StronglySorted le acc ->
  StronglySorted le
    (fold_left (fun sorted x => insert comparefn x sorted) l acc).
Proof.
  revert acc. induction l as [|x l IH]; intros acc Pl Pacc Hs; simpl.
  - exact Hs.
  - inversion Pl; subst.
    apply IH; [assumption | now apply insert_forall | now apply insert_sorted].
Qed.

Lemma sort_sorted l :
  Forall P l -> StronglySorted (fun a b => key a <= key b) (sort comparefn l).
Proof.
  intros Pl. unfold sort. apply fold_insert_sorted; auto; constructor.
Qed.
End Keyed.
End SortFacts.

Section SliceFacts.
Context {A : Type}.

Lemma slice0_firstn (count : Z) (l : list A) :
  0 <= count -> slice0 count l = firstn (Z.to_nat count) l.
Proof.
  intros H. unfold slice0. destruct (Z.ltb_spec count 0); [lia|reflexivity].
Qed.

Lemma slice0_length (count : Z) (l : list A) :
  0 <= count -> Z.of_nat (List.length (slice0 count l)) <= count.
Proof.
  intros H. rewrite slice0_firstn by assumption.
  pose proof (firstn_le_length (Z.to_nat count) l) as Hl.
  rewrite length_firstn. lia.
Qed.

Lemma slice0_all (count : Z) (l : list A) :
  Z.of_nat (List.length l) <= count -> slice0 count l = l.
Proof.
  intros H. rewrite slice0_firstn by lia. apply firstn_all2. lia.
Qed.

Lemma slice0_cons (count : Z) (x : A) (l : list A) :
  1 <= count -> slice0 count (x :: l) = x :: slice0 (count - 1) l.
Proof.
  intros H. rewrite !slice0_firstn by lia.
  replace (Z.to_nat count) with (S (Z.to_nat (count - 1))) by lia.
  reflexivity.
Qed.

Lemma slice0_prefix (count : Z) (l : list A) :
  0 <= count -> exists rest, l = slice0 count l ++ rest.
Proof.
  intros H. rewrite slice0_firstn by assumption.
  exists (skipn (Z.to_nat count) l). now rewrite firstn_skipn.
Qed.

Lemma StronglySorted_app_l (R : A -> A -> Prop) (l1 l2 : list A) :
  StronglySorted R (l1 ++ l2) -> StronglySorted R l1.
Proof.
  induction l1 as [|x l1 IH]; simpl; intros H; [constructor|].
  inversion H as [|? ? Hs Hx]; subst. constructor; [now apply IH|].
  apply Forall_app in Hx. tauto.
Qed.

Lemma slice0_sorted (R : A -> A -> Prop) (count : Z) (l : list A) :
  0 <= count -> StronglySorted R l -> StronglySorted R (slice0 count l).
Proof.
  intros H Hs. destruct (slice0_prefix count l H) as [rest E].
  rewrite E in Hs. now apply StronglySorted_app_l in Hs.
Qed.
End SliceFacts.

(** ** Well-formed hex strings *)

(** The strings on which the three channels parse; they include every
    six-digit hex string, with or without the leading ['#']. *)
Definition wellFormed (hex : string) : Prop :=
  exists q, hexToHsl hex = Some q.

Definition hslOf (hex : string) : hsl :=
  match hexToHsl hex with Some q => q | None => mkHsl 0 0 0 end.

Definition hue (hex : string) : Z := (hslOf hex).(h).
Definition lightness (hex : string) : Z := (hslOf hex).(l).

Lemma hexToHsl_hslOf hex : wellFormed hex -> hexToHsl hex = Some (hslOf hex).
Proof. intros [q Hq]. unfold hslOf. now rewrite Hq. Qed.

Lemma wellFormed_channels hex :
  wellFormed hex <-> exists R G B, channels hex = Some (R, G, B).
Proof.
  unfold wellFormed, hexToHsl. split.
  - intros [q Hq]. destruct (channels hex) as [[[R G] B]|]; [|discriminate].
    now exists R, G, B.
  - intros (R & G & B & E). rewrite E. eauto.
Qed.

Definition isHexDigit (c : ascii) : bool :=
  match hexDigit c with Some _ => true | None => false end.

Definition sixHexDigits (s : string) : Prop :=
  exists a b c d e f,
    s = String a (String b (String c (String d (String e (String f EmptyString)))))
    /\ Forall (fun x => isHexDigit x = true) [a; b; c; d; e; f].

Lemma hexDigit_range c v : hexDigit c = Some v -> 0 <= v <= 15.
Proof.
  unfold hexDigit. intros H.
  repeat match type of H with
         | (if ?b then _ else _) = _ => destruct b eqn:?
         end;
    rewrite ?andb_true_iff, ?Z.leb_le in *; inversion H; subst; lia.
Qed.

Lemma parseInt16_range s v : parseInt16 s = Some v -> 0 <= v <= 255.
Proof.
  unfold parseInt16. destruct s as [|a [|b [|]]]; try discriminate.
  destruct (hexDigit a) as [x|] eqn:Ea; [|discriminate].
  destruct (hexDigit b) as [y|] eqn:Eb; [|discriminate].
  intros H. assert (E : v = 16 * x + y) by congruence.
  apply hexDigit_range in Ea. apply hexDigit_range in Eb. lia.
Qed.

Lemma channels_range hex R G B :
  channels hex = Some (R, G, B) ->
  0 <= R <= 255 /\ 0 <= G <= 255 /\ 0 <= B <= 255.
Proof.
  unfold channels. intros H.
  destruct (parseInt16 _) as [r|] eqn:Er; [|discriminate].
  destruct (parseInt16 (substr _ 2 2)) as [g|] eqn:Eg; [|discriminate].
  destruct (parseInt16 (substr _ 4 2)) as [b|] eqn:Eb; [|discriminate].
  inversion H; subst.
  apply parseInt16_range in Er, Eg, Eb. tauto.
Qed.

Lemma isHexDigit_not_hash c : isHexDigit c = true -> Ascii.eqb c "#"%char = false.
Proof.
  intros H. destruct (Ascii.eqb_spec c "#"%char) as [->|]; [|reflexivity].
  discriminate H.
Qed.

Lemma sixHexDigits_wellFormed s :
  sixHexDigits s -> wellFormed s /\ wellFormed (String "#"%char s).
Proof.
  intros (a & b & c & d & e & f & -> & H).
  repeat match goal with
         | H : Forall _ (_ :: _) |- _ => inversion H; clear H; subst
         end.
  set (s6 := String a (String b (String c (String d (String e (String f EmptyString)))))).
  assert (E0 : removeFirstHash s6 = s6).
  { unfold s6. simpl. now rewrite !isHexDigit_not_hash by assumption. }
  assert (E1 : removeFirstHash (String "#"%char s6) = s6) by reflexivity.
  assert (W : exists R G B,
             parseInt16 (substr s6 0 2) = Some R /\
             parseInt16 (substr s6 2 2) = Some G /\
             parseInt16 (substr s6 4 2) = Some B).
  { unfold s6, substr. simpl. unfold isHexDigit in *.
    destruct (hexDigit a), (hexDigit b), (hexDigit c), (hexDigit d),
      (hexDigit e), (hexDigit f); try discriminate. eauto 7. }
  destruct W as (R & G & B & WR & WG & WB).
  split; apply wellFormed_channels; exists R, G, B; unfold channels;
    rewrite ?E0, ?E1, WR, WG, WB; reflexivity.
Qed.

(** ** The five searches as filters *)

Inductive relation :=
  Analogous | Complementary | Triadic | Monochromatic | SplitComplementary.

Definition search (r : relation) :=
  match r with
  | Analogous => findAnalogousColorsFromCollection
  | Complementary => findComplementaryColorsFromCollection
  | Triadic => findTriadicColorsFromCollection
  | Monochromatic => findMonochromaticColorsFromCollection
  | SplitComplementary => findSplitComplementaryFromCollection
  end.

(** The difference score each relation ranks by. *)
Definition score (r : relation) : annotated -> option Z :=
  match r with
  | Monochromatic => lightnessDiff
  | _ => hueDiff
  end.

Definition comparator (r : relation) : annotated -> annotated -> option Z :=
  match r with
  | Monochromatic => byLightnessDiff
  | _ => byHueDiff
  end.

(** Keeps, of the records sharing a [hex], the first one not yet seen. *)
Fixpoint firstByHex (seen : list string) (l : list color) : list color :=
  match l with
  | [] => []
  | c :: l' =>
      if existsb (fun x => String.eqb x c.(hex)) seen then firstByHex seen l'
      else c :: firstByHex (seen ++ [c.(hex)]) l'
  end.

Section Qualifying.
Variables (colors : list color) (baseHex : string).

Definition isBase (c : color) : bool := String.eqb c.(hex) baseHex.

(** The base record, force-included first when the collection has one. *)
Definition baseEntry : list annotated :=
  match find isBase colors with
  | Some baseColor => [unannotated baseColor]
  | None => []
  end.

Definition toBase (c : color) : Z := hueDistance (hue c.(hex)) (hue baseHex).
Definition toOffset (offset : Z) (c : color) : Z :=
  hueDistance (hue c.(hex)) (rem (hue baseHex + offset) 360).
Definition nearestOf (offset1 offset2 : Z) (c : color) : Z :=
  Z.min (Z.min (toOffset offset1 c) (toOffset offset2 c)) (toBase c).

Definition primaryMatches : list annotated :=
  map (fun c => withHueDiff c (toOffset 180 c))
      (filter (fun c => negb (isBase c) && (toOffset 180 c <=? 45)) colors).

Definition selected (c : color) : bool :=
  existsb (fun e => String.eqb e.(source).(hex) c.(hex))
          (baseEntry ++ primaryMatches).

Definition fallbackMatches : list annotated :=
  map (fun c => withHueDiff c (toBase c + 1000))
      (firstByHex []
         (filter (fun c => negb (isBase c) && negb (selected c)
                           && (toBase c <=? 30)) colors)).

(** The qualifying colours of each relation, annotated, in the order
    the search collects them. *)
Definition qualifying (r : relation) : list annotated :=
  match r with
  | Analogous =>
      map (fun c => withHueDiff c (toBase c))
          (filter (fun c => toBase c <=? 60) colors)
  | Complementary => baseEntry ++ primaryMatches ++ fallbackMatches
  | Triadic =>
      baseEntry ++
      map (fun c => withHueDiff c (nearestOf 120 240 c))
          (filter (fun c => negb (isBase c) && (nearestOf 120 240 c <=? 45))
                  colors)
  | Monochromatic =>
      map (fun c => withLightnessDiff c
                      (Z.abs (lightness c.(hex) - lightness baseHex)))
          (filter (fun c => toBase c <=? 15) colors)
  | SplitComplementary =>
      baseEntry ++
      map (fun c => withHueDiff c (nearestOf 150 210 c))
          (filter (fun c => negb (isBase c) && (nearestOf 150 210 c <=? 30))
                  colors)
  end.

Hypothesis base_wf : wellFormed baseHex.
Hypothesis colors_wf : Forall (fun c => wellFormed c.(hex)) colors.

Lemma colors_wf_In c : In c colors -> hexToHsl c.(hex) = Some (hslOf c.(hex)).
Proof.
  intros Hc. apply hexToHsl_hslOf.
  rewrite Forall_forall in colors_wf. now apply colors_wf.
Qed.

Lemma scan_filter (init : list annotated) (skip : color -> bool)
  (d : color -> Z) (w : Z) (ann : color -> annotated) :
  fold_left (fun acc c => if skip c then acc
                          else if d c <=? w then acc ++ [ann c] else acc)
            colors init
  = init ++ map ann (filter (fun c => negb (skip c) && (d c <=? w)) colors).
Proof.
  rewrite <- flat_map_filter_map, <- fold_left_push.
  apply fold_left_ext. intros acc c.
  destruct (skip c); simpl; [now rewrite app_nil_r|].
  destruct (d c <=? w); [reflexivity|now rewrite app_nil_r].
Qed.

Lemma scan_filter_all (d : color -> Z) (w : Z) (ann : color -> annotated) :
  fold_left (fun acc c => if d c <=? w then acc ++ [ann c] else acc) colors []
  = map ann (filter (fun c => d c <=? w) colors).
Proof.
  rewrite <- flat_map_filter_map.
  rewrite <- (app_nil_l (flat_map _ _)), <- fold_left_push.
  apply fold_left_ext. intros acc c.
  destruct (d c <=? w); [reflexivity|now rewrite app_nil_r].
Qed.

Lemma analogous_eq count :
  findAnalogousColorsFromCollection colors baseHex count
  = Some (slice0 count (sort byHueDiff (qualifying Analogous))).
Proof.
  unfold findAnalogousColorsFromCollection.
  rewrite (hexToHsl_hslOf _ base_wf). simpl.
  rewrite (forEach_pure colors _
    (fun acc c => if toBase c <=? 60 then acc ++ [withHueDiff c (toBase c)]
                  else acc)).
  2:{ intros acc c Hc. rewrite (colors_wf_In c Hc). reflexivity. }
  simpl. now rewrite scan_filter_all.
Qed.

Lemma monochromatic_eq count :
  findMonochromaticColorsFromCollection colors baseHex count
  = Some (slice0 count (sort byLightnessDiff (qualifying Monochromatic))).
Proof.
  unfold findMonochromaticColorsFromCollection.
  rewrite (hexToHsl_hslOf _ base_wf). simpl.
  rewrite (forEach_pure colors _
    (fun acc c => if toBase c <=? 15
                  then acc ++ [withLightnessDiff c
                                 (Z.abs (lightness c.(hex) - lightness baseHex))]
                  else acc)).
  2:{ intros acc c Hc. rewrite (colors_wf_In c Hc). reflexivity. }
  simpl. now rewrite scan_filter_all.
Qed.

Lemma triadic_eq count :
  findTriadicColorsFromCollection colors baseHex count
  = Some (slice0 count (sort byHueDiff (qualifying Triadic))).
Proof.
  unfold findTriadicColorsFromCollection.
  rewrite (hexToHsl_hslOf _ base_wf). simpl.
  rewrite (forEach_pure colors _
    (fun acc c => if isBase c then acc
                  else if nearestOf 120 240 c <=? 45
                  then acc ++ [withHueDiff c (nearestOf 120 240 c)]
                  else acc)).
  2:{ intros acc c Hc. unfold isBase. destruct (String.eqb _ _); [reflexivity|].
      rewrite (colors_wf_In c Hc). reflexivity. }
  simpl. now rewrite scan_filter.
Qed.

Lemma split_eq count :
  findSplitComplementaryFromCollection colors baseHex count
  = Some (slice0 count (sort byHueDiff (qualifying SplitComplementary))).
Proof.
  unfold findSplitComplementaryFromCollection.
  rewrite (hexToHsl_hslOf _ base_wf). simpl.
  rewrite (forEach_pure colors _
    (fun acc c => if isBase c then acc
                  else if nearestOf 150 210 c <=? 30
                  then acc ++ [withHueDiff c (nearestOf 150 210 c)]
                  else acc)).
  2:{ intros acc c Hc. unfold isBase. destruct (String.eqb _ _); [reflexivity|].
      rewrite (colors_wf_In c Hc). reflexivity. }
  simpl. now rewrite scan_filter.
Qed.

Lemma existsb_source (ann : color -> annotated) (x : string) (F : list color) :
  (forall c, (ann c).(source) = c) ->
  existsb (fun e => String.eqb e.(source).(hex) x) (map ann F)
  = existsb (fun y => String.eqb y x) (map hex F).
Proof.
  intros H. induction F as [|c F IH]; simpl; [reflexivity|].
  now rewrite H, IH.
Qed.

Lemma find_existsb {A B} (p : A -> bool) (l : list A) (a b : B) :
  match find p l with Some _ => a | None => b end
  = if existsb p l then a else b.
Proof.
  induction l as [|x l IH]; simpl; [reflexivity|].
  destruct (p x); simpl; [reflexivity|exact IH].
Qed.

Definition fallbackStep (acc : list annotated) (c : color) : list annotated :=
  if isBase c then acc
  else if existsb (fun e => String.eqb e.(source).(hex) c.(hex)) acc then acc
  else if toBase c <=? 30 then acc ++ [withHueDiff c (toBase c + 1000)]
  else acc.

Lemma fallback_scan (acc0 : list annotated) (l F : list color) :
  fold_left fallbackStep l
    (acc0 ++ map (fun c => withHueDiff c (toBase c + 1000)) F)
  = acc0 ++ map (fun c => withHueDiff c (toBase c + 1000))
      (F ++ firstByHex (map hex F)
         (filter (fun c => negb (isBase c)
                    && negb (existsb (fun e => String.eqb e.(source).(hex) c.(hex)) acc0)
                    && (toBase c <=? 30)) l)).
Proof.
  revert F. induction l as [|c l IH]; intros F; simpl.
  - now rewrite app_nil_r.
  - unfold fallbackStep at 2.
    destruct (isBase c); simpl; [apply IH|].
    rewrite existsb_app.
    destruct (existsb _ acc0); simpl; [apply IH|].
    rewrite existsb_source by reflexivity.
    destruct (toBase c <=? 30) eqn:Hw; simpl.
    + destruct (existsb _ (map hex F)) eqn:Hseen; [apply IH|].
      rewrite <- app_assoc.
      change ([withHueDiff c (toBase c + 1000)])
        with (map (fun c => withHueDiff c (toBase c + 1000)) [c]).
      rewrite <- map_app, IH, map_app.
      rewrite <- map_app, map_app with (l := F), <- app_assoc.
      reflexivity.
    + destruct (existsb _ (map hex F)); apply IH.
Qed.

Lemma complementary_eq count :
  findComplementaryColorsFromCollection colors baseHex count
  = Some (slice0 count (sort byHueDiff (qualifying Complementary))).
Proof.
  unfold findComplementaryColorsFromCollection.
  rewrite (hexToHsl_hslOf _ base_wf). simpl.
  rewrite (forEach_pure colors _
    (fun acc c => if isBase c then acc
                  else if toOffset 180 c <=? 45
                  then acc ++ [withHueDiff c (toOffset 180 c)]
                  else acc)).
  2:{ intros acc c Hc. unfold isBase. destruct (String.eqb _ _); [reflexivity|].
      rewrite (colors_wf_In c Hc). reflexivity. }
  cbn [bind]. rewrite (forEach_pure colors _ fallbackStep).
  2:{ intros acc c Hc. unfold fallbackStep, isBase.
      destruct (String.eqb _ _); [reflexivity|].
      rewrite <- find_existsb.
      destruct (find _ acc); [reflexivity|].
      rewrite (colors_wf_In c Hc). reflexivity. }
  cbn [bind]. rewrite scan_filter.
  pose proof (fallback_scan (baseEntry ++ primaryMatches) colors []) as E.
  cbn [map app] in E. rewrite app_nil_r in E.
  unfold baseEntry, primaryMatches, isBase, toOffset, hue in E |- *.
  rewrite E. unfold qualifying, baseEntry, primaryMatches, fallbackMatches, selected,
    baseEntry, primaryMatches, isBase, toOffset, hue.
  now rewrite <- app_assoc.
Qed.
End Qualifying.

(** ** Ranking and truncation *)

(** Ascending by a score: of two entries that both carry the score, the
    earlier one has the smaller or equal score. *)
Definition ascendingBy (key : annotated -> option Z) (l : list annotated) : Prop :=
  StronglySorted
    (fun a b => match key a, key b with
                | Some x, Some y => x <= y
                | _, _ => True
                end) l.

Definition scored (r : relation) (e : annotated) : Prop :=
  exists d, score r e = Some d.

Definition scoreOr0 (r : relation) (e : annotated) : Z :=
  match score r e with Some d => d | None => 0 end.

Lemma comparator_scored r a b :
  scored r a -> scored r b ->
  comparator r a b = Some (scoreOr0 r a - scoreOr0 r b).
Proof.
  intros [x Hx] [y Hy]. unfold scoreOr0. rewrite Hx, Hy.
  destruct r; simpl in *; unfold byHueDiff, byLightnessDiff;
    now rewrite Hx, Hy.
Qed.

Lemma comparator_unscored r a b : score r b = None -> comparator r a b = None.
Proof.
  intros Hb. destruct r; simpl in *; unfold byHueDiff, byLightnessDiff, minus;
    rewrite Hb; now destruct (_ a).
Qed.

(** The pushed base record is ranked by the attribute it came with. *)
Lemma score_unannotated r c :
  score r (unannotated c)
  = match r with
    | Monochromatic => attribute "lightnessDiff" c
    | _ => attribute "hueDiff" c
    end.
Proof. now destruct r. Qed.

Lemma StronglySorted_weaken {A} (R R' : A -> A -> Prop) (P : A -> Prop) l :
  (forall a b, P a -> P b -> R a b -> R' a b) ->
  Forall P l -> StronglySorted R l -> StronglySorted R' l.
Proof.
  intros H Pl Hs. induction Hs as [|x l Hs IH Hx]; [constructor|].
  inversion Pl as [|? ? Px Pl']; subst. constructor; [now apply IH|].
  rewrite Forall_forall in *. intros y Hy. apply H; auto.
Qed.

Lemma sort_scored_ascending r l :
  Forall (scored r) l -> ascendingBy (score r) (sort (comparator r) l).
Proof.
  intros Hl. unfold ascendingBy.
  apply StronglySorted_weaken
    with (R := fun a b => scoreOr0 r a <= scoreOr0 r b) (P := scored r).
  - intros a b [x Hx] [y Hy]. unfold scoreOr0. now rewrite Hx, Hy.
  - eapply Permutation_Forall; [symmetry; apply sort_perm|exact Hl].
  - apply sort_sorted with (P := scored r); [|exact Hl].
    intros a b. apply comparator_scored.
Qed.

(** A base record that carries no score stays in front of the scored
    entries; these are sorted among themselves. *)
Lemma sort_base_first r b l :
  score r (unannotated b) = None ->
  sort (comparator r) (unannotated b :: l)
  = unannotated b :: sort (comparator r) l.
Proof.
  intros Hb. apply sort_nan_head. intros x _.
  now apply comparator_unscored.
Qed.

Lemma ascendingBy_unscored_head r b l :
  score r (unannotated b) = None ->
  ascendingBy (score r) l -> ascendingBy (score r) (unannotated b :: l).
Proof.
  intros Hb H. constructor; [exact H|].
  apply Forall_forall. intros y _. now rewrite Hb.
Qed.

Section QualifyingShape.
Variables (colors : list color) (baseHex : string).

Lemma baseEntry_cases :
  (find (isBase baseHex) colors = None /\ baseEntry colors baseHex = [])
  \/ (exists b, find (isBase baseHex) colors = Some b
                /\ baseEntry colors baseHex = [unannotated b]).
Proof.
  unfold baseEntry. destruct (find _ colors) as [b|]; [right|left]; eauto.
Qed.

(** Every relation's qualifying list is the optional base record
    followed by scored entries. *)
Lemma qualifying_shape r :
  exists pre body,
    qualifying colors baseHex r = pre ++ body
    /\ (pre = [] \/ pre = baseEntry colors baseHex)
    /\ Forall (scored r) body.
Proof.
  assert (M : forall (f : color -> annotated) (l : list color),
             (forall c, scored r (f c)) -> Forall (scored r) (map f l)).
  { intros f l H. apply Forall_forall. intros e He.
    apply in_map_iff in He. destruct He as (c & <- & _). apply H. }
  destruct r; simpl.
  - exists [], (qualifying colors baseHex Analogous). split; [reflexivity|].
    split; [now left|]. apply M. intros c. now eexists.
  - exists (baseEntry colors baseHex),
      (primaryMatches colors baseHex ++ fallbackMatches colors baseHex).
    split; [reflexivity|]. split; [now right|].
    apply Forall_app. split; apply M; intros c; now eexists.
  - eexists (baseEntry colors baseHex), _. split; [reflexivity|].
    split; [now right|]. apply M. intros c. now eexists.
  - exists [], (qualifying colors baseHex Monochromatic). split; [reflexivity|].
    split; [now left|]. apply M. intros c. now eexists.
  - eexists (baseEntry colors baseHex), _. split; [reflexivity|].
    split; [now right|]. apply M. intros c. now eexists.
Qed.

Lemma sort_qualifying_ascending r :
  ascendingBy (score r) (sort (comparator r) (qualifying colors baseHex r)).
Proof.
  destruct (qualifying_shape r) as (pre & body & -> & Hpre & Hbody).
  destruct Hpre as [->| ->]; [now apply sort_scored_ascending|].
  destruct baseEntry_cases as [[_ ->]|(b & _ & ->)].
  - now apply sort_scored_ascending.
  - simpl. destruct (score r (unannotated b)) as [d|] eqn:Hb.
    + apply sort_scored_ascending. constructor; [now exists d|assumption].
    + rewrite sort_base_first by assumption.
      now apply ascendingBy_unscored_head, sort_scored_ascending.
Qed.

Hypothesis base_wf : wellFormed baseHex.
Hypothesis colors_wf : Forall (fun c => wellFormed c.(hex)) colors.

Lemma search_eq r count :
  search r colors baseHex count
  = Some (slice0 count (sort (comparator r) (qualifying colors baseHex r))).
Proof.
  destruct r; simpl.
  - now apply analogous_eq.
  - now apply complementary_eq.
  - now apply triadic_eq.
  - now apply monochromatic_eq.
  - now apply split_eq.
Qed.
End QualifyingShape.

(** C4.  Each of the five harmony searches, on a well-formed base colour
    and collection and with a non-negative count, returns a result that
    is sorted ascending by the relation's difference score, has at most
    [count] entries, consists of qualifying colours only, and is all of
    the qualifying colours when these are no more than [count]. *)
Theorem search_sorted_truncated_complete
  (r : relation) (colors : list color) (baseHex : string) (count : Z) :
  wellFormed baseHex ->
  Forall (fun c => wellFormed c.(hex)) colors ->
  0 <= count ->
  exists result,
    search r colors baseHex count = Some result
    /\ ascendingBy (score r) result
    /\ Z.of_nat (List.length result) <= count
    /\ (exists dropped,
          Permutation (result ++ dropped) (qualifying colors baseHex r))
    /\ (Z.of_nat (List.length (qualifying colors baseHex r)) <= count ->
        Permutation result (qualifying colors baseHex r)).
Proof.
  intros Hb Hc Hn. eexists. split; [now apply search_eq|].
  split; [|split; [|split]].
  - apply slice0_sorted; [assumption|]. apply sort_qualifying_ascending.
  - now apply slice0_length.
  - destruct (slice0_prefix count
                (sort (comparator r) (qualifying colors baseHex r)) Hn)
      as [rest E].
    exists rest. rewrite <- E. apply sort_perm.
  - intros Hlen. rewrite slice0_all; [apply sort_perm|].
    now rewrite (Permutation_length (sort_perm _ _)).
Qed.

(** ** Suggestion aggregator *)

Lemma forEachIndexed_total {A S} (l : list A) (body : S -> A -> Z -> option S) :
  (forall acc x i, In x l -> exists acc', body acc x i = Some acc') ->
  forall i acc, exists out, forEachIndexed l i acc body = Some out.
Proof.
  induction l as [|x l IH]; intros H i acc; simpl; [eauto|].
  destruct (H acc x i (or_introl eq_refl)) as [acc' ->]. simpl.
  apply IH. intros acc0 y j Hy. apply H. now right.
Qed.

Lemma slice0_incl {A} (count : Z) (l : list A) x :
  In x (slice0 count l) -> In x l.
Proof.
  assert (H : forall n, In x (firstn n l) -> In x l).
  { intros n Hx. rewrite <- (firstn_skipn n l). apply in_or_app. now left. }
  unfold slice0. destruct (count <? 0); apply H.
Qed.

(** C7.  [generateSmartPaletteSuggestions] returns the empty sequence on
    a collection of fewer than three colours; every suggestion it returns
    has at least three colours; and on well-formed colours it does return. *)
Theorem suggestions_have_three (colors : list color) :
  (Z.of_nat (List.length colors) < 3 ->
   generateSmartPaletteSuggestions colors = Some [])
  /\ (forall result,
        generateSmartPaletteSuggestions colors = Some result ->
        Forall (fun s => 3 <= Z.of_nat (List.length s.(Suggestion.colors))) result)
  /\ (Forall (fun c => wellFormed c.(hex)) colors ->
      exists result, generateSmartPaletteSuggestions colors = Some result).
Proof.
  unfold generateSmartPaletteSuggestions. split; [|split].
  - intros H. destruct (Z.ltb_spec (Z.of_nat (List.length colors)) 3); [reflexivity|lia].
  - intros result. destruct (_ <? 3).
    + intros E. inversion E. constructor.
    + destruct (forEachIndexed _ _ _ _) as [suggestions|]; simpl; [|discriminate].
      intros E. inversion E. apply Forall_forall. intros s Hs.
      apply filter_In in Hs. destruct Hs as [_ Hs]. now apply Z.leb_le.
  - intros Hwf. destruct (_ <? 3); [eauto|].
    match goal with
    | |- context [forEachIndexed ?l ?i ?acc ?body] =>
        let T := fresh "T" in
        assert (T : exists out, forEachIndexed l i acc body = Some out);
        [apply forEachIndexed_total | destruct T as [out ->]; simpl; eauto]
    end.
    intros acc x i Hx. apply slice0_incl in Hx.
    assert (Wx : wellFormed x.(hex)).
    { rewrite Forall_forall in Hwf. now apply Hwf. }
    pose proof (search_eq colors x.(hex) Wx Hwf Analogous 5) as E1.
    pose proof (search_eq colors x.(hex) Wx Hwf Complementary 4) as E2.
    pose proof (search_eq colors x.(hex) Wx Hwf Triadic 6) as E3.
    simpl in E1, E2, E3. rewrite E1, E2, E3.
    destruct (i <? 3), (i <? 2); simpl; eauto.
Qed.

(** ** Monochromatic search *)

Lemma slice0_two {A} (count : Z) (x y : A) :
  2 <= count -> slice0 count [x; y] = [x; y].
Proof. intros H. apply slice0_all. simpl. lia. Qed.

(** C6.  Among the colours within 15 degrees of the base hue the
    monochromatic search ranks by lightness distance: its result is
    ascending by [lightnessDiff], every entry is within the window, and of
    two qualifying colours where the hue-closer one [a] has the larger
    lightness distance, [a] comes second, whatever their input order. *)
Theorem monochromatic_ranks_by_lightness
  (colors : list color) (a b : color) (baseHex : string) (count : Z) :
  wellFormed baseHex ->
  Forall (fun c => wellFormed c.(hex)) colors ->
  wellFormed a.(hex) -> wellFormed b.(hex) ->
  toBase baseHex a <= 15 -> toBase baseHex b <= 15 ->
  toBase baseHex a < toBase baseHex b ->
  Z.abs (lightness b.(hex) - lightness baseHex)
    < Z.abs (lightness a.(hex) - lightness baseHex) ->
  2 <= count ->
  let ranked :=
    [withLightnessDiff b (Z.abs (lightness b.(hex) - lightness baseHex));
     withLightnessDiff a (Z.abs (lightness a.(hex) - lightness baseHex))] in
  findMonochromaticColorsFromCollection [a; b] baseHex count = Some ranked
  /\ findMonochromaticColorsFromCollection [b; a] baseHex count = Some ranked
  /\ exists result,
       findMonochromaticColorsFromCollection colors baseHex count = Some result
       /\ ascendingBy lightnessDiff result
       /\ Forall (fun e =>
                    In e.(source) colors
                    /\ toBase baseHex e.(source) <= 15
                    /\ e.(lightnessDiff)
                       = Some (Z.abs (lightness e.(source).(hex) - lightness baseHex)))
                 result.
Proof.
  intros Hbase Hcolors Ha Hb Wa Wb Hhue Hlight Hcount ranked.
  assert (Ka : (toBase baseHex a <=? 15) = true) by now apply Z.leb_le.
  assert (Kb : (toBase baseHex b <=? 15) = true) by now apply Z.leb_le.
  split; [|split].
  - rewrite monochromatic_eq by (auto; repeat constructor; auto).
    simpl. rewrite Ka, Kb. unfold sort. simpl.
    unfold SortCompare, byLightnessDiff. simpl.
    destruct (Z.ltb_spec
                (Z.abs (lightness b.(hex) - lightness baseHex)
                 - Z.abs (lightness a.(hex) - lightness baseHex)) 0); [|lia].
    now rewrite slice0_two.
  - rewrite monochromatic_eq by (auto; repeat constructor; auto).
    simpl. rewrite Ka, Kb. unfold sort. simpl.
    unfold SortCompare, byLightnessDiff. simpl.
    destruct (Z.ltb_spec
                (Z.abs (lightness a.(hex) - lightness baseHex)
                 - Z.abs (lightness b.(hex) - lightness baseHex)) 0); [lia|].
    now rewrite slice0_two.
  - eexists. split; [now apply monochromatic_eq|]. split.
    + apply slice0_sorted; [lia|].
      apply (sort_qualifying_ascending colors baseHex Monochromatic).
    + apply Forall_forall. intros e He. apply slice0_incl in He.
      apply (Permutation_in _ (sort_perm _ _)) in He. simpl in He.
      apply in_map_iff in He. destruct He as (c & <- & Hc).
      apply filter_In in Hc. destruct Hc as [Hc Hw]. simpl.
      repeat split; [assumption|now apply Z.leb_le].
Qed.

(** ** Analogous search *)

Lemma Permutation_filter_one {A} (p : A -> bool) (l : list A) (x y z : A) :
  Permutation l [x; y; z] -> p x = true -> p y = false -> p z = false ->
  filter p l = [x].
Proof.
  intros Hp Hx Hy Hz.
  assert (F : forall l1 l2 : list A,
             Permutation l1 l2 -> Permutation (filter p l1) (filter p l2)).
  { intros l1 l2 H. induction H as [|a l1 l2 H IH|a b l1|l1 l2 l3 H1 IH1 H2 IH2];
      simpl.
    - constructor.
    - destruct (p a); [now constructor|assumption].
    - destruct (p a), (p b); try reflexivity. apply perm_swap.
    - now transitivity (filter p l2). }
  apply F in Hp. simpl in Hp. rewrite Hx, Hy, Hz in Hp.
  symmetry in Hp. now apply Permutation_length_1_inv in Hp.
Qed.

(** C8.  [findAnalogousColorsFromCollection] selects by the 60-degree
    window and nothing else: every entry of the result is a collection
    colour within 60 degrees of the base hue, annotated with that distance;
    every such colour is in the result when the count does not cut it
    off; and for a base of hue 0 and a collection of three colours at hues
    10, 70 and 200, in any order, the result is the hue-10 colour alone. *)
Theorem analogous_selects_window :
  (forall colors baseHex count,
     wellFormed baseHex ->
     Forall (fun c => wellFormed c.(hex)) colors ->
     0 <= count ->
     exists result,
       findAnalogousColorsFromCollection colors baseHex count = Some result
       /\ Forall (fun e =>
                    In e.(source) colors
                    /\ toBase baseHex e.(source) <= 60
                    /\ e = withHueDiff e.(source) (toBase baseHex e.(source)))
                 result
       /\ (Z.of_nat (List.length
                       (filter (fun c => toBase baseHex c <=? 60) colors)) <= count ->
           forall c, In c colors -> toBase baseHex c <= 60 ->
                     In (withHueDiff c (toBase baseHex c)) result))
  /\ (forall colors c10 c70 c200 baseHex count,
        wellFormed baseHex ->
        wellFormed c10.(hex) -> wellFormed c70.(hex) -> wellFormed c200.(hex) ->
        hue baseHex = 0 ->
        hue c10.(hex) = 10 -> hue c70.(hex) = 70 -> hue c200.(hex) = 200 ->
        Permutation colors [c10; c70; c200] ->
        1 <= count ->
        findAnalogousColorsFromCollection colors baseHex count
        = Some [withHueDiff c10 10]).
Proof.
  split.
  - intros colors baseHex count Hbase Hcolors Hcount.
    eexists. split; [now apply analogous_eq|]. split.
    + apply Forall_forall. intros e He. apply slice0_incl in He.
      apply (Permutation_in _ (sort_perm _ _)) in He. simpl in He.
      apply in_map_iff in He. destruct He as (c & <- & Hc).
      apply filter_In in Hc. destruct Hc as [Hc Hw]. simpl.
      repeat split; [assumption|now apply Z.leb_le].
    + intros Hlen c Hc Hw. rewrite slice0_all.
      * apply (Permutation_in _ (Permutation_sym (sort_perm _ _))). simpl.
        apply (in_map (fun c => withHueDiff c (toBase baseHex c))).
        apply filter_In. split; [assumption|now apply Z.leb_le].
      * rewrite (Permutation_length (sort_perm _ _)). simpl.
        now rewrite length_map.
  - intros colors c10 c70 c200 baseHex count Hbase W10 W70 W200 H0 H10 H70 H200
      Hperm Hcount.
    assert (Hcolors : Forall (fun c => wellFormed c.(hex)) colors).
    { eapply Permutation_Forall; [symmetry; exact Hperm|].
      repeat constructor; assumption. }
    rewrite analogous_eq by assumption. simpl.
    rewrite (Permutation_filter_one _ colors c10 c70 c200 Hperm).
    + simpl. unfold toBase. rewrite H0, H10. unfold sort. simpl.
      now rewrite slice0_all by (simpl; lia).
    + unfold toBase. now rewrite H0, H10.
    + unfold toBase. now rewrite H0, H70.
    + unfold toBase. now rewrite H0, H200.
Qed.

(** ** Complementary search *)

Lemma complementary_with_base colors baseHex count b :
  wellFormed baseHex ->
  Forall (fun c => wellFormed c.(hex)) colors ->
  find (fun c => String.eqb c.(hex) baseHex) colors = Some b ->
  attribute "hueDiff" b = None ->
  1 <= count ->
  findComplementaryColorsFromCollection colors baseHex count
  = Some (unannotated b
          :: slice0 (count - 1)
               (sort byHueDiff (primaryMatches colors baseHex
                                ++ fallbackMatches colors baseHex))).
Proof.
  intros Hbase Hcolors Hfind Hnone Hcount.
  rewrite complementary_eq by assumption. simpl.
  unfold baseEntry, isBase. rewrite Hfind. simpl.
  rewrite (sort_base_first Complementary) by exact Hnone.
  now rewrite slice0_cons.
Qed.

Lemma primary_copies colors baseHex e :
  In e (primaryMatches colors baseHex) ->
  exists c, In c colors /\ e = withHueDiff c (toOffset baseHex 180 c)
            /\ toOffset baseHex 180 c <= 45.
Proof.
  unfold primaryMatches. intros He. apply in_map_iff in He.
  destruct He as (c & <- & Hc). apply filter_In in Hc.
  destruct Hc as [Hc Hw]. apply andb_true_iff in Hw.
  exists c. repeat split; [assumption|now apply Z.leb_le].
Qed.

Lemma firstByHex_incl seen l c : In c (firstByHex seen l) -> In c l.
Proof.
  revert seen. induction l as [|x l IH]; intros seen; simpl; [tauto|].
  destruct (existsb _ seen); simpl; intros H.
  - right. eapply IH, H.
  - destruct H as [H|H]; [now left|right; eapply IH, H].
Qed.

Lemma fallback_copies colors baseHex e :
  In e (fallbackMatches colors baseHex) ->
  exists c, In c colors /\ e = withHueDiff c (toBase baseHex c + 1000)
            /\ toBase baseHex c <= 30.
Proof.
  unfold fallbackMatches. intros He. apply in_map_iff in He.
  destruct He as (c & <- & Hc). apply firstByHex_incl in Hc.
  apply filter_In in Hc. destruct Hc as [Hc Hw]. apply andb_true_iff in Hw.
  exists c. repeat split; [assumption|now apply Z.leb_le].
Qed.


(** * The conversions on all 256^3 colours

    [hexToHsl] and [hslToHex] compute in binary64, so their properties over
    every colour are established by running them on every channel triple.
    The run works on machine integers: [hslInts] and [rgbInts] are the
    two conversions with their integer results read off directly, and the
    results of [hslToHex] over the whole HSL grid are tabulated once. *)

(** The channels after [hslToHex(hexToHsl(.))], after one complement and
    after two, as [getComplementaryColor] computes them between parsing and
    formatting. *)
Definition roundTrip (R G B : Z) : Z * Z * Z :=
  let q := hslOfChannels R G B in
  channelsOfHsl q.(h) q.(s) q.(l).

Definition complementChannels (R G B : Z) : Z * Z * Z :=
  let q := hslOfChannels R G B in
  channelsOfHsl (rem (q.(h) + 180) 360) q.(s) q.(l).

Definition doubleComplement (R G B : Z) : Z * Z * Z :=
  let '(r, g, b) := complementChannels R G B in
  complementChannels r g b.

Definition isChannels (x : Z * Z * Z) : Prop :=
  let '(r, g, b) := x in
  0 <= r <= 255 /\ 0 <= g <= 255 /\ 0 <= b <= 255.

(** Each channel of [x] is within [k] of the same channel of [y]. *)
Definition within (k : Z) (x y : Z * Z * Z) : Prop :=
  let '(r, g, b) := x in
  let '(r', g', b') := y in
  Z.abs (r - r') <= k /\ Z.abs (g - g') <= k /\ Z.abs (b - b') <= k.

Module Exhaustive.

Local Open Scope uint63_scope.

Lemma wB_value : wB = 9223372036854775808%Z.
Proof. reflexivity. Qed.

Lemma to_Z_range (i : int) : (0 <= to_Z i < 9223372036854775808)%Z.
Proof. exact (to_Z_bounded i). Qed.

Lemma to_Z_small (i : int) (n : Z) :
  (0 <= n < 9223372036854775808)%Z -> i = of_Z n -> to_Z i = n.
Proof.
  intros H ->. rewrite of_Z_spec, wB_value. now apply Z.mod_small.
Qed.

Lemma to_Z_succ (i : int) :
  (to_Z i + 1 < 9223372036854775808)%Z -> to_Z (i + 1) = (to_Z i + 1)%Z.
Proof.
  intros H. rewrite add_spec, wB_value.
  change (to_Z 1) with 1%Z. pose proof (to_Z_range i).
  apply Z.mod_small. lia.
Qed.

(** [upto n i f]: [f] holds on the [n] integers from [i] on. *)
Fixpoint upto (n : nat) (i : int) (f : int -> bool) : bool :=
  match n with
  | O => true
  | S n' => f i && upto n' (i + 1) f
  end.

Lemma upto_spec (n : nat) (i : int) (f : int -> bool) :
  (to_Z i + Z.of_nat n < 9223372036854775808)%Z ->
  upto n i f = true ->
  forall j, (to_Z i <= to_Z j < to_Z i + Z.of_nat n)%Z -> f j = true.
Proof.
  revert i. induction n as [|n IH]; intros i Hb H j Hj; [lia|].
  simpl in H. apply andb_true_iff in H. destruct H as [Hi Hrest].
  destruct (Z.eq_dec (to_Z j) (to_Z i)) as [E|E].
  - apply to_Z_inj in E. now subst.
  - apply (IH (i + 1)); [| assumption |]; rewrite to_Z_succ; lia.
Qed.

(** Integers up to 1023 survive the passage through a Number. *)
Definition exactUpTo1023 : bool :=
  upto 1024 0 (fun j => negb (of_uint63 j <? 0)%float
                        && (trunc63 (of_uint63 j) =? j)).

Lemma exactUpTo1023_holds : exactUpTo1023 = true.
Proof. vm_compute. reflexivity. Qed.

Lemma toInt_of_uint63 (j : int) :
  (to_Z j <= 1023)%Z -> toInt (of_uint63 j) = to_Z j.
Proof.
  intros Hj. pose proof (to_Z_range j) as Hb.
  pose proof (upto_spec 1024 0 _ ltac:(simpl; lia) exactUpTo1023_holds j) as H.
  simpl in H. specialize (H ltac:(change (to_Z 0) with 0%Z; lia)).
  apply andb_true_iff in H. destruct H as [Hneg Htr].
  apply negb_true_iff in Hneg. apply eqb_spec in Htr.
  unfold toInt. now rewrite Hneg, Htr.
Qed.

Lemma num_to_Z (j : int) : num (to_Z j) = of_uint63 j.
Proof.
  unfold num. pose proof (to_Z_range j).
  destruct (Z.ltb_spec (to_Z j) 0); [lia|]. now rewrite of_to_Z.
Qed.

(** [Math.round] read as a machine integer; 1024 when the argument is
    negative beyond rounding to zero, or too large. *)
Definition roundIdx (x : float) : int :=
  if (abs x <? 0x1p52)%float then
    if (x <? 0)%float then (if roundHalfDown (- x) =? 0 then 0 else 1024)
    else let j := roundHalfUp x in if j <=? 1023 then j else 1024
  else 1024.

Lemma roundIdx_spec (x : float) :
  (to_Z (roundIdx x) <= 1023)%Z ->
  toInt (Math_round x) = to_Z (roundIdx x).
Proof.
  unfold roundIdx, Math_round.
  destruct (abs x <? 0x1p52)%float; [|intros H; now vm_compute in H].
  destruct (x <? 0)%float.
  - destruct (roundHalfDown (- x) =? 0) eqn:E; [|intros H; now vm_compute in H].
    apply eqb_spec in E. rewrite E. reflexivity.
  - destruct (roundHalfUp x <=? 1023) eqn:E; [|intros H; now vm_compute in H].
    intros H. now apply toInt_of_uint63.
Qed.

(** [hexToHsl] on three channels, or [None] when a result leaves
    [0..360] x [0..100] x [0..100]. *)
Definition hslInts (R G B : int) : option (int * int * int) :=
  let '(a, b, c) := hslUnrounded (of_uint63 R) (of_uint63 G) (of_uint63 B) in
  let h := roundIdx a in
  let s := roundIdx b in
  let l := roundIdx c in
  if (h <=? 360) && (s <=? 100) && (l <=? 100) then Some (h, s, l) else None.

(** The channels of [hslToHex], or [None] when one leaves [0..255]. *)
Definition rgbInts (h s l : int) : option (int * int * int) :=
  let '(a, b, c) := rgbUnrounded (of_uint63 h) (of_uint63 s) (of_uint63 l) in
  let r := roundIdx a in
  let g := roundIdx b in
  let b := roundIdx c in
  if (r <=? 255) && (g <=? 255) && (b <=? 255) then Some (r, g, b) else None.

Lemma hslInts_spec R G B h s l :
  hslInts R G B = Some (h, s, l) ->
  hslOfChannels (to_Z R) (to_Z G) (to_Z B) = mkHsl (to_Z h) (to_Z s) (to_Z l)
  /\ (to_Z h <= 360 /\ to_Z s <= 100 /\ to_Z l <= 100)%Z.
Proof.
  unfold hslInts, hslOfChannels, hslNumbers. rewrite !num_to_Z.
  destruct (hslUnrounded _ _ _) as [[a b] c]. cbv zeta.
  destruct (roundIdx a <=? 360) eqn:Ha; [|discriminate].
  destruct (roundIdx b <=? 100) eqn:Hb; [|discriminate].
  destruct (roundIdx c <=? 100) eqn:Hc; [|discriminate].
  simpl. intros E. inversion E; subst; clear E.
  apply leb_spec in Ha. apply leb_spec in Hb. apply leb_spec in Hc.
  change (to_Z 360) with 360%Z in Ha. change (to_Z 100) with 100%Z in Hb.
  change (to_Z 100) with 100%Z in Hc.
  rewrite !roundIdx_spec by lia. split; [reflexivity|lia].
Qed.

Lemma rgbInts_spec h s l r g b :
  rgbInts h s l = Some (r, g, b) ->
  channelsOfHsl (to_Z h) (to_Z s) (to_Z l) = (to_Z r, to_Z g, to_Z b)
  /\ (to_Z r <= 255 /\ to_Z g <= 255 /\ to_Z b <= 255)%Z.
Proof.
  unfold rgbInts, channelsOfHsl, rgbNumbers. rewrite !num_to_Z.
  destruct (rgbUnrounded _ _ _) as [[x y] z]. cbv zeta.
  destruct (roundIdx x <=? 255) eqn:Hx; [|discriminate].
  destruct (roundIdx y <=? 255) eqn:Hy; [|discriminate].
  destruct (roundIdx z <=? 255) eqn:Hz; [|discriminate].
  simpl. intros E. inversion E; subst; clear E.
  apply leb_spec in Hx. apply leb_spec in Hy. apply leb_spec in Hz.
  change (to_Z 255) with 255%Z in Hx. change (to_Z 255) with 255%Z in Hy.
  change (to_Z 255) with 255%Z in Hz.
  rewrite !roundIdx_spec by lia. split; [reflexivity|lia].
Qed.

(** Three channels in one integer; [bad] marks a missing result. *)
Definition bad : int := 16777216.

Definition pack (rgb : option (int * int * int)) : int :=
  match rgb with
  | Some (r, g, b) => r * 65536 + g * 256 + b
  | None => bad
  end.

Definition unpack (p : int) : option (int * int * int) :=
  if p <? bad then Some (p / 65536, (p / 256) mod 256, p mod 256) else None.

Lemma unpack_pack r g b :
  (to_Z r <= 255 -> to_Z g <= 255 -> to_Z b <= 255 ->
   unpack (pack (Some (r, g, b))) = Some (r, g, b))%Z.
Proof.
  intros Hr Hg Hb.
  pose proof (to_Z_range r). pose proof (to_Z_range g).
  pose proof (to_Z_range b).
  assert (E : to_Z (r * 65536 + g * 256 + b)
              = (to_Z r * 65536 + to_Z g * 256 + to_Z b)%Z).
  { rewrite !add_spec, !mul_spec, wB_value.
    change (to_Z 65536) with 65536%Z. change (to_Z 256) with 256%Z.
    rewrite (Z.mod_small (to_Z r * 65536)) by lia.
    rewrite (Z.mod_small (to_Z g * 256)) by lia.
    rewrite (Z.mod_small (to_Z r * 65536 + to_Z g * 256)) by lia.
    apply Z.mod_small. lia. }
  unfold unpack, pack.
  destruct (ltbP (r * 65536 + g * 256 + b) bad) as [_|N].
  2:{ exfalso. apply N. rewrite E. change (to_Z bad) with 16777216%Z. lia. }
  f_equal. f_equal; [f_equal|]; apply to_Z_inj.
  - rewrite div_spec, E. change (to_Z 65536) with 65536%Z.
    symmetry. apply (Z.div_unique _ _ _ (to_Z g * 256 + to_Z b)); lia.
  - rewrite mod_spec, div_spec, E. change (to_Z 256) with 256%Z.
    replace ((to_Z r * 65536 + to_Z g * 256 + to_Z b) / 256)%Z
      with (to_Z r * 256 + to_Z g)%Z
      by (apply (Z.div_unique _ _ _ (to_Z b)); lia).
    symmetry. apply (Z.mod_unique _ _ (to_Z r)); lia.
  - rewrite mod_spec, E. change (to_Z 256) with 256%Z.
    symmetry. apply (Z.mod_unique _ _ (to_Z r * 256 + to_Z g)); lia.
Qed.

Lemma unpack_rgbInts h s l : unpack (pack (rgbInts h s l)) = rgbInts h s l.
Proof.
  destruct (rgbInts h s l) as [[[r g] b]|] eqn:E; [|reflexivity].
  apply rgbInts_spec in E. apply unpack_pack; lia.
Qed.

(** *** Tables *)

(** [fill force n i f t] stores [f i], ..., [f (i + n - 1)] in [t].  The
    test on [force v] has one outcome; it only makes the evaluation
    compute [v] before it is stored. *)
Polymorphic Fixpoint fill {A} (force : A -> bool) (n : nat) (i : int)
  (f : int -> A) (t : array A) : array A :=
  match n with
  | O => t
  | S n' =>
      let v := f i in
      if force v then fill force n' (i + 1) f (t.[i <- v])
      else fill force n' (i + 1) f (t.[i <- v])
  end.

Polymorphic Definition tabulate {A} (force : A -> bool) (n : nat) (d : A)
  (f : int -> A) : array A :=
  fill force n 0 f (make (of_Z (Z.of_nat n)) d).

Polymorphic Lemma fill_spec {A} (force : A -> bool) (f : int -> A) (n : nat) :
  forall (i : int) (t : array A),
    (to_Z i + Z.of_nat n <= to_Z (PArray.length t))%Z ->
    PArray.length (fill force n i f t) = PArray.length t
    /\ forall k,
         ((to_Z i <= to_Z k < to_Z i + Z.of_nat n)%Z ->
          (fill force n i f t).[k] = f k)
         /\ ((to_Z k < to_Z i)%Z -> (fill force n i f t).[k] = t.[k]).
Proof.
  induction n as [|n IH]; intros i t Hlen.
  - simpl. split; [reflexivity|]. intros k. split; [lia|reflexivity].
  - pose proof (to_Z_range (PArray.length t)) as Hb.
    pose proof (to_Z_range i) as Hi.
    assert (Hs : to_Z (i + 1) = (to_Z i + 1)%Z) by (apply to_Z_succ; lia).
    assert (E : fill force (S n) i f t = fill force n (i + 1) f (t.[i <- f i])).
    { simpl. now destruct (force (f i)). }
    rewrite E.
    destruct (IH (i + 1) (t.[i <- f i])) as [L G].
    { rewrite length_set, Hs. lia. }
    rewrite L, length_set. split; [reflexivity|].
    intros k. destruct (G k) as [G1 G2]. split.
    + intros Hk. destruct (Z.eq_dec (to_Z k) (to_Z i)) as [Ek|Ek].
      * apply to_Z_inj in Ek. subst k.
        rewrite G2 by lia. apply get_set_same. apply ltb_spec. lia.
      * apply G1. lia.
    + intros Hk. rewrite G2 by lia. apply get_set_other.
      intros ->. lia.
Qed.

Polymorphic Lemma tabulate_get {A} (force : A -> bool) (n : nat) (d : A)
  (f : int -> A) k :
  (Z.of_nat n <= 4194303)%Z -> (to_Z k < Z.of_nat n)%Z ->
  (tabulate force n d f).[k] = f k.
Proof.
  intros Hn Hk. unfold tabulate. pose proof (to_Z_range k).
  assert (L : to_Z (PArray.length (make (of_Z (Z.of_nat n)) d)) = Z.of_nat n).
  { rewrite length_make.
    assert (E : to_Z (of_Z (Z.of_nat n)) = Z.of_nat n)
      by (apply to_Z_small with (n := Z.of_nat n); [lia|reflexivity]).
    destruct (lebP (of_Z (Z.of_nat n)) max_length) as [_|N]; [exact E|].
    exfalso. apply N. rewrite E. change (to_Z max_length) with 4194303%Z. lia. }
  destruct (fill_spec force f n 0 (make (of_Z (Z.of_nat n)) d)) as [_ G].
  { rewrite L. change (to_Z 0) with 0%Z. lia. }
  apply G. change (to_Z 0) with 0%Z. lia.
Qed.

Definition forceInt (v : int) : bool := v =? 0.
Polymorphic Definition forceArray {A} (v : array A) : bool :=
  PArray.length v =? 0.

(** A table over the HSL grid [0..360] x [0..100] x [0..100]. *)
Definition table := array (array (array int)).

Definition tabulate3 (f : int -> int -> int -> int) : table :=
  tabulate forceArray 361 (make 0 (make 0 0)) (fun h =>
    tabulate forceArray 101 (make 0 0) (fun s =>
      tabulate forceInt 101 0 (fun l => f h s l))).

Definition look (t : table) (h s l : int) : int := t.[h].[s].[l].

Lemma look_tabulate3 f h s l :
  (to_Z h <= 360 -> to_Z s <= 100 -> to_Z l <= 100 ->
   look (tabulate3 f) h s l = f h s l)%Z.
Proof.
  intros Hh Hs Hl. unfold look, tabulate3.
  rewrite tabulate_get by (simpl; lia). cbv beta.
  rewrite tabulate_get by (simpl; lia). cbv beta.
  now rewrite tabulate_get by (simpl; lia).
Qed.

(** *** The run *)

(** [(h + 180) % 360]. *)
Definition rot (h : int) : int := (h + 180) mod 360.

Definition near (i j : int) : bool := (j <=? i + 5) && (i <=? j + 5).

(** The packed channels [p] exist and are each within 5 of [R], [G], [B]. *)
Definition near3 (p R G B : int) : bool :=
  match unpack p with
  | Some (r, g, b) => near R r && near G g && near B b
  | None => false
  end.

(** Channels of [hslToHex(h, s, l)], packed. *)
Definition hexEntry (h s l : int) : int := pack (rgbInts h s l).

(** For a colour whose HSL is [(h, s, l)]: the channels of its
    complement's complement, read from the table [T] of [hexEntry]. *)
Definition doubleEntry (T : table) (h s l : int) : int :=
  match unpack (look T (rot h) s l) with
  | Some (r, g, b) =>
      match hslInts r g b with
      | Some (h', s', l') => look T (rot h') s' l'
      | None => bad
      end
  | None => bad
  end.

(** The test run on each colour: its HSL is in range, the round trip
    (for a hue other than 360) and the double complement exist and stay
    within 5 of it. *)
Definition checkOne (T D : table) (R G B : int) : bool :=
  match hslInts R G B with
  | Some (h, s, l) =>
      ((h =? 360) || near3 (look T h s l) R G B) && near3 (look D h s l) R G B
  | None => false
  end.

(** The two tables, each built once. *)
Definition hexTable : table := tabulate3 hexEntry.
Definition doubleTable : table := tabulate3 (doubleEntry hexTable).

(** [f] holds on all of [0..255]^3. *)
Definition upto3 (f : int -> int -> int -> bool) : bool :=
  upto 256 0 (fun R => upto 256 0 (fun G => upto 256 0 (fun B => f R G B))).

Lemma checkAll_holds : upto3 (checkOne hexTable doubleTable) = true.
Proof. vm_compute. reflexivity. Qed.

Lemma to_Z_rot h : (to_Z h <= 360)%Z -> to_Z (rot h) = JS.rem (to_Z h + 180) 360.
Proof.
  intros H. pose proof (to_Z_range h). unfold rot, JS.rem.
  rewrite mod_spec, add_spec, wB_value.
  change (to_Z 180) with 180%Z. change (to_Z 360) with 360%Z.
  rewrite (Z.mod_small (to_Z h + 180)) by lia.
  rewrite Z.rem_mod_nonneg by lia. reflexivity.
Qed.

Lemma rem_360_range z : (0 <= z -> 0 <= JS.rem (z + 180) 360 < 360)%Z.
Proof.
  intros H. unfold JS.rem. rewrite Z.rem_mod_nonneg by lia.
  apply Z.mod_pos_bound. lia.
Qed.

Lemma near_spec i j :
  (to_Z i <= 255)%Z -> (to_Z j <= 255)%Z ->
  near i j = true -> (Z.abs (to_Z j - to_Z i) <= 5)%Z.
Proof.
  intros Hi Hj H. pose proof (to_Z_range i) as Bi.
  pose proof (to_Z_range j) as Bj. unfold near in H.
  apply andb_true_iff in H. destruct H as [H1 H2].
  apply leb_spec in H1. apply leb_spec in H2.
  rewrite add_spec, wB_value in H1. rewrite add_spec, wB_value in H2.
  change (to_Z 5) with 5%Z in H1. change (to_Z 5) with 5%Z in H2.
  rewrite Z.mod_small in H1 by lia. rewrite Z.mod_small in H2 by lia. lia.
Qed.

Lemma unpack_bad : unpack bad = None.
Proof. reflexivity. Qed.

Lemma near3_spec p R G B :
  (to_Z R <= 255)%Z -> (to_Z G <= 255)%Z -> (to_Z B <= 255)%Z ->
  forall h s l, p = hexEntry h s l ->
  near3 p R G B = true ->
  exists r g b,
    rgbInts h s l = Some (r, g, b)
    /\ within 5 (to_Z r, to_Z g, to_Z b) (to_Z R, to_Z G, to_Z B).
Proof.
  intros HR HG HB h s l -> H. unfold near3, hexEntry in H.
  rewrite unpack_rgbInts in H.
  destruct (rgbInts h s l) as [[[r g] b]|] eqn:E; [|discriminate].
  exists r, g, b. split; [reflexivity|].
  apply rgbInts_spec in E. destruct E as [_ (Hr & Hg & Hb)].
  apply andb_true_iff in H. destruct H as [H H3].
  apply andb_true_iff in H. destruct H as [H1 H2].
  apply near_spec in H1, H2, H3; try assumption.
  unfold within. auto.
Qed.

Definition tabulates (t : table) (f : int -> int -> int -> int) : Prop :=
  forall h s l,
    (to_Z h <= 360)%Z -> (to_Z s <= 100)%Z -> (to_Z l <= 100)%Z ->
    look t h s l = f h s l.

Lemma tabulate3_tabulates f : tabulates (tabulate3 f) f.
Proof. intros h s l Hh Hs Hl. now apply look_tabulate3. Qed.

Lemma checkOne_spec (T D : table) (R G B : int) :
  tabulates T hexEntry -> tabulates D (doubleEntry T) ->
  (to_Z R <= 255)%Z -> (to_Z G <= 255)%Z -> (to_Z B <= 255)%Z ->
  checkOne T D R G B = true ->
  let q := hslOfChannels (to_Z R) (to_Z G) (to_Z B) in
  (0 <= q.(h) <= 360 /\ 0 <= q.(s) <= 100 /\ 0 <= q.(l) <= 100)%Z
  /\ (q.(h) <> 360%Z ->
      isChannels (roundTrip (to_Z R) (to_Z G) (to_Z B))
      /\ within 5 (roundTrip (to_Z R) (to_Z G) (to_Z B))
                  (to_Z R, to_Z G, to_Z B))
  /\ isChannels (complementChannels (to_Z R) (to_Z G) (to_Z B))
  /\ isChannels (doubleComplement (to_Z R) (to_Z G) (to_Z B))
  /\ within 5 (doubleComplement (to_Z R) (to_Z G) (to_Z B))
              (to_Z R, to_Z G, to_Z B).
Proof.
  intros HT HD HR HG HB H. unfold checkOne in H.
  destruct (hslInts R G B) as [[[hh ss] ll]|] eqn:E; [|discriminate].
  apply hslInts_spec in E. destruct E as [Eq (Hh & Hs & Hl)].
  pose proof (to_Z_range hh) as Bh. pose proof (to_Z_range ss) as Bs.
  pose proof (to_Z_range ll) as Bl.
  apply andb_true_iff in H. destruct H as [Hrt Hdc].
  rewrite HT in Hrt by assumption. rewrite HD in Hdc by assumption.
  cbv zeta. unfold roundTrip, doubleComplement, complementChannels.
  rewrite Eq. cbn [h s l].
  split; [lia|]. split.
  - intros Hne. apply orb_true_iff in Hrt. destruct Hrt as [Hrt|Hrt].
    + apply eqb_spec in Hrt. subst hh. now vm_compute in Hne.
    + apply (near3_spec _ R G B HR HG HB hh ss ll eq_refl) in Hrt.
      destruct Hrt as (r & g & b & Ergb & Hw).
      apply rgbInts_spec in Ergb. destruct Ergb as [-> (Hr & Hg & Hb)].
      pose proof (to_Z_range r). pose proof (to_Z_range g).
      pose proof (to_Z_range b). unfold isChannels. split; [lia|exact Hw].
  - unfold doubleEntry in Hdc.
    assert (Hrot : (to_Z (rot hh) <= 360)%Z).
    { rewrite to_Z_rot by assumption.
      pose proof (rem_360_range (to_Z hh)). lia. }
    rewrite HT in Hdc by assumption.
    unfold hexEntry at 1 in Hdc. rewrite unpack_rgbInts in Hdc.
    destruct (rgbInts (rot hh) ss ll) as [[[r1 g1] b1]|] eqn:E1.
    2:{ unfold near3 in Hdc. now rewrite unpack_bad in Hdc. }
    apply rgbInts_spec in E1. destruct E1 as [E1 (Hr1 & Hg1 & Hb1)].
    rewrite to_Z_rot in E1 by assumption. rewrite E1.
    destruct (hslInts r1 g1 b1) as [[[hh' ss'] ll']|] eqn:E2.
    2:{ unfold near3 in Hdc. now rewrite unpack_bad in Hdc. }
    apply hslInts_spec in E2. destruct E2 as [E2 (Hh' & Hs' & Hl')].
    rewrite E2. cbn [h s l].
    assert (Hrot' : (to_Z (rot hh') <= 360)%Z).
    { rewrite to_Z_rot by assumption.
      pose proof (to_Z_range hh'). pose proof (rem_360_range (to_Z hh')). lia. }
    rewrite HT in Hdc by assumption.
    apply (near3_spec _ R G B HR HG HB (rot hh') ss' ll' eq_refl) in Hdc.
    destruct Hdc as (r2 & g2 & b2 & Ergb & Hw).
    apply rgbInts_spec in Ergb. destruct Ergb as [E3 (Hr2 & Hg2 & Hb2)].
    rewrite to_Z_rot in E3 by assumption. rewrite E3.
    pose proof (to_Z_range r1). pose proof (to_Z_range g1).
    pose proof (to_Z_range b1). pose proof (to_Z_range r2).
    pose proof (to_Z_range g2). pose proof (to_Z_range b2).
    unfold isChannels. repeat split; try lia; apply Hw.
Qed.

Lemma upto_256 (f : int -> bool) (z : Z) :
  upto 256 0 f = true -> (0 <= z <= 255)%Z -> f (of_Z z) = true.
Proof.
  intros H Hz. apply (upto_spec 256 0 f); [reflexivity|assumption|].
  rewrite (to_Z_small (of_Z z) z) by (try reflexivity; lia).
  change (to_Z 0) with 0%Z. change (Z.of_nat 256) with 256%Z. lia.
Qed.

Lemma upto3_spec (f : int -> int -> int -> bool) (R G B : Z) :
  upto3 f = true ->
  (0 <= R <= 255)%Z -> (0 <= G <= 255)%Z -> (0 <= B <= 255)%Z ->
  f (of_Z R) (of_Z G) (of_Z B) = true.
Proof.
  intros H HR HG HB. unfold upto3 in H.
  apply upto_256 with (z := R) in H; [|assumption].
  apply upto_256 with (z := G) in H; [|assumption].
  apply upto_256 with (z := B) in H; [|assumption].
  exact H.
Qed.

Lemma hexTable_tabulates : tabulates hexTable hexEntry.
Proof. exact (tabulate3_tabulates hexEntry). Qed.

Lemma doubleTable_tabulates : tabulates doubleTable (doubleEntry hexTable).
Proof. exact (tabulate3_tabulates (doubleEntry hexTable)). Qed.

Lemma conversion_facts (R G B : Z) :
  (0 <= R <= 255)%Z -> (0 <= G <= 255)%Z -> (0 <= B <= 255)%Z ->
  let q := hslOfChannels R G B in
  (0 <= q.(h) <= 360 /\ 0 <= q.(s) <= 100 /\ 0 <= q.(l) <= 100)%Z
  /\ (q.(h) <> 360%Z ->
      isChannels (roundTrip R G B) /\ within 5 (roundTrip R G B) (R, G, B))
  /\ isChannels (complementChannels R G B)
  /\ isChannels (doubleComplement R G B)
  /\ within 5 (doubleComplement R G B) (R, G, B).
Proof.
  intros HR HG HB.
  pose proof (upto3_spec (checkOne hexTable doubleTable) R G B
                checkAll_holds HR HG HB) as H.
  assert (ER : to_Z (of_Z R) = R)
    by (apply to_Z_small with (n := R); [lia|reflexivity]).
  assert (EG : to_Z (of_Z G) = G)
    by (apply to_Z_small with (n := G); [lia|reflexivity]).
  assert (EB : to_Z (of_Z B) = B)
    by (apply to_Z_small with (n := B); [lia|reflexivity]).
  pose proof (checkOne_spec hexTable doubleTable (of_Z R) (of_Z G) (of_Z B)
                hexTable_tabulates doubleTable_tabulates) as K.
  rewrite ER, EG, EB in K. apply K; try lia. exact H.
Qed.

End Exhaustive.

(** * Conversions between strings *)

Fixpoint allBelow (n : nat) (f : Z -> bool) : bool :=
  match n with
  | O => true
  | S n' => f (Z.of_nat n') && allBelow n' f
  end.

Lemma allBelow_spec (n : nat) (f : Z -> bool) :
  allBelow n f = true -> forall z, 0 <= z < Z.of_nat n -> f z = true.
Proof.
  induction n as [|n IH]; intros H z Hz; [lia|].
  simpl in H. apply andb_true_iff in H. destruct H as [Hn Hrest].
  destruct (Z.eq_dec z (Z.of_nat n)) as [->|Hne]; [assumption|].
  apply IH; [assumption|lia].
Qed.

(** A channel's two digits parse back to the channel. *)
Definition twoDigitsParse (x : Z) : bool :=
  match toUpperCase (padStart2 (toString16 x)) with
  | String a (String b EmptyString) =>
      match parseInt16 (String a (String b EmptyString)) with
      | Some y => y =? x
      | None => false
      end
  | _ => false
  end.

Lemma twoDigitsParse_all : allBelow 256 twoDigitsParse = true.
Proof. vm_compute. reflexivity. Qed.

Lemma twoDigits_spec (x : Z) :
  0 <= x <= 255 ->
  exists a b,
    toUpperCase (padStart2 (toString16 x)) = String a (String b EmptyString)
    /\ parseInt16 (String a (String b EmptyString)) = Some x.
Proof.
  intros Hx.
  pose proof (allBelow_spec 256 twoDigitsParse twoDigitsParse_all x) as H.
  specialize (H ltac:(change (Z.of_nat 256) with 256; lia)).
  unfold twoDigitsParse in H.
  destruct (toUpperCase _) as [|a [|b [|]]]; try discriminate.
  exists a, b. split; [reflexivity|].
  destruct (parseInt16 _) as [y|]; [|discriminate].
  apply Z.eqb_eq in H. now subst.
Qed.

Lemma toUpperCase_app (a b : string) :
  toUpperCase (a ++ b) = (toUpperCase a ++ toUpperCase b)%string.
Proof. induction a as [|c a IH]; simpl; [reflexivity|now rewrite IH]. Qed.

Lemma channels_formatHex (r g b : Z) :
  isChannels (r, g, b) -> channels (formatHex (r, g, b)) = Some (r, g, b).
Proof.
  intros (Hr & Hg & Hb).
  destruct (twoDigits_spec r Hr) as (r1 & r2 & Er & Pr).
  destruct (twoDigits_spec g Hg) as (g1 & g2 & Eg & Pg).
  destruct (twoDigits_spec b Hb) as (b1 & b2 & Eb & Pb).
  unfold formatHex. rewrite !toUpperCase_app, Er, Eg, Eb.
  unfold channels. cbn [append removeFirstHash Ascii.eqb Bool.eqb].
  unfold substr. cbn [substring].
  now rewrite Pr, Pg, Pb.
Qed.

Lemma hexToHsl_channels hex R G B :
  channels hex = Some (R, G, B) -> hexToHsl hex = Some (hslOfChannels R G B).
Proof. intros E. unfold hexToHsl. now rewrite E. Qed.

Lemma wellFormed_inv hex :
  wellFormed hex ->
  exists R G B,
    channels hex = Some (R, G, B)
    /\ isChannels (R, G, B)
    /\ hexToHsl hex = Some (hslOfChannels R G B)
    /\ hslOf hex = hslOfChannels R G B.
Proof.
  intros W. apply wellFormed_channels in W. destruct W as (R & G & B & E).
  exists R, G, B. split; [assumption|]. split.
  - apply channels_range in E. exact E.
  - pose proof (hexToHsl_channels _ _ _ _ E) as F. split; [assumption|].
    unfold hslOf. now rewrite F.
Qed.

(** Every well-formed colour has hue in [0, 360] and saturation and
    lightness in [0, 100]. *)
Lemma hslOf_range hex :
  wellFormed hex ->
  0 <= (hslOf hex).(h) <= 360
  /\ 0 <= (hslOf hex).(s) <= 100
  /\ 0 <= (hslOf hex).(l) <= 100.
Proof.
  intros W. destruct (wellFormed_inv hex W) as (R & G & B & _ & (HR & HG & HB) & _ & ->).
  exact (proj1 (Exhaustive.conversion_facts R G B HR HG HB)).
Qed.

Lemma hue_range hex : wellFormed hex -> 0 <= hue hex <= 360.
Proof. intros W. exact (proj1 (hslOf_range hex W)). Qed.

(** ** The base colour among the complementary matches *)

Lemma hueDistance_range (a b : Z) :
  0 <= a <= 360 -> 0 <= b <= 360 -> 0 <= hueDistance a b <= 180.
Proof. unfold hueDistance. lia. Qed.

Lemma StronglySorted_pair {A} (R : A -> A -> Prop) (l1 l2 l3 : list A) x y :
  StronglySorted R (l1 ++ x :: l2 ++ y :: l3) -> R x y.
Proof.
  induction l1 as [|z l1 IH]; simpl; intros H.
  - apply StronglySorted_inv in H. destruct H as [_ H].
    rewrite Forall_forall in H. apply H.
    apply in_or_app. right. now left.
  - apply StronglySorted_inv in H. now apply IH.
Qed.

(** X26.  When the collection holds a record whose [hex] is the base
    hex, this record carries no [hueDiff] attribute of its own and
    [count >= 1], the complementary search returns that record first.
    The entries after it are primary matches (within 45 degrees of the
    complementary hue, scored by that distance) and fallback matches
    (within 30 degrees of the base hue, scored 1000 more than that
    distance); no fallback match stands before a primary match. *)
Theorem complementary_base_first
  (colors : list color) (baseHex : string) (count : Z) (b : color) :
  wellFormed baseHex ->
  Forall (fun c => wellFormed c.(hex)) colors ->
  find (fun c => String.eqb c.(hex) baseHex) colors = Some b ->
  attribute "hueDiff" b = None ->
  1 <= count ->
  exists rest,
    findComplementaryColorsFromCollection colors baseHex count
    = Some (unannotated b :: rest)
    /\ b.(hex) = baseHex
    /\ Forall (fun e => In e (primaryMatches colors baseHex)
                        \/ In e (fallbackMatches colors baseHex)) rest
    /\ (forall p, In p (primaryMatches colors baseHex) ->
          exists c, In c colors /\ p = withHueDiff c (toOffset baseHex 180 c)
                    /\ toOffset baseHex 180 c <= 45)
    /\ (forall f, In f (fallbackMatches colors baseHex) ->
          exists c, In c colors /\ f = withHueDiff c (toBase baseHex c + 1000)
                    /\ 0 <= toBase baseHex c <= 30)
    /\ (forall l1 l2 l3 f p,
          rest = l1 ++ f :: l2 ++ p :: l3 ->
          In f (fallbackMatches colors baseHex) ->
          In p (primaryMatches colors baseHex) -> False).
Proof.
  intros Hbase Hcolors Hfind Hnone Hcount.
  assert (Hfb : forall f, In f (fallbackMatches colors baseHex) ->
            exists c, In c colors /\ f = withHueDiff c (toBase baseHex c + 1000)
                      /\ 0 <= toBase baseHex c <= 30).
  { intros f Hf. apply fallback_copies in Hf.
    destruct Hf as (c & Hc & -> & Hw). exists c. repeat split; auto.
    unfold toBase.
    apply hueDistance_range; apply hue_range; [|assumption].
    rewrite Forall_forall in Hcolors. now apply Hcolors. }
  eexists. split; [now apply complementary_with_base|].
  split.
  { apply find_some in Hfind. now apply String.eqb_eq. }
  split; [|split; [|split]].
  - apply Forall_forall. intros e He. apply slice0_incl in He.
    apply (Permutation_in _ (sort_perm _ _)) in He. now apply in_app_or.
  - intros p. apply primary_copies.
  - exact Hfb.
  - intros l1 l2 l3 f p E Hf Hp.
    assert (S : ascendingBy hueDiff
                  (slice0 (count - 1)
                     (sort byHueDiff (primaryMatches colors baseHex
                                      ++ fallbackMatches colors baseHex)))).
    { apply slice0_sorted; [lia|].
      apply (sort_scored_ascending Complementary).
      apply Forall_app. split; apply Forall_forall; intros e He.
      - apply primary_copies in He. destruct He as (c & _ & -> & _). now eexists.
      - apply fallback_copies in He. destruct He as (c & _ & -> & _). now eexists. }
    rewrite E in S. apply StronglySorted_pair in S.
    apply Hfb in Hf. destruct Hf as (cf & _ & -> & Hwf).
    apply primary_copies in Hp. destruct Hp as (cp & _ & -> & Hwp).
    simpl in S. lia.
Qed.

(** ** Round trip through HSL *)

(** [hslToHex] applied to the fields of [hexToHsl(hex)] gives back a
    colour whose channels are each within [k] of those of [hex]. *)
Definition roundTripsWithin (k : Z) (hex : string) : Prop :=
  exists q rgb rgb',
    hexToHsl hex = Some q
    /\ channels hex = Some rgb
    /\ channels (hslToHex q.(h) q.(s) q.(l)) = Some rgb'
    /\ within k rgb' rgb.

(** At [#00007D] (hue 240) the round trip gives [#000080]: blue is off
    by 3, so the tolerance of 1 per channel fails. *)
Lemma round_trip_not_within_1 :
  wellFormed "#00007D" /\ hue "#00007D" = 240
  /\ hslToHex 240 100 25 = "#000080"%string
  /\ ~ roundTripsWithin 1 "#00007D".
Proof.
  split; [eexists; vm_compute; reflexivity|].
  split; [vm_compute; reflexivity|].
  split; [vm_compute; reflexivity|].
  intros (q & rgb & rgb' & Hq & Hrgb & Hrgb' & Hw).
  vm_compute in Hq. inversion Hq; subst q; clear Hq.
  vm_compute in Hrgb. inversion Hrgb; subst rgb; clear Hrgb.
  vm_compute in Hrgb'. inversion Hrgb'; subst rgb'; clear Hrgb'.
  unfold within in Hw. lia.
Qed.

(** C1, amended.  For every well-formed hex colour whose hue
    [hexToHsl] reports below 360, [hslToHex] applied to the fields of
    [hexToHsl] gives back a colour within 5 per channel. *)
Theorem round_trip_within_5 (hex : string) :
  wellFormed hex -> hue hex <> 360 -> roundTripsWithin 5 hex.
Proof.
  intros W Hhue.
  destruct (wellFormed_inv hex W) as (R & G & B & Ech & (HR & HG & HB) & Eq & Eof).
  unfold hue in Hhue. rewrite Eof in Hhue.
  destruct (Exhaustive.conversion_facts R G B HR HG HB) as (_ & Hrt & _).
  destruct (Hrt Hhue) as [Hch Hw].
  exists (hslOfChannels R G B), (R, G, B), (roundTrip R G B).
  split; [assumption|]. split; [assumption|]. split; [|assumption].
  unfold hslToHex. fold (roundTrip R G B).
  destruct (roundTrip R G B) as [[r g] b]. now apply channels_formatHex.
Qed.

Lemma round_trip_within_5_witness :
  wellFormed "#02E4E6" /\ hue "#02E4E6" <> 360
  /\ roundTripsWithin 5 "#02E4E6".
Proof.
  assert (W : wellFormed "#02E4E6") by (eexists; vm_compute; reflexivity).
  assert (Hh : hue "#02E4E6" <> 360) by (vm_compute; discriminate).
  split; [exact W|]. split; [exact Hh|].
  exact (round_trip_within_5 "#02E4E6" W Hh).
Defined.

(** The bound of 5 is attained: [#02E4E6] comes back as [#02DFE3]. *)
Lemma round_trip_reaches_5 :
  hexToHsl "#02E4E6" = Some (mkHsl 181 98 45)
  /\ hslToHex 181 98 45 = "#02DFE3"%string
  /\ channels "#02E4E6" = Some (2, 228, 230)
  /\ channels "#02DFE3" = Some (2, 223, 227).
Proof. repeat split; vm_compute; reflexivity. Qed.

(** ** Range of [hexToHsl] *)

(** C2 at [#FF0102].  The hue before rounding is 359.76..., and
    [Math.round] takes it to 360, outside [0, 360); saturation and
    lightness are in range. *)
Theorem hexToHsl_hue_360 :
  hexToHsl "#FF0102" = Some (mkHsl 360 100 50).
Proof. vm_compute. reflexivity. Qed.

(** ** Double complement *)

(** The complement of the complement of [hex] is a colour whose channels
    are each within [k] of those of [hex]. *)
Definition doubleComplementWithin (k : Z) (hex : string) : Prop :=
  exists c1 c2 rgb rgb2,
    getComplementaryColor hex = Some c1
    /\ getComplementaryColor c1 = Some c2
    /\ channels hex = Some rgb
    /\ channels c2 = Some rgb2
    /\ within k rgb2 rgb.

(** The complement of [#00007D] is [#808000], whose complement is
    [#000080]: blue is off by 3. *)
Lemma double_complement_not_within_1 :
  getComplementaryColor "#00007D" = Some "#808000"%string
  /\ getComplementaryColor "#808000" = Some "#000080"%string
  /\ ~ doubleComplementWithin 1 "#00007D".
Proof.
  split; [vm_compute; reflexivity|]. split; [vm_compute; reflexivity|].
  intros (c1 & c2 & rgb & rgb2 & H1 & H2 & Hrgb & Hrgb2 & Hw).
  vm_compute in H1. inversion H1; subst c1; clear H1.
  vm_compute in H2. inversion H2; subst c2; clear H2.
  vm_compute in Hrgb. inversion Hrgb; subst rgb; clear Hrgb.
  vm_compute in Hrgb2. inversion Hrgb2; subst rgb2; clear Hrgb2.
  unfold within in Hw. lia.
Qed.

Lemma getComplementaryColor_channels hex R G B :
  channels hex = Some (R, G, B) ->
  getComplementaryColor hex = Some (formatHex (complementChannels R G B)).
Proof.
  intros E. unfold getComplementaryColor.
  now rewrite (hexToHsl_channels _ _ _ _ E).
Qed.

(** C5, amended.  For every well-formed hex colour, the complement of
    its complement is defined and is within 5 per channel of the colour. *)
Theorem double_complement_within_5 (hex : string) :
  wellFormed hex -> doubleComplementWithin 5 hex.
Proof.
  intros W.
  destruct (wellFormed_inv hex W) as (R & G & B & Ech & (HR & HG & HB) & _ & _).
  destruct (Exhaustive.conversion_facts R G B HR HG HB)
    as (_ & _ & Hc1 & Hc2 & Hw).
  unfold doubleComplement in Hc2, Hw.
  destruct (complementChannels R G B) as [[r1 g1] b1] eqn:E1.
  exists (formatHex (r1, g1, b1)), (formatHex (complementChannels r1 g1 b1)),
    (R, G, B), (complementChannels r1 g1 b1).
  split; [rewrite <- E1; now apply getComplementaryColor_channels|].
  split; [apply getComplementaryColor_channels; now apply channels_formatHex|].
  split; [assumption|]. split; [|assumption].
  destruct (complementChannels r1 g1 b1) as [[r2 g2] b2].
  now apply channels_formatHex.
Qed.

Lemma double_complement_within_5_witness :
  wellFormed "#02E4E6" /\ doubleComplementWithin 5 "#02E4E6".
Proof.
  assert (W : wellFormed "#02E4E6") by (eexists; vm_compute; reflexivity).
  split; [exact W|]. exact (double_complement_within_5 "#02E4E6" W).
Defined.

(** The bound of 5 is attained: [#02E4E6] -> [#E30602] -> [#02DFE3]. *)
Lemma double_complement_reaches_5 :
  getComplementaryColor "#02E4E6" = Some "#E30602"%string
  /\ getComplementaryColor "#E30602" = Some "#02DFE3"%string.
Proof. split; vm_compute; reflexivity. Qed.

(** ** Hue 360 in [hslToHex] *)

(** [round((l/100 - c/2) * 255)] with [c = (1 - |2 l/100 - 1|) * s/100]. *)
Definition achromaticChannel (s l : Z) : Z :=
  let s := (num s / 100)%float in
  let l := (num l / 100)%float in
  let c := ((1 - abs (2 * l - 1)) * s)%float in
  toInt (Math_round ((l - c / 2) * 255)).

Definition achromaticAt360 (s l : Z) : bool :=
  let v := achromaticChannel s l in
  let '(r, g, b) := channelsOfHsl 360 s l in
  (r =? v) && (g =? v) && (b =? v).

Lemma achromaticAt360_all :
  allBelow 101 (fun s => allBelow 101 (fun l => achromaticAt360 s l)) = true.
Proof. vm_compute. reflexivity. Qed.

(** With hue 360 the hue fraction is exactly 1 and none of the six
    sector tests holds, whatever the Numbers [s] and [l]: [r], [g] and [b]
    keep their initial 0. *)
Lemma hue_360_no_sector (s l : float) :
  rgbUnrounded (num 360) s l
  = (let s := (s / 100)%float in
     let l := (l / 100)%float in
     let c := ((1 - abs (2 * l - 1)) * s)%float in
     let m := (l - c / 2)%float in
     (((0 + m) * 255)%float, ((0 + m) * 255)%float, ((0 + m) * 255)%float)).
Proof. reflexivity. Qed.

(** C9.  360 is a hue [hexToHsl] returns (for [#FF0102]), and for all
    integers [s] and [l] in [0, 100], [hslToHex(360, s, l)] is the
    achromatic colour whose three channels are
    [round((l/100 - c/2) * 255)]: the hue plays no part. *)
Theorem hue_360_is_achromatic (s l : Z) :
  0 <= s <= 100 -> 0 <= l <= 100 ->
  hexToHsl "#FF0102" = Some (mkHsl 360 100 50)
  /\ (let '(r, g, b) := rgbUnrounded (num 360) (num s) (num l) in
      r = g /\ g = b)
  /\ channelsOfHsl 360 s l
     = (achromaticChannel s l, achromaticChannel s l, achromaticChannel s l)
  /\ hslToHex 360 s l
     = formatHex (achromaticChannel s l, achromaticChannel s l,
                  achromaticChannel s l).
Proof.
  intros Hs Hl. split; [vm_compute; reflexivity|].
  split; [rewrite hue_360_no_sector; split; reflexivity|].
  assert (E : channelsOfHsl 360 s l
              = (achromaticChannel s l, achromaticChannel s l,
                 achromaticChannel s l)).
  { pose proof (allBelow_spec 101 _ achromaticAt360_all s) as H.
    specialize (H ltac:(change (Z.of_nat 101) with 101; lia)).
    cbv beta in H.
    pose proof (allBelow_spec 101 _ H l) as K.
    specialize (K ltac:(change (Z.of_nat 101) with 101; lia)).
    cbv beta in K. unfold achromaticAt360 in K.
    destruct (channelsOfHsl 360 s l) as [[r g] b].
    apply andb_true_iff in K. destruct K as [K Kb].
    apply andb_true_iff in K. destruct K as [Kr Kg].
    apply Z.eqb_eq in Kr, Kg, Kb. now subst. }
  split; [exact E|]. unfold hslToHex. now rewrite E.
Qed.

Lemma hue_360_is_achromatic_witness :
  (0 <= 100 <= 100) /\ (0 <= 50 <= 100)
  /\ hslToHex 360 100 50 = "#000000"%string.
Proof.
  assert (Hs : 0 <= 100 <= 100) by lia.
  assert (Hl : 0 <= 50 <= 100) by lia.
  split; [exact Hs|]. split; [exact Hl|].
  rewrite (proj2 (proj2 (proj2 (hue_360_is_achromatic 100 50 Hs Hl)))).
  vm_compute. reflexivity.
Defined.

(** * The theorems at concrete collections *)

Definition red : color := mkColor "#FF0000" "Rojo" [].
Definition vermilion : color := mkColor "#FF2B00" "Bermellón" [].
Definition lime : color := mkColor "#D5FF00" "Lima" [].
Definition azure : color := mkColor "#00AAFF" "Celeste" [].
Definition cyan : color := mkColor "#00FFFF" "Cian" [].
Definition maroon : color := mkColor "#800000" "Granate" [].
Definition scarlet : color := mkColor "#FF3300" "Escarlata" [].

Definition palette : list color := [vermilion; cyan; azure; red; lime].

Lemma palette_wellFormed : Forall (fun c => wellFormed c.(hex)) palette.
Proof. repeat constructor; eexists; vm_compute; reflexivity. Qed.

Lemma red_wellFormed : wellFormed "#FF0000".
Proof. eexists. vm_compute. reflexivity. Qed.

(** A red that carries a [hueDiff] of its own, 10, as a record does that
    an earlier search returned. *)
Definition rankedRed : color :=
  mkColor "#FF0000" "Rojo" [("hueDiff"%string, 10)].

(** C3 at the collection [[rankedRed; cyan]] and the base [#FF0000].
    The base record is pushed first, but the final sort ranks it by the
    [hueDiff] 10 it carries, after the cyan at distance 0 from the
    complementary hue: the base colour is returned second.  The same
    collection with a red that carries no [hueDiff] gives it first. *)
Theorem complementary_base_displaced :
  find (fun c => String.eqb c.(hex) "#FF0000") [rankedRed; cyan]
  = Some rankedRed
  /\ findComplementaryColorsFromCollection [rankedRed; cyan] "#FF0000" 4
     = Some [withHueDiff cyan 0; unannotated rankedRed]
  /\ findComplementaryColorsFromCollection [red; cyan] "#FF0000" 4
     = Some [unannotated red; withHueDiff cyan 0].
Proof. repeat split; vm_compute; reflexivity. Qed.


Lemma red_no_hueDiff : attribute "hueDiff" red = None.
Proof. reflexivity. Qed.

Lemma complementary_base_first_witness :
  wellFormed "#FF0000"
  /\ Forall (fun c => wellFormed c.(hex)) palette
  /\ find (fun c => String.eqb c.(hex) "#FF0000") palette = Some red
  /\ attribute "hueDiff" red = None
  /\ 1 <= 4
  /\ exists rest,
       findComplementaryColorsFromCollection palette "#FF0000" 4
       = Some (unannotated red :: rest).
Proof.
  assert (F : find (fun c => String.eqb c.(hex) "#FF0000") palette = Some red)
    by reflexivity.
  assert (N : 1 <= 4) by lia.
  split; [exact red_wellFormed|]. split; [exact palette_wellFormed|].
  split; [exact F|]. split; [exact red_no_hueDiff|]. split; [exact N|].
  destruct (complementary_base_first palette "#FF0000" 4 red
              red_wellFormed palette_wellFormed F red_no_hueDiff N)
    as (rest & E & _).
  exists rest. exact E.
Defined.

Lemma search_sorted_truncated_complete_witness :
  wellFormed "#FF0000"
  /\ Forall (fun c => wellFormed c.(hex)) palette
  /\ 0 <= 2
  /\ exists result,
       search Triadic palette "#FF0000" 2 = Some result
       /\ ascendingBy hueDiff result
       /\ Z.of_nat (List.length result) <= 2.
Proof.
  assert (N : 0 <= 2) by lia.
  split; [exact red_wellFormed|]. split; [exact palette_wellFormed|].
  split; [exact N|].
  destruct (search_sorted_truncated_complete Triadic palette "#FF0000" 2
              red_wellFormed palette_wellFormed N)
    as (result & E & S & L & _).
  exists result. auto.
Defined.

Lemma monochromatic_ranks_by_lightness_witness :
  findMonochromaticColorsFromCollection [maroon; scarlet] "#FF0000" 5
  = Some [withLightnessDiff scarlet 0; withLightnessDiff maroon 25]
  /\ findMonochromaticColorsFromCollection [scarlet; maroon] "#FF0000" 5
     = Some [withLightnessDiff scarlet 0; withLightnessDiff maroon 25].
Proof.
  assert (Wa : wellFormed maroon.(hex)) by (eexists; vm_compute; reflexivity).
  assert (Wb : wellFormed scarlet.(hex)) by (eexists; vm_compute; reflexivity).
  assert (Ka : toBase "#FF0000" maroon <= 15) by (vm_compute; discriminate).
  assert (Kb : toBase "#FF0000" scarlet <= 15) by (vm_compute; discriminate).
  assert (Kh : toBase "#FF0000" maroon < toBase "#FF0000" scarlet)
    by (vm_compute; reflexivity).
  assert (Kl : Z.abs (lightness scarlet.(hex) - lightness "#FF0000")
               < Z.abs (lightness maroon.(hex) - lightness "#FF0000"))
    by (vm_compute; reflexivity).
  assert (N : 2 <= 5) by lia.
  destruct (monochromatic_ranks_by_lightness palette maroon scarlet "#FF0000" 5
              red_wellFormed palette_wellFormed Wa Wb Ka Kb Kh Kl N)
    as (E1 & E2 & _).
  split; [exact E1|exact E2].
Defined.

Lemma suggestions_have_three_witness :
  generateSmartPaletteSuggestions [red; cyan] = Some []
  /\ exists result, generateSmartPaletteSuggestions palette = Some result.
Proof.
  destruct (suggestions_have_three [red; cyan]) as (E & _ & _).
  destruct (suggestions_have_three palette) as (_ & _ & T).
  split; [apply E; simpl; lia|exact (T palette_wellFormed)].
Defined.

Lemma analogous_selects_window_witness :
  findAnalogousColorsFromCollection [vermilion; lime; azure] "#FF0000" 5
  = Some [withHueDiff vermilion 10].
Proof.
  apply (proj2 analogous_selects_window
           [vermilion; lime; azure] vermilion lime azure "#FF0000"%string 5);
    try (eexists; vm_compute; reflexivity);
    try (vm_compute; reflexivity);
    try reflexivity; lia.
Defined.


(** * Sorting a collection *)

(** ** Sorting by an integer key *)

Definition saturation (hex : string) : Z := (hslOf hex).(s).

(** The comparator [key(a) - key(b)]. *)
Definition byKey {A} (key : A -> Z) (a b : A) : option Z :=
  Some (key a - key b).

Section SortByKey.
Context {A : Type} (key : A -> Z).

Lemma insertBy_byKey (comparefn : A -> A -> option Z) (x : A) (l : list A) :
  (forall y, In y l -> comparefn x y = Some (key x - key y)) ->
  insertBy comparefn x l = Some (insert (byKey key) x l).
Proof.
  induction l as [|y l IH]; intros H; simpl; [reflexivity|].
  rewrite (H y (or_introl eq_refl)). simpl. unfold SortCompare, byKey.
  destruct (key x - key y <? 0); [reflexivity|].
  rewrite IH by (intros z Hz; apply H; now right). reflexivity.
Qed.

Lemma sortBy_byKey (comparefn : A -> A -> option Z) (l : list A) :
  (forall x y, In x l -> In y l -> comparefn x y = Some (key x - key y)) ->
  sortBy comparefn l = Some (sort (byKey key) l).
Proof.
  intros H. unfold sortBy, sort.
  assert (G : forall rest acc,
             (forall x y, In x rest -> In y acc ->
                          comparefn x y = Some (key x - key y)) ->
             (forall x y, In x rest -> In y rest ->
                          comparefn x y = Some (key x - key y)) ->
             forEach rest acc (fun sorted x => insertBy comparefn x sorted)
             = Some (fold_left (fun sorted x => insert (byKey key) x sorted)
                               rest acc)).
  { induction rest as [|x rest IH]; intros acc Hacc Hrest; simpl; [reflexivity|].
    rewrite insertBy_byKey
      by (intros y Hy; apply Hacc; [now left|assumption]).
    simpl. apply IH.
    - intros a b Ha Hb.
      apply (Permutation_in _ (insert_perm _ _ _)) in Hb.
      destruct Hb as [<-|Hb].
      + apply Hrest; [now right|now left].
      + apply Hacc; [now right|assumption].
    - intros a b Ha Hb. apply Hrest; now right. }
  apply G; [intros x y _ []|exact H].
Qed.

Let le (a b : A) : Prop := key a <= key b.

Lemma SortCompare_byKey (x y : A) :
  SortCompare (byKey key) x y = key x - key y.
Proof. reflexivity. Qed.

Lemma sort_byKey_sorted (l : list A) : StronglySorted le (sort (byKey key) l).
Proof.
  apply (sort_sorted (byKey key) key (fun _ => True)).
  - reflexivity.
  - apply Forall_forall. trivial.
Qed.

(** Where the new element lands: after every element whose key is not
    larger, before the others. *)
Lemma insert_split (x : A) (l : list A) :
  StronglySorted le l ->
  exists l1 l2,
    l = l1 ++ l2 /\ insert (byKey key) x l = l1 ++ x :: l2
    /\ Forall (fun y => key y <= key x) l1
    /\ Forall (fun y => key x < key y) l2.
Proof.
  intros Hs. induction Hs as [|y l Hs IH Hy]; simpl.
  - exists [], []. repeat split; constructor.
  - rewrite SortCompare_byKey.
    destruct (Z.ltb_spec (key x - key y) 0) as [Hlt|Hge].
    + exists [], (y :: l). repeat split; [constructor|].
      constructor; [lia|].
      eapply Forall_impl; [|exact Hy]. unfold le. intros; lia.
    + destruct IH as (l1 & l2 & E & Ei & H1 & H2).
      exists (y :: l1), l2. rewrite Ei, E. repeat split; [|assumption].
      constructor; [lia|assumption].
Qed.

Lemma filter_none (p : A -> bool) (l : list A) :
  Forall (fun y => p y = false) l -> filter p l = [].
Proof.
  induction 1 as [|y l Hy _ IH]; simpl; [reflexivity|]. now rewrite Hy.
Qed.

(** Stability: the elements with a given key keep their order. *)
Lemma insert_stable (v : Z) (x : A) (l : list A) :
  StronglySorted le l ->
  filter (fun y => key y =? v) (insert (byKey key) x l)
  = filter (fun y => key y =? v) l ++ (if key x =? v then [x] else []).
Proof.
  intros Hs. destruct (insert_split x l Hs) as (l1 & l2 & -> & -> & H1 & H2).
  rewrite !filter_app. simpl.
  destruct (Z.eqb_spec (key x) v) as [E|E].
  - rewrite (filter_none _ l2); [now rewrite app_nil_r|].
    eapply Forall_impl; [|exact H2]. intros y Hy. cbv beta in Hy.
    apply Z.eqb_neq. lia.
  - now rewrite app_nil_r.
Qed.

Lemma fold_insert_stable (v : Z) (l acc : list A) :
  StronglySorted le acc ->
  filter (fun y => key y =? v)
         (fold_left (fun sorted x => insert (byKey key) x sorted) l acc)
  = filter (fun y => key y =? v) acc ++ filter (fun y => key y =? v) l.
Proof.
  revert acc. induction l as [|x l IH]; intros acc Hs; simpl.
  - now rewrite app_nil_r.
  - rewrite IH.
    + rewrite insert_stable by assumption. rewrite <- app_assoc.
      now destruct (key x =? v).
    + apply (insert_sorted (byKey key) key (fun _ => True));
        [reflexivity|trivial|apply Forall_forall; trivial|assumption].
Qed.

Lemma sort_byKey_stable (v : Z) (l : list A) :
  filter (fun y => key y =? v) (sort (byKey key) l)
  = filter (fun y => key y =? v) l.
Proof. unfold sort. rewrite fold_insert_stable; [reflexivity|constructor]. Qed.

(** A sorted array is returned as it is. *)
Lemma insert_last (x : A) (l : list A) :
  Forall (fun y => key y <= key x) l -> insert (byKey key) x l = l ++ [x].
Proof.
  induction 1 as [|y l Hy _ IH]; simpl; [reflexivity|].
  rewrite SortCompare_byKey.
  destruct (Z.ltb_spec (key x - key y) 0); [lia|]. now rewrite IH.
Qed.

Lemma fold_insert_sorted_id (l acc : list A) :
  StronglySorted le (acc ++ l) ->
  fold_left (fun sorted x => insert (byKey key) x sorted) l acc = acc ++ l.
Proof.
  revert acc. induction l as [|x l IH]; intros acc Hs; simpl.
  - now rewrite app_nil_r.
  - rewrite insert_last.
    + rewrite IH; rewrite <- app_assoc; [reflexivity|exact Hs].
    + apply Forall_forall. intros y Hy.
      apply in_split in Hy. destruct Hy as (a1 & a2 & ->).
      rewrite <- app_assoc in Hs. simpl in Hs.
      exact (StronglySorted_pair le a1 a2 l y x Hs).
Qed.

Lemma sort_byKey_sorted_id (l : list A) :
  StronglySorted le l -> sort (byKey key) l = l.
Proof. intros Hs. unfold sort. now rewrite fold_insert_sorted_id. Qed.
End SortByKey.

(** Sorting by [key] an array already sorted by [key2] orders it by
    [key] first and [key2] second. *)
Section SortTwice.
Context {A : Type} (key key2 : A -> Z).

Definition lexLe (a b : A) : Prop :=
  key a < key b \/ (key a = key b /\ key2 a <= key2 b).

Lemma StronglySorted_insert_middle (R : A -> A -> Prop) (x : A) (l1 l2 : list A) :
  StronglySorted R (l1 ++ l2) ->
  Forall (fun y => R y x) l1 -> Forall (fun y => R x y) l2 ->
  StronglySorted R (l1 ++ x :: l2).
Proof.
  induction l1 as [|y l1 IH]; simpl; intros Hs H1 H2.
  - now constructor.
  - inversion Hs as [|? ? Hs' Hy]; subst. inversion H1 as [|? ? Ryx H1']; subst.
    constructor; [now apply IH|].
    apply Forall_app in Hy. destruct Hy as [Hy1 Hy2].
    apply Forall_app. split; [assumption|]. now constructor.
Qed.

Lemma insert_lex (x : A) (l : list A) :
  StronglySorted lexLe l ->
  Forall (fun y => key2 y <= key2 x) l ->
  StronglySorted lexLe (insert (byKey key) x l).
Proof.
  intros Hs H2.
  assert (Hk : StronglySorted (fun a b => key a <= key b) l).
  { apply StronglySorted_weaken with (R := lexLe) (P := fun _ => True);
      [|apply Forall_forall; trivial|assumption].
    intros a b _ _ [H|[H _]]; lia. }
  destruct (insert_split key x l Hk) as (l1 & l2 & -> & -> & K1 & K2).
  apply Forall_app in H2. destruct H2 as [H21 _].
  apply StronglySorted_insert_middle; [assumption| |].
  - rewrite Forall_forall in *. intros y Hy.
    specialize (K1 y Hy). specialize (H21 y Hy). cbv beta in *.
    unfold lexLe. lia.
  - eapply Forall_impl; [|exact K2]. intros y Hy. now left.
Qed.

Lemma fold_insert_lex (l acc : list A) :
  StronglySorted lexLe acc ->
  StronglySorted (fun a b => key2 a <= key2 b) l ->
  (forall y x, In y acc -> In x l -> key2 y <= key2 x) ->
  StronglySorted lexLe
    (fold_left (fun sorted x => insert (byKey key) x sorted) l acc).
Proof.
  revert acc. induction l as [|x l IH]; intros acc Hacc Hl Hle; simpl.
  - exact Hacc.
  - inversion Hl as [|? ? Hl' Hx]; subst. apply IH; [|assumption|].
    + apply insert_lex; [assumption|].
      apply Forall_forall. intros y Hy. apply Hle; [assumption|now left].
    + intros y z Hy Hz.
      apply (Permutation_in _ (insert_perm _ _ _)) in Hy.
      destruct Hy as [<-|Hy].
      * rewrite Forall_forall in Hx. now apply Hx.
      * apply Hle; [assumption|now right].
Qed.

Lemma sort_byKey_lex (l : list A) :
  StronglySorted (fun a b => key2 a <= key2 b) l ->
  StronglySorted lexLe (sort (byKey key) l).
Proof.
  intros Hl. unfold sort. apply fold_insert_lex; [constructor|assumption|].
  intros y x [].
Qed.
End SortTwice.

(** ** The three sorts *)

Section SortColors.
Variable field : hsl -> Z.

Definition fieldOf (c : color) : Z := field (hslOf c.(hex)).

Lemma sortBy_field (colors : list color) :
  Forall (fun c => wellFormed c.(hex)) colors ->
  sortBy (fun a b =>
            let* hslA := hexToHsl a.(hex) in
            let* hslB := hexToHsl b.(hex) in
            Some (field hslA - field hslB))
         colors
  = Some (sort (byKey fieldOf) colors).
Proof.
  intros Hwf. apply sortBy_byKey. intros x y Hx Hy.
  rewrite Forall_forall in Hwf.
  rewrite (hexToHsl_hslOf _ (Hwf x Hx)), (hexToHsl_hslOf _ (Hwf y Hy)).
  reflexivity.
Qed.
End SortColors.

Lemma sortColorsByHue_eq (colors : list color) :
  Forall (fun c => wellFormed c.(hex)) colors ->
  sortColorsByHue colors = Some (sort (byKey (fun c => hue c.(hex))) colors).
Proof. exact (sortBy_field h colors). Qed.

Lemma sortColorsByLightness_eq (colors : list color) :
  Forall (fun c => wellFormed c.(hex)) colors ->
  sortColorsByLightness colors
  = Some (sort (byKey (fun c => lightness c.(hex))) colors).
Proof. exact (sortBy_field l colors). Qed.

Lemma sortColorsBySaturation_eq (colors : list color) :
  Forall (fun c => wellFormed c.(hex)) colors ->
  sortColorsBySaturation colors
  = Some (sort (byKey (fun c => - saturation c.(hex))) colors).
Proof.
  intros Hwf. apply sortBy_byKey. intros x y Hx Hy.
  rewrite Forall_forall in Hwf.
  rewrite (hexToHsl_hslOf _ (Hwf x Hx)), (hexToHsl_hslOf _ (Hwf y Hy)).
  simpl. unfold saturation. f_equal. lia.
Qed.

(** What a sort by [key] returns: the same colours, in ascending order of
    the key, those of equal key in their input order. *)
Definition sortedBy (key : color -> Z) (colors result : list color) : Prop :=
  Permutation result colors
  /\ StronglySorted (fun a b => key a <= key b) result
  /\ forall v, filter (fun c => key c =? v) result
               = filter (fun c => key c =? v) colors.

Lemma sort_byKey_sortedBy (key : color -> Z) (colors : list color) :
  sortedBy key colors (sort (byKey key) colors).
Proof.
  split; [apply sort_perm|]. split; [apply sort_byKey_sorted|].
  intros v. apply sort_byKey_stable.
Qed.

(** X8.  On well-formed colours [sortColorsByHue] returns the same
    colours in ascending order of hue, and colours of equal hue keep the
    order they had in the input. *)
Theorem sortColorsByHue_ascending_stable (colors : list color) :
  Forall (fun c => wellFormed c.(hex)) colors ->
  exists result,
    sortColorsByHue colors = Some result
    /\ Permutation result colors
    /\ StronglySorted (fun a b => hue a.(hex) <= hue b.(hex)) result
    /\ forall v, filter (fun c => hue c.(hex) =? v) result
                 = filter (fun c => hue c.(hex) =? v) colors.
Proof.
  intros Hwf. eexists. split; [now apply sortColorsByHue_eq|].
  exact (sort_byKey_sortedBy (fun c => hue c.(hex)) colors).
Qed.

(** X9.  On well-formed colours [sortColorsBySaturation] returns the
    same colours in descending order of saturation, and colours of equal
    saturation keep the order they had in the input. *)
Theorem sortColorsBySaturation_descending_stable (colors : list color) :
  Forall (fun c => wellFormed c.(hex)) colors ->
  exists result,
    sortColorsBySaturation colors = Some result
    /\ Permutation result colors
    /\ StronglySorted (fun a b => saturation b.(hex) <= saturation a.(hex))
                      result
    /\ forall v, filter (fun c => saturation c.(hex) =? v) result
                 = filter (fun c => saturation c.(hex) =? v) colors.
Proof.
  intros Hwf. eexists. split; [now apply sortColorsBySaturation_eq|].
  destruct (sort_byKey_sortedBy (fun c => - saturation c.(hex)) colors)
    as (Hp & Hs & Hst).
  split; [exact Hp|]. split.
  - apply StronglySorted_weaken
      with (R := fun a b => - saturation a.(hex) <= - saturation b.(hex))
           (P := fun _ => True);
      [intros a b _ _ H; lia|apply Forall_forall; trivial|exact Hs].
  - intros v.
    assert (E : forall l : list color,
               filter (fun c => saturation c.(hex) =? v) l
               = filter (fun c => - saturation c.(hex) =? - v) l).
    { intros l. apply filter_ext. intros c.
      destruct (Z.eqb_spec (saturation c.(hex)) v),
               (Z.eqb_spec (- saturation c.(hex)) (- v)); try reflexivity; lia. }
    rewrite !E. apply Hst.
Qed.

(** X10.  On well-formed colours [sortColorsByLightness] returns the
    same colours in ascending order of lightness, the darkest first, and
    colours of equal lightness keep the order they had in the input. *)
Theorem sortColorsByLightness_ascending_stable (colors : list color) :
  Forall (fun c => wellFormed c.(hex)) colors ->
  exists result,
    sortColorsByLightness colors = Some result
    /\ Permutation result colors
    /\ StronglySorted (fun a b => lightness a.(hex) <= lightness b.(hex)) result
    /\ forall v, filter (fun c => lightness c.(hex) =? v) result
                 = filter (fun c => lightness c.(hex) =? v) colors.
Proof.
  intros Hwf. eexists. split; [now apply sortColorsByLightness_eq|].
  exact (sort_byKey_sortedBy (fun c => lightness c.(hex)) colors).
Qed.

(** X11.  [sortColorsChromatically] orders by hue alone: a collection
    whose colours all have the same hue is returned in its input order,
    whatever their lightness. *)
Theorem sortColorsChromatically_keeps_one_hue (colors : list color) (v : Z) :
  Forall (fun c => wellFormed c.(hex)) colors ->
  Forall (fun c => hue c.(hex) = v) colors ->
  sortColorsChromatically colors = Some colors.
Proof.
  intros Hwf Hv. unfold sortColorsChromatically.
  rewrite sortColorsByHue_eq by assumption. f_equal.
  apply sort_byKey_sorted_id.
  clear Hwf. induction Hv as [|c colors Hc Hv IH]; constructor; [assumption|].
  eapply Forall_impl; [|exact Hv]. intros d Hd. cbv beta in *. lia.
Qed.

(** X12.  Each sort leaves its own result as it is: sorting a second
    time by the same key changes nothing. *)
Theorem sorts_idempotent (colors : list color) :
  Forall (fun c => wellFormed c.(hex)) colors ->
  (exists r, sortColorsByHue colors = Some r /\ sortColorsByHue r = Some r)
  /\ (exists r, sortColorsBySaturation colors = Some r
                /\ sortColorsBySaturation r = Some r)
  /\ (exists r, sortColorsByLightness colors = Some r
                /\ sortColorsByLightness r = Some r).
Proof.
  intros Hwf.
  assert (W : forall key, Forall (fun c => wellFormed c.(hex))
                                 (sort (byKey key) colors)).
  { intros key. eapply Permutation_Forall; [symmetry; apply sort_perm|exact Hwf]. }
  split; [|split]; eexists; (split; [now (apply sortColorsByHue_eq
    || apply sortColorsBySaturation_eq || apply sortColorsByLightness_eq)|]).
  - rewrite sortColorsByHue_eq by apply W. f_equal.
    apply sort_byKey_sorted_id, sort_byKey_sorted.
  - rewrite sortColorsBySaturation_eq by apply W. f_equal.
    apply sort_byKey_sorted_id, sort_byKey_sorted.
  - rewrite sortColorsByLightness_eq by apply W. f_equal.
    apply sort_byKey_sorted_id, sort_byKey_sorted.
Qed.

(** X13.  Sorting by lightness and then by hue orders the colours by hue
    first and, within one hue, by lightness. *)
Theorem sort_by_lightness_then_hue (colors : list color) :
  Forall (fun c => wellFormed c.(hex)) colors ->
  exists byLightness result,
    sortColorsByLightness colors = Some byLightness
    /\ sortColorsByHue byLightness = Some result
    /\ Permutation result colors
    /\ StronglySorted
         (fun a b => hue a.(hex) < hue b.(hex)
                     \/ (hue a.(hex) = hue b.(hex)
                         /\ lightness a.(hex) <= lightness b.(hex)))
         result.
Proof.
  intros Hwf. eexists. eexists.
  split; [now apply sortColorsByLightness_eq|].
  split.
  { apply sortColorsByHue_eq.
    eapply Permutation_Forall; [symmetry; apply sort_perm|exact Hwf]. }
  split; [now rewrite !sort_perm|].
  apply (sort_byKey_lex (fun c => hue c.(hex)) (fun c => lightness c.(hex))).
  apply sort_byKey_sorted.
Qed.

(** * Brightness *)

Module Brightness.
Import Exhaustive.
Local Open Scope uint63_scope.

(** The rounded brightness of a colour is no smaller than its smallest
    channel and no larger than its largest. *)
Definition between (R G B : int) : bool :=
  let v := roundIdx (brightnessUnrounded
                       (of_uint63 R) (of_uint63 G) (of_uint63 B)) in
  ((R <=? v) || (G <=? v) || (B <=? v))
  && ((v <=? R) || (v <=? G) || (v <=? B)).

Lemma between_holds : upto3 between = true.
Proof. vm_compute. reflexivity. Qed.

Lemma between_spec (R G B : int) :
  (to_Z R <= 255)%Z -> (to_Z G <= 255)%Z -> (to_Z B <= 255)%Z ->
  between R G B = true ->
  (Z.min (Z.min (to_Z R) (to_Z G)) (to_Z B)
   <= brightnessOfChannels (to_Z R) (to_Z G) (to_Z B)
   <= Z.max (Z.max (to_Z R) (to_Z G)) (to_Z B))%Z.
Proof.
  intros HR HG HB H. unfold between in H. cbv zeta in H.
  unfold brightnessOfChannels. rewrite !num_to_Z.
  set (x := brightnessUnrounded _ _ _) in *.
  apply andb_true_iff in H. destruct H as [Hlo Hhi].
  assert (Hhi' : (to_Z (roundIdx x) <= Z.max (Z.max (to_Z R) (to_Z G)) (to_Z B))%Z).
  { apply orb_true_iff in Hhi. destruct Hhi as [Hhi|Hhi];
      [apply orb_true_iff in Hhi; destruct Hhi as [Hhi|Hhi]|];
      apply leb_spec in Hhi; lia. }
  assert (Hlo' : (Z.min (Z.min (to_Z R) (to_Z G)) (to_Z B) <= to_Z (roundIdx x))%Z).
  { apply orb_true_iff in Hlo. destruct Hlo as [Hlo|Hlo];
      [apply orb_true_iff in Hlo; destruct Hlo as [Hlo|Hlo]|];
      apply leb_spec in Hlo; lia. }
  rewrite roundIdx_spec by lia. lia.
Qed.

Lemma brightness_between (R G B : Z) :
  (0 <= R <= 255)%Z -> (0 <= G <= 255)%Z -> (0 <= B <= 255)%Z ->
  (Z.min (Z.min R G) B <= brightnessOfChannels R G B <= Z.max (Z.max R G) B)%Z.
Proof.
  intros HR HG HB.
  pose proof (upto3_spec between R G B between_holds HR HG HB) as H.
  assert (ER : to_Z (of_Z R) = R)
    by (apply to_Z_small with (n := R); [lia|reflexivity]).
  assert (EG : to_Z (of_Z G) = G)
    by (apply to_Z_small with (n := G); [lia|reflexivity]).
  assert (EB : to_Z (of_Z B) = B)
    by (apply to_Z_small with (n := B); [lia|reflexivity]).
  pose proof (between_spec (of_Z R) (of_Z G) (of_Z B)) as K.
  rewrite ER, EG, EB in K. apply K; try lia. exact H.
Qed.
End Brightness.

(** X1.  The brightness of a well-formed colour lies between its
    smallest and its largest channel; so it is within 0..255, and a gray
    [#vvvvvv] has brightness [v]. *)
Theorem brightness_between_channels (hex : string) :
  wellFormed hex ->
  exists R G B v,
    channels hex = Some (R, G, B)
    /\ getColorBrightness hex = Some v
    /\ Z.min (Z.min R G) B <= v <= Z.max (Z.max R G) B
    /\ 0 <= v <= 255
    /\ (R = G -> G = B -> v = R).
Proof.
  intros W.
  destruct (wellFormed_inv hex W) as (R & G & B & E & (HR & HG & HB) & _).
  exists R, G, B, (brightnessOfChannels R G B).
  pose proof (Brightness.brightness_between R G B HR HG HB) as H.
  split; [exact E|]. split; [unfold getColorBrightness; now rewrite E|].
  split; [exact H|]. split; lia.
Qed.

(** * Hex strings in and out *)

(** The six digits with their letters in either case, with or without
    the leading ['#'], give the same channels. *)
Lemma hexDigit_upperChar (c : ascii) : hexDigit (upperChar c) = hexDigit c.
Proof.
  destruct c as [[] [] [] [] [] [] [] []]; reflexivity.
Qed.

Lemma isHexDigit_upperChar (c : ascii) :
  isHexDigit c = true -> isHexDigit (upperChar c) = true.
Proof. unfold isHexDigit. now rewrite hexDigit_upperChar. Qed.

Lemma channels_six_then (a b c d e f : ascii) (tail : string) :
  Forall (fun x => isHexDigit x = true) [a; b; c; d; e; f] ->
  channels (String a (String b (String c (String d (String e
             (String f tail))))))
  = match parseInt16 (String a (String b EmptyString)),
          parseInt16 (String c (String d EmptyString)),
          parseInt16 (String e (String f EmptyString)) with
    | Some r, Some g, Some b => Some (r, g, b)
    | _, _, _ => None
    end.
Proof.
  intros H.
  repeat match goal with
         | H : Forall _ (_ :: _) |- _ => inversion H; clear H; subst
         end.
  unfold channels. cbn [removeFirstHash].
  rewrite !isHexDigit_not_hash by assumption.
  destruct (removeFirstHash tail); reflexivity.
Qed.

Lemma channels_six (a b c d e f : ascii) :
  Forall (fun x => isHexDigit x = true) [a; b; c; d; e; f] ->
  channels (String a (String b (String c (String d (String e
             (String f EmptyString))))))
  = match parseInt16 (String a (String b EmptyString)),
          parseInt16 (String c (String d EmptyString)),
          parseInt16 (String e (String f EmptyString)) with
    | Some r, Some g, Some b => Some (r, g, b)
    | _, _, _ => None
    end.
Proof. apply channels_six_then. Qed.

Lemma channels_tail (x tail : string) :
  sixHexDigits x -> channels (x ++ tail) = channels x.
Proof.
  intros (a & b & c & d & e & f & -> & H).
  rewrite (channels_six a b c d e f H). cbn [append].
  now apply channels_six_then.
Qed.

Lemma channels_hash (x : string) :
  sixHexDigits x -> channels (String "#"%char x) = channels x.
Proof.
  intros (a & b & c & d & e & f & -> & H).
  rewrite (channels_six a b c d e f H). reflexivity.
Qed.

Lemma channels_toUpperCase (x : string) :
  sixHexDigits x -> channels (toUpperCase x) = channels x.
Proof.
  intros (a & b & c & d & e & f & -> & H).
  rewrite (channels_six a b c d e f H). simpl toUpperCase.
  rewrite channels_six.
  - unfold parseInt16. now rewrite !hexDigit_upperChar.
  - repeat match goal with
           | H : Forall _ (_ :: _) |- _ => inversion H; clear H; subst
           end.
    repeat constructor; now apply isHexDigit_upperChar.
Qed.

(** X2.  The leading ['#'] is optional and the letters may be in either
    case: on six hex digits [hexToHsl], [getColorBrightness] and
    [getComplementaryColor] give the same result with the ['#'] in front
    and with the digits in upper case. *)
Theorem hash_and_case_are_ignored (x : string) :
  sixHexDigits x ->
  (hexToHsl (String "#"%char x) = hexToHsl x
   /\ hexToHsl (toUpperCase x) = hexToHsl x)
  /\ (getColorBrightness (String "#"%char x) = getColorBrightness x
      /\ getColorBrightness (toUpperCase x) = getColorBrightness x)
  /\ (getComplementaryColor (String "#"%char x) = getComplementaryColor x
      /\ getComplementaryColor (toUpperCase x) = getComplementaryColor x).
Proof.
  intros H. unfold getComplementaryColor, getColorBrightness, hexToHsl.
  rewrite (channels_hash x H), (channels_toUpperCase x H). tauto.
Qed.

(** X21.  Only the first six digits are read: whatever follows them, an
    alpha channel for one, changes nothing. *)
Theorem trailing_characters_are_ignored (x tail : string) :
  sixHexDigits x ->
  hexToHsl (x ++ tail) = hexToHsl x
  /\ hexToHsl (String "#"%char (x ++ tail)) = hexToHsl x
  /\ getColorBrightness (x ++ tail) = getColorBrightness x
  /\ getComplementaryColor (x ++ tail) = getComplementaryColor x.
Proof.
  intros H.
  assert (E : channels (String "#"%char (x ++ tail)) = channels x).
  { destruct H as (a & b & c & d & e & f & -> & H).
    rewrite (channels_six a b c d e f H). cbn [append].
    unfold channels at 1. cbn [removeFirstHash Ascii.eqb Bool.eqb].
    destruct tail; reflexivity. }
  unfold getComplementaryColor, getColorBrightness, hexToHsl.
  rewrite E, (channels_tail x tail H). tauto.
Qed.

(** ** Canonical output *)

Definition isUpperHexDigit (c : ascii) : bool :=
  let n := Z.of_nat (nat_of_ascii c) in
  ((48 <=? n) && (n <=? 57)) || ((65 <=? n) && (n <=? 70)).

(** ['#'] followed by six digits among [0-9A-F]. *)
Definition canonicalHex (x : string) : bool :=
  match x with
  | String c0 (String a (String b (String c (String d (String e
      (String f EmptyString)))))) =>
      Ascii.eqb c0 "#"%char && forallb isUpperHexDigit [a; b; c; d; e; f]
  | _ => false
  end.

Definition twoDigitsUpper (x : Z) : bool :=
  match toUpperCase (padStart2 (toString16 x)) with
  | String a (String b EmptyString) => isUpperHexDigit a && isUpperHexDigit b
  | _ => false
  end.

Lemma twoDigitsUpper_all : allBelow 256 twoDigitsUpper = true.
Proof. vm_compute. reflexivity. Qed.

Lemma formatHex_canonical (r g b : Z) :
  isChannels (r, g, b) -> canonicalHex (formatHex (r, g, b)) = true.
Proof.
  intros (Hr & Hg & Hb).
  assert (T : forall x, 0 <= x <= 255 ->
            exists c d, toUpperCase (padStart2 (toString16 x))
                        = String c (String d EmptyString)
                        /\ isUpperHexDigit c = true /\ isUpperHexDigit d = true).
  { intros x Hx.
    pose proof (allBelow_spec 256 twoDigitsUpper twoDigitsUpper_all x) as H.
    specialize (H ltac:(change (Z.of_nat 256) with 256; lia)).
    unfold twoDigitsUpper in H.
    destruct (toUpperCase _) as [|c [|d [|]]]; try discriminate.
    apply andb_true_iff in H. exists c, d. tauto. }
  destruct (T r Hr) as (r1 & r2 & Er & Ur1 & Ur2).
  destruct (T g Hg) as (g1 & g2 & Eg & Ug1 & Ug2).
  destruct (T b Hb) as (b1 & b2 & Eb & Ub1 & Ub2).
  unfold formatHex. rewrite !toUpperCase_app, Er, Eg, Eb.
  simpl. now rewrite Ur1, Ur2, Ug1, Ug2, Ub1, Ub2.
Qed.

(** With hue 360 the channels are in range as well. *)
Definition achromaticInRange (s l : Z) : bool :=
  (0 <=? achromaticChannel s l) && (achromaticChannel s l <=? 255).

Lemma achromaticInRange_all :
  allBelow 101 (fun s => allBelow 101 (fun l => achromaticInRange s l)) = true.
Proof. vm_compute. reflexivity. Qed.

Lemma channelsOfHsl_360 (s l : Z) :
  0 <= s <= 100 -> 0 <= l <= 100 ->
  exists v, channelsOfHsl 360 s l = (v, v, v) /\ 0 <= v <= 255.
Proof.
  intros Hs Hl. exists (achromaticChannel s l). split.
  - pose proof (allBelow_spec 101 _ achromaticAt360_all s) as H.
    specialize (H ltac:(change (Z.of_nat 101) with 101; lia)).
    cbv beta in H.
    pose proof (allBelow_spec 101 _ H l) as K.
    specialize (K ltac:(change (Z.of_nat 101) with 101; lia)).
    cbv beta in K. unfold achromaticAt360 in K.
    destruct (channelsOfHsl 360 s l) as [[r g] b].
    apply andb_true_iff in K. destruct K as [K Kb].
    apply andb_true_iff in K. destruct K as [Kr Kg].
    apply Z.eqb_eq in Kr, Kg, Kb. now subst.
  - pose proof (allBelow_spec 101 _ achromaticInRange_all s) as H.
    specialize (H ltac:(change (Z.of_nat 101) with 101; lia)).
    cbv beta in H.
    pose proof (allBelow_spec 101 _ H l) as K.
    specialize (K ltac:(change (Z.of_nat 101) with 101; lia)).
    cbv beta in K. unfold achromaticInRange in K.
    apply andb_true_iff in K. destruct K as [K1 K2].
    apply Z.leb_le in K1, K2. lia.
Qed.

Lemma roundTrip_isChannels (R G B : Z) :
  isChannels (R, G, B) -> isChannels (roundTrip R G B).
Proof.
  intros (HR & HG & HB).
  destruct (Exhaustive.conversion_facts R G B HR HG HB) as (Hq & Hrt & _).
  destruct (Z.eq_dec (hslOfChannels R G B).(h) 360) as [E|E].
  - unfold roundTrip. rewrite E.
    destruct (channelsOfHsl_360 (hslOfChannels R G B).(s)
                (hslOfChannels R G B).(l)) as (v & -> & Hv); [lia|lia|].
    unfold isChannels. lia.
  - now destruct (Hrt E).
Qed.

(** X5.  What [hslToHex] and [getComplementaryColor] return for a
    well-formed colour is canonical, ['#'] and six digits among [0-9A-F],
    and is itself well-formed, so it can be passed on to [hexToHsl]. *)
Theorem outputs_are_canonical (hex : string) :
  wellFormed hex ->
  (exists q, hexToHsl hex = Some q
             /\ canonicalHex (hslToHex q.(h) q.(s) q.(l)) = true
             /\ wellFormed (hslToHex q.(h) q.(s) q.(l)))
  /\ (exists c, getComplementaryColor hex = Some c
                /\ canonicalHex c = true /\ wellFormed c).
Proof.
  intros W.
  destruct (wellFormed_inv hex W) as (R & G & B & E & HRGB & Eq & _).
  pose proof (roundTrip_isChannels R G B HRGB) as Hrt.
  destruct HRGB as (HR & HG & HB).
  destruct (Exhaustive.conversion_facts R G B HR HG HB) as (_ & _ & Hc & _).
  split.
  - exists (hslOfChannels R G B). split; [exact Eq|].
    unfold hslToHex. fold (roundTrip R G B).
    destruct (roundTrip R G B) as [[r g] b].
    split; [now apply formatHex_canonical|].
    apply wellFormed_channels. exists r, g, b. now apply channels_formatHex.
  - exists (formatHex (complementChannels R G B)).
    split; [now apply getComplementaryColor_channels|].
    destruct (complementChannels R G B) as [[r g] b].
    split; [now apply formatHex_canonical|].
    apply wellFormed_channels. exists r, g, b. now apply channels_formatHex.
Qed.

(** ** Grays *)

(** [round(v / 255 * 100)], the lightness of the gray [#vvvvvv]. *)
Definition grayLightness (v : Z) : Z :=
  toInt (Math_round (num v / 255 * 100)%float).

(** [round(l / 100 * 255)], the channel of the gray of lightness [l]. *)
Definition grayChannel (l : Z) : Z :=
  toInt (Math_round (num l / 100 * 255)%float).

Definition grayIsAchromatic (v : Z) : bool :=
  let q := hslOfChannels v v v in
  (q.(h) =? 0) && (q.(s) =? 0) && (q.(l) =? grayLightness v).

Lemma grayIsAchromatic_all : allBelow 256 grayIsAchromatic = true.
Proof. vm_compute. reflexivity. Qed.

(** X3.  A gray, a colour whose three channels are equal, has hue 0 and
    saturation 0; its lightness is [round(v / 255 * 100)]. *)
Theorem gray_has_no_hue (hex : string) (v : Z) :
  channels hex = Some (v, v, v) ->
  hexToHsl hex = Some (mkHsl 0 0 (grayLightness v)).
Proof.
  intros E. rewrite (hexToHsl_channels _ _ _ _ E). f_equal.
  destruct (channels_range _ _ _ _ E) as (Hv & _).
  pose proof (allBelow_spec 256 grayIsAchromatic grayIsAchromatic_all v) as H.
  specialize (H ltac:(change (Z.of_nat 256) with 256; lia)).
  unfold grayIsAchromatic in H. cbv zeta in H.
  destruct (hslOfChannels v v v) as [qh qs ql]. simpl in H.
  apply andb_true_iff in H. destruct H as [H Hl].
  apply andb_true_iff in H. destruct H as [Hh Hs].
  apply Z.eqb_eq in Hh, Hs, Hl. now subst.
Qed.

(** The channels of the complement of the gray [v] are all
    [grayChannel (grayLightness v)], a value in 0..255 within 1 of [v],
    which is [v] itself at 0 and at 255. *)
Definition grayComplement (v : Z) : bool :=
  let '(r, g, b) := complementChannels v v v in
  let w := grayChannel (grayLightness v) in
  (r =? w) && (g =? w) && (b =? w)
  && (0 <=? w) && (w <=? 255) && (Z.abs (w - v) <=? 1)
  && implb (v =? 0) (w =? 0) && implb (v =? 255) (w =? 255).

Lemma grayComplement_all : allBelow 256 grayComplement = true.
Proof. vm_compute. reflexivity. Qed.

(** X6.  The complement of a gray [#vvvvvv] is the gray [#wwwwww] with
    [w = round(round(v / 255 * 100) / 100 * 255)], a channel value in
    0..255 within 1 of [v]: grays have no opposite, black stays black
    and white stays white. *)
Theorem gray_complement_is_gray (hex : string) (v : Z) :
  channels hex = Some (v, v, v) ->
  exists w,
    w = grayChannel (grayLightness v)
    /\ getComplementaryColor hex = Some (formatHex (w, w, w))
    /\ 0 <= w <= 255
    /\ Z.abs (w - v) <= 1
    /\ (v = 0 -> getComplementaryColor hex = Some "#000000"%string)
    /\ (v = 255 -> getComplementaryColor hex = Some "#FFFFFF"%string).
Proof.
  intros E. rewrite (getComplementaryColor_channels _ _ _ _ E).
  destruct (channels_range _ _ _ _ E) as (Hv & _).
  pose proof (allBelow_spec 256 grayComplement grayComplement_all v) as H.
  specialize (H ltac:(change (Z.of_nat 256) with 256; lia)).
  unfold grayComplement in H.
  destruct (complementChannels v v v) as [[r g] b]. cbv zeta in H.
  repeat match type of H with
         | (_ && _ = true) =>
             let K := fresh "K" in
             apply andb_true_iff in H; destruct H as [H K]
         end.
  apply Z.eqb_eq in H, K5, K4. apply Z.leb_le in K3, K2, K1.
  set (w := grayChannel (grayLightness v)) in *. subst r g b.
  exists w. split; [reflexivity|]. split; [reflexivity|].
  split; [lia|]. split; [assumption|]. split.
  - intros ->. change (0 =? 0) with true in K0. simpl in K0.
    apply Z.eqb_eq in K0. rewrite K0. reflexivity.
  - intros ->. change (255 =? 255) with true in K. simpl in K.
    apply Z.eqb_eq in K. rewrite K. reflexivity.
Qed.

(** ** [hslToHex] at the ends of saturation and lightness *)

Module Ends.
Import Exhaustive.
Local Open Scope uint63_scope.

Definition grayIdx (x : int) : int :=
  roundIdx (of_uint63 x / 100 * 255)%float.

Definition allThree (rgb : option (int * int * int)) (v : int) : bool :=
  match rgb with
  | Some (r, g, b) => (r =? v) && (g =? v) && (b =? v)
  | None => false
  end.

(** At hue [h]: saturation 0 gives the gray of lightness [x], lightness
    0 black and lightness 100 white, at saturation [x]. *)
Definition endsAt (h x : int) : bool :=
  (grayIdx x <=? 255)
  && allThree (rgbInts h 0 x) (grayIdx x)
  && allThree (rgbInts h x 0) 0
  && allThree (rgbInts h x 100) 255.

Lemma endsAt_holds :
  upto 361 0 (fun h => upto 101 0 (fun x => endsAt h x)) = true.
Proof. vm_compute. reflexivity. Qed.

Lemma allThree_spec (h s l v : int) :
  allThree (rgbInts h s l) v = true ->
  channelsOfHsl (to_Z h) (to_Z s) (to_Z l) = (to_Z v, to_Z v, to_Z v).
Proof.
  unfold allThree. destruct (rgbInts h s l) as [[[r g] b]|] eqn:E;
    [|discriminate].
  intros H. apply rgbInts_spec in E. destruct E as [-> _].
  apply andb_true_iff in H. destruct H as [H Hb].
  apply andb_true_iff in H. destruct H as [Hr Hg].
  apply eqb_spec in Hr, Hg, Hb. now subst.
Qed.

Lemma endsAt_spec (h x : Z) :
  (0 <= h <= 360)%Z -> (0 <= x <= 100)%Z ->
  channelsOfHsl h 0 x = (grayChannel x, grayChannel x, grayChannel x)
  /\ channelsOfHsl h x 0 = (0, 0, 0)%Z
  /\ channelsOfHsl h x 100 = (255, 255, 255)%Z.
Proof.
  intros Hh Hx.
  assert (Eh : to_Z (of_Z h) = h)
    by (apply to_Z_small with (n := h); [lia|reflexivity]).
  assert (Ex : to_Z (of_Z x) = x)
    by (apply to_Z_small with (n := x); [lia|reflexivity]).
  pose proof (upto_spec 361 0 _ ltac:(simpl; lia) endsAt_holds (of_Z h)) as H.
  cbv beta in H. rewrite Eh in H.
  specialize (H ltac:(change (to_Z 0) with 0%Z; simpl; lia)).
  pose proof (upto_spec 101 0 _ ltac:(simpl; lia) H (of_Z x)) as K.
  cbv beta in K. rewrite Ex in K.
  specialize (K ltac:(change (to_Z 0) with 0%Z; simpl; lia)).
  unfold endsAt in K.
  apply andb_true_iff in K. destruct K as [K K3].
  apply andb_true_iff in K. destruct K as [K K2].
  apply andb_true_iff in K. destruct K as [K0 K1].
  apply allThree_spec in K1, K2, K3. rewrite Eh, Ex in K1, K2, K3.
  change (to_Z 0) with 0%Z in *. change (to_Z 100) with 100%Z in *.
  change (to_Z 255) with 255%Z in *.
  split; [|split; assumption]. rewrite K1.
  assert (G : grayChannel x = to_Z (grayIdx (of_Z x))).
  { unfold grayChannel, grayIdx. rewrite <- Ex at 1. rewrite num_to_Z.
    apply roundIdx_spec. apply leb_spec in K0.
    change (to_Z 255) with 255%Z in K0. unfold grayIdx in K0. lia. }
  now rewrite G.
Qed.
End Ends.

(** X4.  For a hue in 0..360: with saturation 0 [hslToHex] returns the
    gray of the given lightness, with lightness 0 it returns black and
    with lightness 100 white, whatever the hue and the saturation. *)
Theorem hslToHex_at_the_ends (h x : Z) :
  0 <= h <= 360 -> 0 <= x <= 100 ->
  hslToHex h 0 x = formatHex (grayChannel x, grayChannel x, grayChannel x)
  /\ hslToHex h x 0 = "#000000"%string
  /\ hslToHex h x 100 = "#FFFFFF"%string.
Proof.
  intros Hh Hx. destruct (Ends.endsAt_spec h x Hh Hx) as (E1 & E2 & E3).
  unfold hslToHex. rewrite E1, E2, E3. repeat split; reflexivity.
Qed.

(** ** [hslToHex] on its whole domain *)

Module Grid.
Import Exhaustive.
Local Open Scope uint63_scope.

(** The three channels of [hslToHex(h, s, l)] are within 0..255. *)
Definition inRange (h s l : int) : bool :=
  match rgbInts h s l with Some _ => true | None => false end.

Lemma inRange_holds :
  upto 361 0 (fun h => upto 101 0 (fun s => upto 101 0 (fun l => inRange h s l)))
  = true.
Proof. vm_compute. reflexivity. Qed.

Lemma inRange_spec (h s l : Z) :
  (0 <= h <= 360)%Z -> (0 <= s <= 100)%Z -> (0 <= l <= 100)%Z ->
  isChannels (channelsOfHsl h s l).
Proof.
  intros Hh Hs Hl.
  assert (Eh : to_Z (of_Z h) = h)
    by (apply to_Z_small with (n := h); [lia|reflexivity]).
  assert (Es : to_Z (of_Z s) = s)
    by (apply to_Z_small with (n := s); [lia|reflexivity]).
  assert (El : to_Z (of_Z l) = l)
    by (apply to_Z_small with (n := l); [lia|reflexivity]).
  pose proof (upto_spec 361 0 _ ltac:(simpl; lia) inRange_holds (of_Z h)) as H.
  cbv beta in H. rewrite Eh in H.
  specialize (H ltac:(change (to_Z 0) with 0%Z; simpl; lia)).
  pose proof (upto_spec 101 0 _ ltac:(simpl; lia) H (of_Z s)) as K.
  cbv beta in K. rewrite Es in K.
  specialize (K ltac:(change (to_Z 0) with 0%Z; simpl; lia)).
  pose proof (upto_spec 101 0 _ ltac:(simpl; lia) K (of_Z l)) as L.
  cbv beta in L. rewrite El in L.
  specialize (L ltac:(change (to_Z 0) with 0%Z; simpl; lia)).
  unfold inRange in L.
  destruct (rgbInts (of_Z h) (of_Z s) (of_Z l)) as [[[r g] b]|] eqn:E;
    [|discriminate].
  apply rgbInts_spec in E. rewrite Eh, Es, El in E.
  destruct E as [-> (Hr & Hg & Hb)].
  pose proof (to_Z_range r). pose proof (to_Z_range g).
  pose proof (to_Z_range b). unfold isChannels. lia.
Qed.
End Grid.

(** X24.  For all integers [h] in 0..360 and [s], [l] in 0..100, the
    three channels [hslToHex] computes are within 0..255, and what it
    returns is canonical, ['#'] and six digits among [0-9A-F], and
    well-formed. *)
Theorem hslToHex_is_canonical (h s l : Z) :
  0 <= h <= 360 -> 0 <= s <= 100 -> 0 <= l <= 100 ->
  isChannels (channelsOfHsl h s l)
  /\ canonicalHex (hslToHex h s l) = true
  /\ wellFormed (hslToHex h s l).
Proof.
  intros Hh Hs Hl. pose proof (Grid.inRange_spec h s l Hh Hs Hl) as H.
  split; [exact H|]. unfold hslToHex.
  destruct (channelsOfHsl h s l) as [[r g] b].
  split; [now apply formatHex_canonical|].
  apply wellFormed_channels. exists r, g, b. now apply channels_formatHex.
Qed.

(** * More on the harmony searches *)

(** ** What the count does *)

(** X17.  With an empty collection, or with count 0, every search
    returns the empty array.  A negative count does not: as
    [slice(0, count)] counts from the end, the search returns its ranked
    matches without the last [-count] of them. *)
Theorem search_edge_counts
  (r : relation) (colors : list color) (baseHex : string) (count : Z) :
  wellFormed baseHex ->
  Forall (fun c => wellFormed c.(hex)) colors ->
  search r [] baseHex count = Some []
  /\ search r colors baseHex 0 = Some []
  /\ (count < 0 ->
      exists result dropped,
        search r colors baseHex count = Some result
        /\ sort (comparator r) (qualifying colors baseHex r) = result ++ dropped
        /\ Z.of_nat (List.length dropped)
           = Z.min (- count)
                   (Z.of_nat (List.length (qualifying colors baseHex r)))).
Proof.
  intros Hb Hc. split; [|split].
  - rewrite search_eq by (auto; constructor).
    destruct r; simpl; unfold slice0; destruct (count <? 0); simpl;
      now rewrite ?firstn_nil.
  - now rewrite search_eq by assumption.
  - intros Hneg. rewrite search_eq by assumption.
    set (ranked := sort (comparator r) (qualifying colors baseHex r)).
    assert (L : List.length ranked
                = List.length (qualifying colors baseHex r))
      by apply Permutation_length, sort_perm.
    rewrite <- L.
    exists (slice0 count ranked),
      (skipn (List.length ranked - Z.to_nat (- count)) ranked).
    split; [reflexivity|]. unfold slice0.
    destruct (Z.ltb_spec count 0); [|lia].
    split; [now rewrite firstn_skipn|].
    rewrite length_skipn. lia.
Qed.

(** X18.  Asking for fewer colours gives a prefix of the longer answer. *)
Theorem search_prefix_in_count
  (r : relation) (colors : list color) (baseHex : string) (k k' : Z) :
  wellFormed baseHex ->
  Forall (fun c => wellFormed c.(hex)) colors ->
  0 <= k <= k' ->
  exists longer,
    search r colors baseHex k' = Some longer
    /\ search r colors baseHex k = Some (firstn (Z.to_nat k) longer).
Proof.
  intros Hb Hc Hk. rewrite !search_eq by assumption.
  eexists. split; [reflexivity|]. f_equal.
  rewrite !slice0_firstn by lia. rewrite firstn_firstn. f_equal. lia.
Qed.

(** ** The base colour in front *)

Section NearOffsets.
Variables (colors : list color) (baseHex : string) (o1 o2 w : Z).

Definition nearOffsets : list annotated :=
  map (fun c => withHueDiff c (nearestOf baseHex o1 o2 c))
      (filter (fun c => negb (isBase baseHex c)
                        && (nearestOf baseHex o1 o2 c <=? w)) colors).

Lemma nearOffsets_copies e :
  In e nearOffsets ->
  exists c, In c colors /\ c.(hex) <> baseHex
            /\ e = withHueDiff c (nearestOf baseHex o1 o2 c)
            /\ nearestOf baseHex o1 o2 c <= w.
Proof.
  unfold nearOffsets. intros He. apply in_map_iff in He.
  destruct He as (c & <- & Hc). apply filter_In in Hc.
  destruct Hc as [Hc Hw]. apply andb_true_iff in Hw. destruct Hw as [Hn Hw].
  exists c. split; [assumption|]. split.
  - unfold isBase in Hn. apply negb_true_iff in Hn. now apply String.eqb_neq.
  - split; [reflexivity|now apply Z.leb_le].
Qed.

Lemma nearOffsets_with_base (b : color) (count : Z) :
  find (isBase baseHex) colors = Some b ->
  attribute "hueDiff" b = None -> 1 <= count ->
  exists rest,
    slice0 count (sort byHueDiff (baseEntry colors baseHex ++ nearOffsets))
    = unannotated b :: rest
    /\ Forall (fun e =>
                 exists c, In c colors /\ c.(hex) <> baseHex
                           /\ e = withHueDiff c (nearestOf baseHex o1 o2 c)
                           /\ nearestOf baseHex o1 o2 c <= w) rest
    /\ ascendingBy hueDiff rest.
Proof.
  intros Hfind Hnone Hcount. unfold baseEntry. rewrite Hfind. simpl.
  rewrite (sort_base_first Triadic), slice0_cons by assumption.
  eexists. split; [reflexivity|]. split.
  - apply Forall_forall. intros e He. apply slice0_incl in He.
    apply (Permutation_in _ (sort_perm _ _)) in He.
    now apply nearOffsets_copies.
  - apply slice0_sorted; [lia|]. apply (sort_scored_ascending Triadic).
    apply Forall_forall. intros e He. apply nearOffsets_copies in He.
    destruct He as (c & _ & _ & -> & _). now eexists.
Qed.
End NearOffsets.

(** X15.  When the collection holds a record whose [hex] is the base
    hex, this record carries no [hueDiff] attribute of its own and
    [count >= 1], the triadic and the split-complementary search return
    that record first, as it is; after it come copies of other colours,
    each within the search's width (45 and 30 degrees) of one of its
    three target hues, in ascending order of that distance. *)
Theorem triadic_and_split_base_first
  (colors : list color) (baseHex : string) (count : Z) (b : color) :
  wellFormed baseHex ->
  Forall (fun c => wellFormed c.(hex)) colors ->
  find (fun c => String.eqb c.(hex) baseHex) colors = Some b ->
  attribute "hueDiff" b = None ->
  1 <= count ->
  (exists rest,
     findTriadicColorsFromCollection colors baseHex count
     = Some (unannotated b :: rest)
     /\ Forall (fun e =>
                  exists c, In c colors /\ c.(hex) <> baseHex
                            /\ e = withHueDiff c (nearestOf baseHex 120 240 c)
                            /\ nearestOf baseHex 120 240 c <= 45) rest
     /\ ascendingBy hueDiff rest)
  /\ (exists rest,
        findSplitComplementaryFromCollection colors baseHex count
        = Some (unannotated b :: rest)
        /\ Forall (fun e =>
                     exists c, In c colors /\ c.(hex) <> baseHex
                               /\ e = withHueDiff c (nearestOf baseHex 150 210 c)
                               /\ nearestOf baseHex 150 210 c <= 30) rest
        /\ ascendingBy hueDiff rest).
Proof.
  intros Hb Hc Hfind Hnone Hcount. split.
  - rewrite triadic_eq by assumption.
    destruct (nearOffsets_with_base colors baseHex 120 240 45 b count
                Hfind Hnone Hcount) as (rest & E & H).
    exists rest. split; [|exact H]. f_equal. exact E.
  - rewrite split_eq by assumption.
    destruct (nearOffsets_with_base colors baseHex 150 210 30 b count
                Hfind Hnone Hcount) as (rest & E & H).
    exists rest. split; [|exact H]. f_equal. exact E.
Qed.

(** ** Only colours of the collection, none twice *)

Definition hexOf (e : annotated) : string := e.(source).(hex).

(** Dropping colours keeps the hexes distinct. *)
Lemma distinct_hex_filter (keep : color -> bool) (colors : list color) :
  NoDup (map hex colors) -> NoDup (map hex (filter keep colors)).
Proof.
  induction colors as [|c colors IH]; intros Hn; [constructor|].
  apply NoDup_cons_iff in Hn. destruct Hn as [Hc Hrest]. simpl.
  destruct (keep c); [|now apply IH].
  simpl. constructor; [|now apply IH].
  intros Hin. apply Hc. apply in_map_iff in Hin.
  destruct Hin as (y & E & Hy). apply filter_In in Hy.
  apply in_map_iff. exists y. tauto.
Qed.

Lemma NoDup_map_firstByHex (seen : list string) (l : list color) :
  NoDup (map hex l) -> NoDup (map hex (firstByHex seen l)).
Proof.
  revert seen. induction l as [|c l IH]; simpl; intros seen H; [constructor|].
  inversion H as [|? ? Hc Hl]; subst.
  destruct (existsb _ seen); simpl; [now apply IH|].
  constructor; [|now apply IH].
  intros Hin. apply Hc. apply in_map_iff in Hin.
  destruct Hin as (y & E & Hy). apply firstByHex_incl in Hy.
  apply in_map_iff. eauto.
Qed.

Lemma NoDup_firstn {A} (n : nat) (l : list A) : NoDup l -> NoDup (firstn n l).
Proof.
  intros H. rewrite <- (firstn_skipn n l) in H.
  now apply NoDup_app_remove_r in H.
Qed.

Lemma hexOf_copies (f : color -> annotated) (l : list color) :
  (forall c, (f c).(source) = c) -> map hexOf (map f l) = map hex l.
Proof.
  intros H. rewrite map_map. apply map_ext. intros c. unfold hexOf.
  now rewrite H.
Qed.

Section QualifyingSources.
Variables (colors : list color) (baseHex : string).

Lemma baseEntry_source e :
  In e (baseEntry colors baseHex) ->
  In e.(source) colors /\ hexOf e = baseHex.
Proof.
  unfold baseEntry. destruct (find _ colors) as [b|] eqn:E; [|intros []].
  intros [<-|[]]. apply find_some in E. destruct E as [Hb Eb].
  split; [assumption|]. now apply String.eqb_eq.
Qed.

Lemma base_then_others_NoDup (p : color -> bool) (f : color -> annotated) :
  (forall c, (f c).(source) = c) ->
  (forall c, p c = true -> isBase baseHex c = false) ->
  NoDup (map hex colors) ->
  NoDup (map hexOf (baseEntry colors baseHex ++ map f (filter p colors))).
Proof.
  intros Hf Hp Hn. rewrite map_app. apply NoDup_app.
  - unfold baseEntry. destruct (find _ colors); repeat constructor. intros [].
  - rewrite hexOf_copies by assumption. now apply distinct_hex_filter.
  - intros a Ha Hb. apply in_map_iff in Ha. destruct Ha as (e & <- & He).
    apply baseEntry_source in He. destruct He as [_ He].
    rewrite hexOf_copies in Hb by assumption.
    apply in_map_iff in Hb. destruct Hb as (c & Ec & Hc).
    apply filter_In in Hc. destruct Hc as [_ Hc]. apply Hp in Hc.
    unfold isBase in Hc. apply String.eqb_neq in Hc. congruence.
Qed.

Lemma qualifying_sources r e :
  In e (qualifying colors baseHex r) -> In e.(source) colors.
Proof.
  assert (M : forall (f : color -> annotated) p,
             (forall c, (f c).(source) = c) ->
             In e (map f (filter p colors)) -> In e.(source) colors).
  { intros f p Hf He. apply in_map_iff in He. destruct He as (c & <- & Hc).
    apply filter_In in Hc. rewrite Hf. tauto. }
  assert (P : In e (primaryMatches colors baseHex) -> In e.(source) colors).
  { intros He. apply primary_copies in He.
    destruct He as (c & Hc & -> & _). exact Hc. }
  assert (F : In e (fallbackMatches colors baseHex) -> In e.(source) colors).
  { intros He. apply fallback_copies in He.
    destruct He as (c & Hc & -> & _). exact Hc. }
  destruct r; simpl; intros He.
  - now apply M in He.
  - apply in_app_or in He. destruct He as [He|He];
      [now apply baseEntry_source in He|].
    apply in_app_or in He. destruct He as [He|He]; auto.
  - apply in_app_or in He. destruct He as [He|He];
      [now apply baseEntry_source in He|now apply M in He].
  - now apply M in He.
  - apply in_app_or in He. destruct He as [He|He];
      [now apply baseEntry_source in He|now apply M in He].
Qed.

Lemma qualifying_NoDup r :
  NoDup (map hex colors) -> NoDup (map hexOf (qualifying colors baseHex r)).
Proof.
  intros Hn.
  assert (B : forall a b, negb (isBase baseHex a) && b = true ->
                          isBase baseHex a = false).
  { intros a b H. apply andb_true_iff in H. now apply negb_true_iff. }
  destruct r; simpl.
  - rewrite hexOf_copies by reflexivity. now apply distinct_hex_filter.
  - rewrite app_assoc, map_app. apply NoDup_app.
    + apply base_then_others_NoDup; [reflexivity| |assumption].
      intros c. apply B.
    + unfold fallbackMatches. rewrite hexOf_copies by reflexivity.
      now apply NoDup_map_firstByHex, distinct_hex_filter.
    + intros a Ha Hb. apply in_map_iff in Ha. destruct Ha as (e & <- & He).
      apply in_map_iff in Hb. destruct Hb as (f & Ef & Hf).
      unfold fallbackMatches in Hf. apply in_map_iff in Hf.
      destruct Hf as (c & <- & Hc). apply firstByHex_incl in Hc.
      apply filter_In in Hc. destruct Hc as [_ Hc].
      apply andb_true_iff in Hc. destruct Hc as [Hc _].
      apply andb_true_iff in Hc. destruct Hc as [_ Hc].
      apply negb_true_iff in Hc. unfold selected in Hc.
      assert (X : existsb (fun e0 => String.eqb e0.(source).(hex) c.(hex))
                    (baseEntry colors baseHex ++ primaryMatches colors baseHex)
                  = true).
      { apply existsb_exists. exists e. split; [assumption|].
        apply String.eqb_eq. unfold hexOf in Ef. simpl in Ef. now symmetry. }
      congruence.
  - apply base_then_others_NoDup; [reflexivity| |assumption]. intros c. apply B.
  - rewrite hexOf_copies by reflexivity. now apply distinct_hex_filter.
  - apply base_then_others_NoDup; [reflexivity| |assumption]. intros c. apply B.
Qed.
End QualifyingSources.

(** X14.  A search returns colours of the collection only, and when the
    collection holds no hex twice, neither does the result. *)
Theorem search_returns_collection_colours
  (r : relation) (colors : list color) (baseHex : string) (count : Z) :
  wellFormed baseHex ->
  Forall (fun c => wellFormed c.(hex)) colors ->
  exists result,
    search r colors baseHex count = Some result
    /\ Forall (fun e => In e.(source) colors) result
    /\ (NoDup (map hex colors) ->
        NoDup (map (fun e => e.(source).(hex)) result)).
Proof.
  intros Hb Hc. eexists. split; [now apply search_eq|]. split.
  - apply Forall_forall. intros e He. apply slice0_incl in He.
    apply (Permutation_in _ (sort_perm _ _)) in He.
    now apply qualifying_sources in He.
  - intros Hn. apply (qualifying_NoDup colors baseHex r) in Hn.
    apply (Permutation_NoDup
             (Permutation_map hexOf
                (Permutation_sym (sort_perm (comparator r) _)))) in Hn.
    unfold slice0. destruct (count <? 0);
      change (fun e : annotated => e.(source).(hex)) with hexOf;
      rewrite <- firstn_map; now apply NoDup_firstn.
Qed.

(** ** The closest match *)

Lemma ascendingBy_head_least (key : annotated -> option Z) x l e d dx :
  ascendingBy key (x :: l) -> In e (x :: l) ->
  key x = Some dx -> key e = Some d -> dx <= d.
Proof.
  intros Hs He Hx Hd. destruct He as [<-|He].
  - rewrite Hx in Hd. inversion Hd. lia.
  - apply StronglySorted_inv in Hs. destruct Hs as [_ Hs].
    rewrite Forall_forall in Hs. specialize (Hs e He).
    now rewrite Hx, Hd in Hs.
Qed.

Lemma toBase_same (baseHex : string) (c : color) :
  c.(hex) = baseHex -> toBase baseHex c = 0.
Proof.
  intros <-. unfold toBase, hueDistance. rewrite Z.sub_diag. reflexivity.
Qed.

Lemma toBase_nonneg (baseHex : string) (c : color) :
  wellFormed baseHex -> wellFormed c.(hex) -> 0 <= toBase baseHex c.
Proof.
  intros Hb Hc. unfold toBase.
  apply hueDistance_range; now apply hue_range.
Qed.

(** X16.  When the collection holds the base colour and [count >= 1],
    the analogous search returns first an entry at hue difference 0 and
    the monochromatic search an entry at lightness difference 0. *)
Theorem exact_match_comes_first
  (colors : list color) (baseHex : string) (count : Z) (b : color) :
  wellFormed baseHex ->
  Forall (fun c => wellFormed c.(hex)) colors ->
  In b colors -> b.(hex) = baseHex ->
  1 <= count ->
  (exists e rest,
     findAnalogousColorsFromCollection colors baseHex count = Some (e :: rest)
     /\ e.(hueDiff) = Some 0)
  /\ (exists e rest,
        findMonochromaticColorsFromCollection colors baseHex count
        = Some (e :: rest)
        /\ e.(lightnessDiff) = Some 0).
Proof.
  intros Hb Hc Hin Ehex Hcount.
  pose proof (toBase_same baseHex b Ehex) as Hzero.
  rewrite Forall_forall in Hc.
  assert (G : forall r (ann : color -> annotated) (f : color -> Z) w,
             (forall c, score r (ann c) = Some (f c)) ->
             (forall c, In c colors -> 0 <= f c) -> f b = 0 -> 0 <= w ->
             qualifying colors baseHex r
             = map ann (filter (fun c => toBase baseHex c <=? w) colors) ->
             exists e rest,
               slice0 count (sort (comparator r) (qualifying colors baseHex r))
               = e :: rest /\ score r e = Some 0).
  { intros r ann f w Sc Hf Hfb Hw EQ.
    assert (Inb : In (ann b) (qualifying colors baseHex r)).
    { rewrite EQ. apply in_map. apply filter_In. split; [assumption|].
      apply Z.leb_le. lia. }
    pose proof (sort_qualifying_ascending colors baseHex r) as Hs.
    apply (Permutation_in _ (Permutation_sym (sort_perm (comparator r) _)))
      in Inb.
    destruct (sort (comparator r) (qualifying colors baseHex r))
      as [|x l] eqn:El; [destruct Inb|].
    exists x, (slice0 (count - 1) l). split; [now apply slice0_cons|].
    assert (Hx : In x (qualifying colors baseHex r)).
    { apply (Permutation_in _ (sort_perm (comparator r) _)).
      rewrite El. now left. }
    rewrite EQ in Hx. apply in_map_iff in Hx. destruct Hx as (c & <- & Hc').
    apply filter_In in Hc'. destruct Hc' as [Hc' _].
    rewrite Sc. f_equal.
    pose proof (ascendingBy_head_least (score r) (ann c) l (ann b) (f b) (f c)
                  Hs Inb (Sc c) (Sc b)) as Hle.
    specialize (Hf c Hc'). lia. }
  split.
  - rewrite analogous_eq
      by (try assumption; apply Forall_forall; assumption).
    destruct (G Analogous (fun c => withHueDiff c (toBase baseHex c))
                (toBase baseHex) 60) as (e & rest & E & He);
      [reflexivity|intros c Hc'; apply toBase_nonneg; auto|assumption|lia
      |reflexivity|].
    exists e, rest. split; [now f_equal|exact He].
  - rewrite monochromatic_eq
      by (try assumption; apply Forall_forall; assumption).
    destruct (G Monochromatic
                (fun c => withLightnessDiff c
                            (Z.abs (lightness c.(hex) - lightness baseHex)))
                (fun c => Z.abs (lightness c.(hex) - lightness baseHex)) 15)
      as (e & rest & E & He);
      [reflexivity|intros c Hc'; lia|rewrite Ehex, Z.sub_diag; reflexivity|lia
      |reflexivity|].
    exists e, rest. split; [now f_equal|exact He].
Qed.

(** ** A base record with a score of its own *)

(** The entries the two scans add are copies of records other than the
    base. *)
Lemma scanned_not_base colors baseHex e :
  In e (primaryMatches colors baseHex ++ fallbackMatches colors baseHex) ->
  e.(source).(hex) <> baseHex.
Proof.
  intros He. apply in_app_or in He.
  assert (K : forall c, negb (isBase baseHex c) = true -> c.(hex) <> baseHex).
  { intros c Hc E. unfold isBase in Hc. rewrite E, String.eqb_refl in Hc.
    discriminate Hc. }
  destruct He as [He|He].
  - unfold primaryMatches in He. apply in_map_iff in He.
    destruct He as (c & <- & Hc). apply filter_In in Hc.
    destruct Hc as [_ Hc]. apply andb_true_iff in Hc. now apply K.
  - unfold fallbackMatches in He. apply in_map_iff in He.
    destruct He as (c & <- & Hc). apply firstByHex_incl, filter_In in Hc.
    destruct Hc as [_ Hc]. apply andb_true_iff in Hc. destruct Hc as [Hc _].
    apply andb_true_iff in Hc. now apply K.
Qed.

(** X27.  A base record that carries a [hueDiff] of its own is ranked by
    it in the complementary search: when another colour of the
    collection lies within 45 degrees of the complementary hue and closer
    to it than that [hueDiff], the search returns first a copy of a
    record other than the base, scored below the base record's
    [hueDiff]. *)
Theorem scored_base_is_ranked
  (colors : list color) (baseHex : string) (count : Z) (b c : color) (d0 : Z) :
  wellFormed baseHex ->
  Forall (fun x => wellFormed x.(hex)) colors ->
  find (fun x => String.eqb x.(hex) baseHex) colors = Some b ->
  attribute "hueDiff" b = Some d0 ->
  In c colors ->
  c.(hex) <> baseHex ->
  toOffset baseHex 180 c <= 45 ->
  toOffset baseHex 180 c < d0 ->
  1 <= count ->
  exists e rest d,
    findComplementaryColorsFromCollection colors baseHex count
    = Some (e :: rest)
    /\ e.(hueDiff) = Some d
    /\ d <= toOffset baseHex 180 c
    /\ e.(source).(hex) <> baseHex
    /\ e <> unannotated b.
Proof.
  intros Hbase Hcolors Hfind Hd0 Hc Hne H45 Hlt Hcount.
  rewrite complementary_eq by assumption. simpl.
  unfold baseEntry, isBase. rewrite Hfind. simpl.
  set (scans := primaryMatches colors baseHex ++ fallbackMatches colors baseHex).
  assert (Hall : Forall (scored Complementary) (unannotated b :: scans)).
  { constructor; [now exists d0|].
    apply Forall_app. split; apply Forall_forall; intros e He;
      apply in_map_iff in He; destruct He as (x & <- & _); now eexists. }
  pose proof (sort_scored_ascending Complementary _ Hall) as Hs.
  pose proof (sort_perm byHueDiff (unannotated b :: scans)) as Hp.
  simpl in Hs.
  destruct (sort byHueDiff (unannotated b :: scans)) as [|e rest] eqn:E.
  { apply Permutation_nil in Hp. discriminate Hp. }
  assert (He : In e (unannotated b :: scans))
    by (apply (Permutation_in _ Hp); now left).
  assert (Hm : In (withHueDiff c (toOffset baseHex 180 c)) (e :: rest)).
  { apply (Permutation_in _ (Permutation_sym Hp)). right.
    apply in_or_app. left. unfold primaryMatches.
    apply (in_map (fun x => withHueDiff x (toOffset baseHex 180 x))).
    apply filter_In. split; [assumption|].
    apply andb_true_iff. split; [|now apply Z.leb_le].
    unfold isBase. apply negb_true_iff, String.eqb_neq. assumption. }
  assert (Hsc : scored Complementary e).
  { rewrite Forall_forall in Hall. now apply Hall. }
  destruct Hsc as [d Hd]. simpl in Hd.
  assert (Hle : d <= toOffset baseHex 180 c).
  { apply (ascendingBy_head_least hueDiff e rest
             (withHueDiff c (toOffset baseHex 180 c)) _ d Hs Hm Hd).
    reflexivity. }
  assert (Hnb : e <> unannotated b).
  { intros ->. cbn [hueDiff unannotated] in Hd. rewrite Hd0 in Hd.
    inversion Hd. lia. }
  exists e, (slice0 (count - 1) rest), d.
  split; [now rewrite slice0_cons|]. split; [exact Hd|].
  split; [exact Hle|]. split; [|exact Hnb].
  destruct He as [He|He]; [now subst e|].
  now apply (scanned_not_base colors baseHex).
Qed.

(** ** Analogy is mutual *)

(** X7.  The analogous relation is symmetric: a colour [a] is found from
    the base [b] at hue difference [d] exactly when [b] is found from the
    base [a] at the same difference. *)
Theorem analogous_is_mutual (a b : color) (d : Z) :
  wellFormed a.(hex) -> wellFormed b.(hex) ->
  findAnalogousColorsFromCollection [a] b.(hex) 1 = Some [withHueDiff a d]
  <-> findAnalogousColorsFromCollection [b] a.(hex) 1 = Some [withHueDiff b d].
Proof.
  intros Wa Wb.
  rewrite !analogous_eq by (auto; repeat constructor; auto).
  simpl qualifying.
  assert (E : toBase b.(hex) a = toBase a.(hex) b).
  { unfold toBase, hueDistance.
    replace (hue a.(hex) - hue b.(hex)) with (- (hue b.(hex) - hue a.(hex)))
      by lia.
    now rewrite Z.abs_opp. }
  simpl filter. rewrite E.
  destruct (toBase a.(hex) b <=? 60); simpl.
  - unfold sort. simpl. rewrite !slice0_all by (simpl; lia).
    split; intros H; inversion H; congruence.
  - unfold sort. simpl. split; intros H; inversion H.
Qed.

(** ** The order of the collection *)

Lemma filter_perm {A} (p : A -> bool) (l l' : list A) :
  Permutation l l' -> Permutation (filter p l) (filter p l').
Proof.
  induction 1 as [|a l1 l2 H IH|a b l1|l1 l2 l3 H1 IH1 H2 IH2]; simpl.
  - constructor.
  - destruct (p a); [now constructor|assumption].
  - destruct (p a), (p b); try reflexivity. apply perm_swap.
  - now transitivity (filter p l2).
Qed.

Lemma existsb_perm {A} (p : A -> bool) (l l' : list A) :
  Permutation l l' -> existsb p l = existsb p l'.
Proof.
  intros H. destruct (existsb p l') eqn:E.
  - apply existsb_exists in E. destruct E as (x & Hx & Px).
    apply existsb_exists. exists x. split; [|assumption].
    now apply (Permutation_in _ (Permutation_sym H)).
  - destruct (existsb p l) eqn:E'; [|reflexivity].
    apply existsb_exists in E'. destruct E' as (x & Hx & Px).
    assert (X : existsb p l' = true).
    { apply existsb_exists. exists x. split; [|assumption].
      now apply (Permutation_in _ H). }
    congruence.
Qed.

(** Among distinct hexes the record with the base hex is the one [find]
    returns, wherever it stands. *)
Lemma find_the_base (baseHex : string) (colors : list color) (b : color) :
  NoDup (map hex colors) -> In b colors -> isBase baseHex b = true ->
  find (isBase baseHex) colors = Some b.
Proof.
  induction colors as [|c colors IH]; intros Hn Hb Eb; [destruct Hb|].
  apply NoDup_cons_iff in Hn. destruct Hn as [Hc Hn]. simpl.
  destruct (isBase baseHex c) eqn:Ec.
  - destruct Hb as [->|Hb]; [reflexivity|]. exfalso. apply Hc.
    unfold isBase in *. apply String.eqb_eq in Ec, Eb.
    apply in_map_iff. exists b. split; [congruence|assumption].
  - destruct Hb as [->|Hb]; [congruence|]. now apply IH.
Qed.

Lemma baseEntry_perm (baseHex : string) (colors colors' : list color) :
  NoDup (map hex colors) -> Permutation colors colors' ->
  baseEntry colors baseHex = baseEntry colors' baseHex.
Proof.
  intros Hn Hp. unfold baseEntry.
  destruct (find (isBase baseHex) colors) as [b|] eqn:E.
  - apply find_some in E. destruct E as [Hb Eb].
    rewrite (find_the_base baseHex colors' b); [reflexivity| |  |assumption].
    + apply (Permutation_NoDup (Permutation_map hex Hp) Hn).
    + now apply (Permutation_in _ Hp).
  - destruct (find (isBase baseHex) colors') as [b'|] eqn:E'; [|reflexivity].
    apply find_some in E'. destruct E' as [Hb' Eb'].
    apply (Permutation_in _ (Permutation_sym Hp)) in Hb'.
    apply (find_none _ _ E) in Hb'. congruence.
Qed.

Lemma firstByHex_distinct (seen : list string) (l : list color) :
  NoDup (map hex l) ->
  (forall c, In c l -> ~ In c.(hex) seen) ->
  firstByHex seen l = l.
Proof.
  revert seen. induction l as [|c l IH]; intros seen Hn Hs; [reflexivity|].
  apply NoDup_cons_iff in Hn. destruct Hn as [Hc Hn]. simpl.
  destruct (existsb (fun x => String.eqb x c.(hex)) seen) eqn:E.
  - apply existsb_exists in E. destruct E as (x & Hx & Ex).
    apply String.eqb_eq in Ex. subst x.
    now destruct (Hs c (or_introl eq_refl)).
  - f_equal. apply IH; [assumption|].
    intros d Hd Hin. apply in_app_or in Hin. destruct Hin as [Hin|[E'|[]]].
    + apply (Hs d); [now right|assumption].
    + apply Hc. rewrite E'. now apply in_map.
Qed.

Lemma qualifying_perm (r : relation) (baseHex : string)
  (colors colors' : list color) :
  NoDup (map hex colors) -> Permutation colors colors' ->
  Permutation (qualifying colors baseHex r) (qualifying colors' baseHex r).
Proof.
  intros Hn Hp.
  assert (Hn' : NoDup (map hex colors'))
    by apply (Permutation_NoDup (Permutation_map hex Hp) Hn).
  assert (M : forall (f : color -> annotated) p,
             Permutation (map f (filter p colors)) (map f (filter p colors'))).
  { intros f p. now apply Permutation_map, filter_perm. }
  pose proof (baseEntry_perm baseHex colors colors' Hn Hp) as B.
  destruct r; simpl; rewrite <- ?B; try apply M;
    try (apply Permutation_app_head; apply M).
  assert (P : Permutation (primaryMatches colors baseHex)
                          (primaryMatches colors' baseHex)) by apply M.
  apply Permutation_app_head. apply Permutation_app; [exact P|].
  unfold fallbackMatches.
  rewrite !firstByHex_distinct;
    try (intros c _ []); try now apply distinct_hex_filter.
  assert (S : forall c, selected colors' baseHex c = selected colors baseHex c).
  { intros c. unfold selected. rewrite <- B. symmetry.
    apply existsb_perm. now apply Permutation_app_head. }
  rewrite (filter_ext
             (fun c => negb (isBase baseHex c)
                       && negb (selected colors' baseHex c)
                       && (toBase baseHex c <=? 30))
             (fun c => negb (isBase baseHex c)
                       && negb (selected colors baseHex c)
                       && (toBase baseHex c <=? 30)))
    by (intros c; now rewrite S).
  apply M.
Qed.

(** X23.  What a search finds does not depend on the order of the
    collection: for a collection of distinct hexes and a count that does
    not cut the matches off, reordering the collection reorders the
    result at most. *)
Theorem search_ignores_collection_order
  (r : relation) (colors colors' : list color) (baseHex : string) (count : Z) :
  wellFormed baseHex ->
  Forall (fun c => wellFormed c.(hex)) colors ->
  NoDup (map hex colors) ->
  Permutation colors colors' ->
  Z.of_nat (List.length (qualifying colors baseHex r)) <= count ->
  exists result result',
    search r colors baseHex count = Some result
    /\ search r colors' baseHex count = Some result'
    /\ Permutation result result'.
Proof.
  intros Hb Hc Hn Hp Hcount.
  assert (Hc' : Forall (fun c => wellFormed c.(hex)) colors')
    by (eapply Permutation_Forall; eassumption).
  pose proof (qualifying_perm r baseHex colors colors' Hn Hp) as Q.
  rewrite !search_eq by assumption. do 2 eexists.
  split; [reflexivity|]. split; [reflexivity|].
  rewrite !slice0_all.
  - now rewrite !sort_perm.
  - rewrite (Permutation_length (sort_perm _ _)).
    now rewrite <- (Permutation_length Q).
  - now rewrite (Permutation_length (sort_perm _ _)).
Qed.

(** X22.  On six hex digits, with the ['#'] or without, [hexToHsl] is
    defined and returns a hue in 0..360 and a saturation and a lightness
    in 0..100. *)
Theorem hexToHsl_defined_in_range (x : string) :
  sixHexDigits x ->
  exists q,
    hexToHsl x = Some q /\ hexToHsl (String "#"%char x) = Some q
    /\ 0 <= q.(h) <= 360 /\ 0 <= q.(s) <= 100 /\ 0 <= q.(l) <= 100.
Proof.
  intros H. destruct (sixHexDigits_wellFormed x H) as [W _].
  exists (hslOf x). split; [now apply hexToHsl_hslOf|]. split.
  - unfold hexToHsl at 1. rewrite (channels_hash x H).
    now apply hexToHsl_hslOf.
  - now apply hslOf_range.
Qed.

(** ** Without the base colour *)

Lemma qualifying_scored (r : relation) (colors : list color) (baseHex : string) :
  find (isBase baseHex) colors = None \/ r = Analogous \/ r = Monochromatic ->
  Forall (scored r) (qualifying colors baseHex r).
Proof.
  intros H.
  destruct (qualifying_shape colors baseHex r) as (pre & body & E & Hpre & Hbody).
  assert (B : find (isBase baseHex) colors = None ->
              baseEntry colors baseHex = []).
  { intros F. unfold baseEntry. now rewrite F. }
  destruct H as [H|[-> | ->]].
  - rewrite E. apply Forall_app. split; [|assumption].
    destruct Hpre as [-> | ->]; [constructor|]. rewrite (B H). constructor.
  - apply Forall_forall. intros e He. simpl in He.
    apply in_map_iff in He. destruct He as (c & <- & _). now eexists.
  - apply Forall_forall. intros e He. simpl in He.
    apply in_map_iff in He. destruct He as (c & <- & _). now eexists.
Qed.

(** X25.  A record without the search's difference attribute comes from
    the force-included base colour only: when the collection holds no
    record with the base hex, and in the analogous and the monochromatic
    search in any case, every entry of the result carries the attribute
    ([hueDiff], or [lightnessDiff] for the monochromatic search). *)
Theorem every_entry_is_scored
  (r : relation) (colors : list color) (baseHex : string) (count : Z) :
  wellFormed baseHex ->
  Forall (fun c => wellFormed c.(hex)) colors ->
  find (fun c => String.eqb c.(hex) baseHex) colors = None
  \/ r = Analogous \/ r = Monochromatic ->
  exists result,
    search r colors baseHex count = Some result
    /\ Forall (fun e => exists d, score r e = Some d) result.
Proof.
  intros Hb Hc H. eexists. split; [now apply search_eq|].
  apply Forall_forall. intros e He. apply slice0_incl in He.
  apply (Permutation_in _ (sort_perm _ _)) in He.
  pose proof (qualifying_scored r colors baseHex H) as Q.
  rewrite Forall_forall in Q. exact (Q e He).
Qed.

(** * More on the suggestions *)

(** The name a suggestion of each type carries before the base colour's
    name. *)
Definition label (kind : paletteType) : string :=
  match kind with
  | analogous => "Análoga desde "
  | complementary => "Complementaria desde "
  | triadic => "Triádica desde "
  end.

Definition suggest (kind : paletteType) (baseColor : color)
  (found : list annotated) : Suggestion.t :=
  Suggestion.make (label kind ++ baseColor.(name)) kind baseColor found.

(** The loop body of [generateSmartPaletteSuggestions]. *)
Definition suggestFrom (colors : list color)
  (suggestions : list Suggestion.t) (baseColor : color) (index : Z)
  : option (list Suggestion.t) :=
  let* suggestions :=
    (if index <? 3 then
       let* found := findAnalogousColorsFromCollection colors baseColor.(hex) 5 in
       Some (suggestions ++
             [Suggestion.make ("Análoga desde " ++ baseColor.(name))%string
                analogous baseColor found])
     else Some suggestions) in
  let* suggestions :=
    (if index <? 2 then
       let* found := findComplementaryColorsFromCollection colors baseColor.(hex) 4 in
       Some (suggestions ++
             [Suggestion.make ("Complementaria desde " ++ baseColor.(name))%string
                complementary baseColor found])
     else Some suggestions) in
  (if index <? 2 then
     let* found := findTriadicColorsFromCollection colors baseColor.(hex) 6 in
     Some (suggestions ++
           [Suggestion.make ("Triádica desde " ++ baseColor.(name))%string
              triadic baseColor found])
   else Some suggestions).

Lemma generate_unfold (colors : list color) :
  generateSmartPaletteSuggestions colors
  = if Z.of_nat (List.length colors) <? 3 then Some [] else
    let* suggestions :=
      forEachIndexed (slice0 (Z.min 5 (Z.of_nat (List.length colors))) colors)
                     0 [] (suggestFrom colors) in
    Some (filter (fun s => 3 <=? Z.of_nat (List.length s.(Suggestion.colors)))
                 suggestions).
Proof. reflexivity. Qed.

Lemma forEachIndexed_late (colors more : list color) (i : Z)
  (acc : list Suggestion.t) :
  3 <= i -> forEachIndexed more i acc (suggestFrom colors) = Some acc.
Proof.
  revert i acc. induction more as [|c more IH]; intros i acc Hi; simpl;
    [reflexivity|].
  unfold suggestFrom at 1.
  destruct (Z.ltb_spec i 3); [lia|]. destruct (Z.ltb_spec i 2); [lia|].
  simpl. apply IH. lia.
Qed.

Lemma first_bases (c0 c1 c2 : color) (rest : list color) :
  slice0 (Z.min 5 (Z.of_nat (List.length (c0 :: c1 :: c2 :: rest))))
         (c0 :: c1 :: c2 :: rest)
  = c0 :: c1 :: c2 :: firstn 2 rest.
Proof.
  destruct rest as [|c3 [|c4 rest]]; try reflexivity.
  rewrite slice0_firstn by (simpl List.length; lia).
  replace (Z.to_nat _) with 5%nat by (simpl List.length; lia).
  reflexivity.
Qed.

Section Suggestions.
Variables (colors : list color).
Hypothesis colors_wf : Forall (fun c => wellFormed c.(hex)) colors.

Let found (r : relation) (c : color) (count : Z) : list annotated :=
  slice0 count (sort (comparator r) (qualifying colors c.(hex) r)).

Lemma suggestions_from_bases (b0 b1 b2 : color) (more : list color) :
  In b0 colors -> In b1 colors -> In b2 colors ->
  forEachIndexed (b0 :: b1 :: b2 :: more) 0 [] (suggestFrom colors)
  = Some [suggest analogous b0 (found Analogous b0 5);
          suggest complementary b0 (found Complementary b0 4);
          suggest triadic b0 (found Triadic b0 6);
          suggest analogous b1 (found Analogous b1 5);
          suggest complementary b1 (found Complementary b1 4);
          suggest triadic b1 (found Triadic b1 6);
          suggest analogous b2 (found Analogous b2 5)].
Proof.
  intros H0 H1 H2.
  assert (W : forall c, In c colors -> wellFormed c.(hex)).
  { now apply Forall_forall. }
  assert (E : forall c r n, In c colors ->
                search r colors c.(hex) n = Some (found r c n)).
  { intros c r n Hc. apply search_eq; auto. }
  pose proof (E b0 Analogous 5 H0) as A0.
  pose proof (E b0 Complementary 4 H0) as K0.
  pose proof (E b0 Triadic 6 H0) as T0.
  pose proof (E b1 Analogous 5 H1) as A1.
  pose proof (E b1 Complementary 4 H1) as K1.
  pose proof (E b1 Triadic 6 H1) as T1.
  pose proof (E b2 Analogous 5 H2) as A2.
  cbn [search] in *.
  cbn [forEachIndexed]. unfold suggestFrom at 1.
  rewrite A0, K0, T0. cbn [bind Z.ltb Z.compare Pos.compare Pos.compare_cont].
  cbn [Z.add Pos.add app].
  unfold suggestFrom at 1.
  rewrite A1, K1, T1. cbn [bind Z.ltb Z.compare Pos.compare Pos.compare_cont].
  cbn [Z.add Pos.add app Pos.succ].
  unfold suggestFrom at 1.
  rewrite A2. cbn [bind Z.ltb Z.compare Pos.compare Pos.compare_cont].
  cbn [Z.add Pos.add app Pos.succ].
  rewrite forEachIndexed_late by lia. reflexivity.
Qed.
End Suggestions.

(** X19.  On a well-formed collection of three colours or more,
    [generateSmartPaletteSuggestions] returns, of the following seven
    suggestions and in this order, those with at least three colours: the
    analogous, complementary and triadic palettes from the first colour,
    the same three from the second, and the analogous palette from the
    third.  Each is the result of the search on the whole collection with
    counts 5, 4 and 6, named after its type and base colour; no other
    colour serves as a base. *)
Theorem suggestions_in_order (c0 c1 c2 : color) (rest : list color) :
  Forall (fun c => wellFormed c.(hex)) (c0 :: c1 :: c2 :: rest) ->
  exists a0 k0 t0 a1 k1 t1 a2,
    let colors := c0 :: c1 :: c2 :: rest in
    findAnalogousColorsFromCollection colors c0.(hex) 5 = Some a0
    /\ findComplementaryColorsFromCollection colors c0.(hex) 4 = Some k0
    /\ findTriadicColorsFromCollection colors c0.(hex) 6 = Some t0
    /\ findAnalogousColorsFromCollection colors c1.(hex) 5 = Some a1
    /\ findComplementaryColorsFromCollection colors c1.(hex) 4 = Some k1
    /\ findTriadicColorsFromCollection colors c1.(hex) 6 = Some t1
    /\ findAnalogousColorsFromCollection colors c2.(hex) 5 = Some a2
    /\ generateSmartPaletteSuggestions colors
       = Some (filter
                 (fun s => 3 <=? Z.of_nat (List.length s.(Suggestion.colors)))
                 [Suggestion.make ("Análoga desde " ++ c0.(name)) analogous c0 a0;
                  Suggestion.make ("Complementaria desde " ++ c0.(name))
                                  complementary c0 k0;
                  Suggestion.make ("Triádica desde " ++ c0.(name)) triadic c0 t0;
                  Suggestion.make ("Análoga desde " ++ c1.(name)) analogous c1 a1;
                  Suggestion.make ("Complementaria desde " ++ c1.(name))
                                  complementary c1 k1;
                  Suggestion.make ("Triádica desde " ++ c1.(name)) triadic c1 t1;
                  Suggestion.make ("Análoga desde " ++ c2.(name)) analogous c2 a2]).
Proof.
  intros Hwf. set (colors := c0 :: c1 :: c2 :: rest) in *.
  assert (W : forall c, In c colors -> wellFormed c.(hex)).
  { now apply Forall_forall. }
  assert (H0 : In c0 colors) by (now left).
  assert (H1 : In c1 colors) by (right; now left).
  assert (H2 : In c2 colors) by (right; right; now left).
  do 7 eexists. cbv zeta. fold colors.
  repeat (split; [first [apply analogous_eq | apply complementary_eq
                         | apply triadic_eq]; auto|]).
  rewrite generate_unfold.
  destruct (Z.ltb_spec (Z.of_nat (List.length colors)) 3) as [Hlt|_];
    [simpl in Hlt; lia|].
  pose proof (first_bases c0 c1 c2 rest) as FB. fold colors in FB.
  rewrite FB.
  rewrite (suggestions_from_bases colors Hwf c0 c1 c2 _ H0 H1 H2).
  reflexivity.
Qed.

(** ** Every suggestion holds its base colour *)

Lemma In_firstn_le {A} (x : A) (n m : nat) (l : list A) :
  (n <= m)%nat -> In x (firstn n l) -> In x (firstn m l).
Proof.
  revert n m. induction l as [|y l IH]; intros n m Hnm H.
  - now rewrite firstn_nil in *.
  - destruct n as [|n]; [destruct H|]. destruct m as [|m]; [lia|].
    simpl in *. destruct H as [H|H]; [now left|right].
    apply (IH n m); [lia|assumption].
Qed.

Lemma In_firstn_filter {A} (q : A -> bool) (x : A) (n : nat) (l : list A) :
  q x = true -> In x (firstn n l) -> In x (firstn n (filter q l)).
Proof.
  intros Hq. revert n. induction l as [|y l IH]; intros n H.
  - now rewrite firstn_nil in *.
  - destruct n as [|n]; [destruct H|]. simpl in H. destruct H as [->|H].
    + simpl. rewrite Hq. now left.
    + simpl. destruct (q y).
      * right. now apply IH.
      * apply (In_firstn_le x n (S n)); [lia|now apply IH].
Qed.

Lemma filter_map_commute {A B} (q : B -> bool) (f : A -> B) (l : list A) :
  filter q (map f l) = map f (filter (fun x => q (f x)) l).
Proof.
  induction l as [|x l IH]; simpl; [reflexivity|].
  destruct (q (f x)); simpl; now rewrite IH.
Qed.

Section SortByKeyIn.
Context {A : Type} (key : A -> Z) (comparefn : A -> A -> option Z).

Lemma insert_byKey_in (x : A) (l : list A) :
  (forall y, In y l -> comparefn x y = Some (key x - key y)) ->
  insert comparefn x l = insert (byKey key) x l.
Proof.
  induction l as [|y l IH]; intros H; simpl; [reflexivity|].
  unfold SortCompare at 1. rewrite (H y (or_introl eq_refl)).
  rewrite SortCompare_byKey.
  destruct (key x - key y <? 0); [reflexivity|].
  rewrite IH by (intros z Hz; apply H; now right). reflexivity.
Qed.

Lemma sort_byKey_in (l : list A) :
  (forall x y, In x l -> In y l -> comparefn x y = Some (key x - key y)) ->
  sort comparefn l = sort (byKey key) l.
Proof.
  intros H. unfold sort.
  assert (G : forall rest acc,
             (forall x y, In x rest -> In y acc ->
                          comparefn x y = Some (key x - key y)) ->
             (forall x y, In x rest -> In y rest ->
                          comparefn x y = Some (key x - key y)) ->
             fold_left (fun sorted x => insert comparefn x sorted) rest acc
             = fold_left (fun sorted x => insert (byKey key) x sorted) rest acc).
  { induction rest as [|x rest IH]; intros acc Hacc Hrest; simpl; [reflexivity|].
    rewrite insert_byKey_in
      by (intros y Hy; apply Hacc; [now left|assumption]).
    apply IH.
    - intros a b Ha Hb.
      apply (Permutation_in _ (insert_perm _ _ _)) in Hb.
      destruct Hb as [<-|Hb].
      + apply Hrest; [now right|now left].
      + apply Hacc; [now right|assumption].
    - intros a b Ha Hb. apply Hrest; now right. }
  apply G; [intros x y _ []|exact H].
Qed.

(** In a sorted array of non-negative keys the zeros stand in front. *)
Lemma zeros_first (l : list A) :
  StronglySorted (fun a b => key a <= key b) l ->
  Forall (fun x => 0 <= key x) l ->
  l = filter (fun x => key x =? 0) l ++ filter (fun x => negb (key x =? 0)) l.
Proof.
  intros Hs Hn. induction Hs as [|x l Hs IH Hx]; simpl; [reflexivity|].
  inversion Hn as [|? ? Hx0 Hn']; subst.
  destruct (Z.eqb_spec (key x) 0) as [E|E]; simpl.
  - f_equal. now apply IH.
  - rewrite (filter_none (fun y => key y =? 0) l).
    + simpl. f_equal. symmetry. apply forallb_filter_id.
      apply forallb_forall. intros y Hy. rewrite Forall_forall in Hx.
      specialize (Hx y Hy). apply negb_true_iff, Z.eqb_neq. lia.
    + eapply Forall_impl; [|exact Hx]. intros y Hy. cbv beta in Hy.
      apply Z.eqb_neq. lia.
Qed.
End SortByKeyIn.

Lemma find_base (colors : list color) (c : color) :
  In c colors ->
  exists b, find (isBase c.(hex)) colors = Some b /\ b.(hex) = c.(hex).
Proof.
  intros Hc. destruct (find (isBase c.(hex)) colors) as [b|] eqn:E.
  - exists b. split; [reflexivity|]. apply find_some in E.
    now apply String.eqb_eq.
  - apply (find_none _ _ E) in Hc. unfold isBase in Hc.
    now rewrite String.eqb_refl in Hc.
Qed.

Lemma analogous_holds_base (colors : list color) (c : color) :
  Forall (fun c => wellFormed c.(hex)) colors ->
  In c (firstn 3 colors) ->
  In (withHueDiff c 0)
     (slice0 5 (sort byHueDiff (qualifying colors c.(hex) Analogous))).
Proof.
  intros Hwf Hc3.
  assert (Hc : In c colors).
  { rewrite <- (firstn_skipn 3 colors). apply in_or_app. now left. }
  rewrite Forall_forall in Hwf.
  set (f := fun x => withHueDiff x (toBase c.(hex) x)).
  set (key := scoreOr0 Analogous).
  assert (Ef : forall x, key (f x) = toBase c.(hex) x) by reflexivity.
  simpl qualifying. fold f.
  set (K := map f (filter (fun x => toBase c.(hex) x <=? 60) colors)).
  assert (HK : forall e, In e K -> exists x, In x colors /\ e = f x).
  { intros e He. apply in_map_iff in He. destruct He as (x & <- & Hx).
    apply filter_In in Hx. exists x. tauto. }
  rewrite (sort_byKey_in key byHueDiff K).
  2:{ intros a b Ha Hb. apply HK in Ha, Hb.
      destruct Ha as (x & _ & ->), Hb as (y & _ & ->). reflexivity. }
  rewrite slice0_firstn by lia. change (Z.to_nat 5) with 5%nat.
  rewrite (zeros_first key (sort (byKey key) K)).
  2:{ apply sort_byKey_sorted. }
  2:{ eapply Permutation_Forall; [symmetry; apply sort_perm|].
      apply Forall_forall. intros e He. apply HK in He.
      destruct He as (x & Hx & ->). rewrite Ef.
      apply toBase_nonneg; auto. }
  rewrite sort_byKey_stable, firstn_app. apply in_or_app. left.
  unfold K. rewrite filter_map_commute, firstn_map.
  replace (withHueDiff c 0) with (f c)
    by (unfold f; now rewrite toBase_same).
  apply in_map. apply (In_firstn_le c 3 5); [lia|].
  apply In_firstn_filter; [rewrite Ef, toBase_same by reflexivity; reflexivity|].
  apply In_firstn_filter; [|assumption].
  rewrite toBase_same by reflexivity. reflexivity.
Qed.

Lemma base_first_holds_base (colors : list color) (c : color) (r : relation)
  (count : Z) :
  r = Complementary \/ r = Triadic ->
  Forall (fun x => attribute "hueDiff" x = None) colors ->
  In c colors -> 1 <= count ->
  exists b rest,
    slice0 count (sort (comparator r) (qualifying colors c.(hex) r))
    = unannotated b :: rest
    /\ b.(hex) = c.(hex).
Proof.
  intros Hr Hnone Hc Hcount.
  destruct (find_base colors c Hc) as (b & Hfind & Eb).
  assert (Hb : attribute "hueDiff" b = None).
  { apply find_some in Hfind. rewrite Forall_forall in Hnone.
    now apply Hnone. }
  exists b.
  destruct Hr as [-> | ->]; simpl qualifying; unfold baseEntry;
    rewrite Hfind; simpl app;
    [rewrite (sort_base_first Complementary) by exact Hb
    |rewrite (sort_base_first Triadic) by exact Hb];
    rewrite slice0_cons by assumption; eauto.
Qed.

Lemma Forall_filter {A} (P : A -> Prop) (q : A -> bool) (l : list A) :
  Forall P l -> Forall P (filter q l).
Proof.
  intros H. apply Forall_forall. intros x Hx. apply filter_In in Hx.
  rewrite Forall_forall in H. now apply H.
Qed.

(** X20.  On a collection whose records carry no [hueDiff] attribute
    of their own, every suggestion is built from one of the first three
    colours of the collection and its palette holds a colour with the
    base colour's hex. *)
Theorem suggestions_hold_their_base (colors : list color) :
  Forall (fun c => wellFormed c.(hex)) colors ->
  Forall (fun c => attribute "hueDiff" c = None) colors ->
  exists result,
    generateSmartPaletteSuggestions colors = Some result
    /\ Forall (fun s =>
                 In s.(Suggestion.baseColor) (firstn 3 colors)
                 /\ Exists (fun e => e.(source).(hex)
                                     = s.(Suggestion.baseColor).(hex))
                           s.(Suggestion.colors))
              result.
Proof.
  intros Hwf Hnone. rewrite generate_unfold.
  destruct (Z.ltb_spec (Z.of_nat (List.length colors)) 3) as [Hlt|Hge];
    [exists []; split; [reflexivity|constructor]|].
  destruct colors as [|c0 [|c1 [|c2 rest]]]; try (simpl in Hge; lia).
  set (colors := c0 :: c1 :: c2 :: rest) in *.
  assert (H0 : In c0 (firstn 3 colors)) by (now left).
  assert (H1 : In c1 (firstn 3 colors)) by (right; now left).
  assert (H2 : In c2 (firstn 3 colors)) by (right; right; now left).
  assert (I3 : forall c, In c (firstn 3 colors) -> In c colors).
  { intros c Hc. rewrite <- (firstn_skipn 3 colors). apply in_or_app. now left. }
  pose proof (first_bases c0 c1 c2 rest) as FB. fold colors in FB.
  rewrite FB.
  rewrite (suggestions_from_bases colors Hwf c0 c1 c2 _
             (I3 _ H0) (I3 _ H1) (I3 _ H2)).
  eexists. split; [reflexivity|]. apply Forall_filter.
  assert (A : forall c, In c (firstn 3 colors) ->
              Exists (fun e => e.(source).(hex) = c.(hex))
                (slice0 5 (sort (comparator Analogous)
                             (qualifying colors c.(hex) Analogous)))).
  { intros c Hc. apply Exists_exists. exists (withHueDiff c 0).
    split; [now apply analogous_holds_base|reflexivity]. }
  assert (B : forall c r n, r = Complementary \/ r = Triadic ->
              In c (firstn 3 colors) -> 1 <= n ->
              Exists (fun e => e.(source).(hex) = c.(hex))
                (slice0 n (sort (comparator r) (qualifying colors c.(hex) r)))).
  { intros c r n Hr Hc Hn.
    destruct (base_first_holds_base colors c r n Hr Hnone (I3 _ Hc) Hn)
      as (b & tl & -> & Eb).
    now constructor. }
  repeat (apply Forall_cons;
          [cbv beta; cbn [Suggestion.baseColor Suggestion.colors suggest];
           split; [assumption|];
           first [apply A; assumption | apply B; [auto|assumption|lia]]|]).
  apply Forall_nil.
Qed.

(** * The further properties at concrete inputs *)

Definition white : color := mkColor "#FFFFFF" "Blanco" [].
Definition black : color := mkColor "#000000" "Negro" [].

Lemma six_digits_lower : sixHexDigits "ff5733".
Proof. do 6 eexists. split; [reflexivity|]. repeat constructor. Qed.

Lemma orange_wellFormed : wellFormed "#FF5733".
Proof. eexists. vm_compute. reflexivity. Qed.

Lemma gray_channels : channels "#808080" = Some (128, 128, 128).
Proof. reflexivity. Qed.

Lemma palette_distinct : NoDup (map hex palette).
Proof.
  repeat constructor; simpl; intros H;
    repeat (destruct H as [H|H]; [discriminate H|]); exact H.
Qed.

Lemma brightness_between_channels_witness :
  wellFormed "#FF5733"
  /\ exists v, getColorBrightness "#FF5733" = Some v /\ 0 <= v <= 255.
Proof.
  split; [exact orange_wellFormed|].
  destruct (brightness_between_channels "#FF5733" orange_wellFormed)
    as (R & G & B & v & _ & E & _ & Hv & _).
  exists v. split; [exact E|exact Hv].
Defined.

Lemma hash_and_case_are_ignored_witness :
  sixHexDigits "ff5733"
  /\ hexToHsl "#ff5733" = hexToHsl "ff5733"
  /\ hexToHsl "FF5733" = hexToHsl "ff5733".
Proof.
  split; [exact six_digits_lower|].
  exact (proj1 (hash_and_case_are_ignored "ff5733" six_digits_lower)).
Defined.

Lemma trailing_characters_are_ignored_witness :
  sixHexDigits "ff5733"
  /\ hexToHsl "ff573380" = hexToHsl "ff5733"
  /\ hexToHsl "#ff573380" = hexToHsl "ff5733".
Proof.
  split; [exact six_digits_lower|].
  destruct (trailing_characters_are_ignored "ff5733" "80" six_digits_lower)
    as (E1 & E2 & _).
  split; [exact E1|exact E2].
Defined.

Lemma gray_has_no_hue_witness :
  channels "#808080" = Some (128, 128, 128)
  /\ hexToHsl "#808080" = Some (mkHsl 0 0 50).
Proof.
  split; [exact gray_channels|].
  rewrite (gray_has_no_hue "#808080" 128 gray_channels).
  vm_compute. reflexivity.
Defined.

Lemma hslToHex_at_the_ends_witness :
  (0 <= 200 <= 360) /\ (0 <= 40 <= 100)
  /\ hslToHex 200 0 40 = "#666666"%string
  /\ hslToHex 200 40 0 = "#000000"%string
  /\ hslToHex 200 40 100 = "#FFFFFF"%string.
Proof.
  assert (Hh : 0 <= 200 <= 360) by lia.
  assert (Hx : 0 <= 40 <= 100) by lia.
  split; [exact Hh|]. split; [exact Hx|].
  destruct (hslToHex_at_the_ends 200 40 Hh Hx) as (E1 & E2 & E3).
  split; [rewrite E1; vm_compute; reflexivity|].
  split; [exact E2|exact E3].
Defined.

Lemma outputs_are_canonical_witness :
  wellFormed "#FF5733"
  /\ exists c, getComplementaryColor "#FF5733" = Some c
               /\ canonicalHex c = true /\ wellFormed c.
Proof.
  split; [exact orange_wellFormed|].
  exact (proj2 (outputs_are_canonical "#FF5733" orange_wellFormed)).
Defined.

Lemma gray_complement_is_gray_witness :
  channels "#000000" = Some (0, 0, 0)
  /\ getComplementaryColor "#000000" = Some "#000000"%string.
Proof.
  assert (E : channels "#000000" = Some (0, 0, 0)) by reflexivity.
  split; [exact E|].
  destruct (gray_complement_is_gray "#000000" 0 E) as (w & _ & _ & _ & _ & K & _).
  exact (K eq_refl).
Defined.

Lemma analogous_is_mutual_witness :
  findAnalogousColorsFromCollection [vermilion] red.(hex) 1
  = Some [withHueDiff vermilion 10]
  /\ findAnalogousColorsFromCollection [red] vermilion.(hex) 1
     = Some [withHueDiff red 10].
Proof.
  assert (Wv : wellFormed vermilion.(hex)) by (eexists; vm_compute; reflexivity).
  assert (E : findAnalogousColorsFromCollection [vermilion] red.(hex) 1
              = Some [withHueDiff vermilion 10]) by (vm_compute; reflexivity).
  split; [exact E|].
  exact (proj1 (analogous_is_mutual vermilion red 10 Wv red_wellFormed) E).
Defined.

Lemma sortColorsByHue_ascending_stable_witness :
  Forall (fun c => wellFormed c.(hex)) palette
  /\ exists result,
       sortColorsByHue palette = Some result
       /\ Permutation result palette
       /\ StronglySorted (fun a b => hue a.(hex) <= hue b.(hex)) result.
Proof.
  split; [exact palette_wellFormed|].
  destruct (sortColorsByHue_ascending_stable palette palette_wellFormed)
    as (result & E & P & S & _).
  exists result. auto.
Defined.

Lemma sortColorsBySaturation_descending_stable_witness :
  Forall (fun c => wellFormed c.(hex)) [maroon; white; red]
  /\ exists result,
       sortColorsBySaturation [maroon; white; red] = Some result
       /\ Permutation result [maroon; white; red]
       /\ StronglySorted
            (fun a b => saturation b.(hex) <= saturation a.(hex)) result.
Proof.
  assert (W : Forall (fun c => wellFormed c.(hex)) [maroon; white; red])
    by (repeat constructor; eexists; vm_compute; reflexivity).
  split; [exact W|].
  destruct (sortColorsBySaturation_descending_stable [maroon; white; red] W)
    as (result & E & P & S & _).
  exists result. auto.
Defined.

Lemma sortColorsByLightness_ascending_stable_witness :
  Forall (fun c => wellFormed c.(hex)) [white; red; black]
  /\ exists result,
       sortColorsByLightness [white; red; black] = Some result
       /\ Permutation result [white; red; black]
       /\ StronglySorted
            (fun a b => lightness a.(hex) <= lightness b.(hex)) result.
Proof.
  assert (W : Forall (fun c => wellFormed c.(hex)) [white; red; black])
    by (repeat constructor; eexists; vm_compute; reflexivity).
  split; [exact W|].
  destruct (sortColorsByLightness_ascending_stable [white; red; black] W)
    as (result & E & P & S & _).
  exists result. auto.
Defined.

(** The darkest comes first. *)
Example sortColorsByLightness_darkest_first :
  sortColorsByLightness [white; red; black] = Some [black; red; white].
Proof. vm_compute. reflexivity. Qed.

Lemma sortColorsChromatically_keeps_one_hue_witness :
  Forall (fun c => wellFormed c.(hex)) [red; maroon]
  /\ Forall (fun c => hue c.(hex) = 0) [red; maroon]
  /\ lightness maroon.(hex) < lightness red.(hex)
  /\ sortColorsChromatically [red; maroon] = Some [red; maroon].
Proof.
  assert (W : Forall (fun c => wellFormed c.(hex)) [red; maroon])
    by (repeat constructor; eexists; vm_compute; reflexivity).
  assert (H : Forall (fun c => hue c.(hex) = 0) [red; maroon])
    by (repeat constructor; vm_compute; reflexivity).
  split; [exact W|]. split; [exact H|].
  split; [vm_compute; reflexivity|].
  exact (sortColorsChromatically_keeps_one_hue [red; maroon] 0 W H).
Defined.

Lemma sorts_idempotent_witness :
  Forall (fun c => wellFormed c.(hex)) palette
  /\ exists r, sortColorsByHue palette = Some r /\ sortColorsByHue r = Some r.
Proof.
  split; [exact palette_wellFormed|].
  exact (proj1 (sorts_idempotent palette palette_wellFormed)).
Defined.

Lemma sort_by_lightness_then_hue_witness :
  Forall (fun c => wellFormed c.(hex)) [red; azure; maroon]
  /\ exists byLightness result,
       sortColorsByLightness [red; azure; maroon] = Some byLightness
       /\ sortColorsByHue byLightness = Some result
       /\ Permutation result [red; azure; maroon].
Proof.
  assert (W : Forall (fun c => wellFormed c.(hex)) [red; azure; maroon])
    by (repeat constructor; eexists; vm_compute; reflexivity).
  split; [exact W|].
  destruct (sort_by_lightness_then_hue [red; azure; maroon] W)
    as (byLightness & result & E1 & E2 & P & _).
  exists byLightness, result. auto.
Defined.

Lemma search_returns_collection_colours_witness :
  wellFormed "#FF0000"
  /\ Forall (fun c => wellFormed c.(hex)) palette
  /\ exists result,
       search Triadic palette "#FF0000" 6 = Some result
       /\ Forall (fun e => In e.(source) palette) result
       /\ NoDup (map (fun e => e.(source).(hex)) result).
Proof.
  split; [exact red_wellFormed|]. split; [exact palette_wellFormed|].
  destruct (search_returns_collection_colours Triadic palette "#FF0000" 6
              red_wellFormed palette_wellFormed) as (result & E & F & N).
  exists result. split; [exact E|]. split; [exact F|].
  exact (N palette_distinct).
Defined.

Lemma scored_base_is_ranked_witness :
  wellFormed "#FF0000"
  /\ Forall (fun x => wellFormed x.(hex)) [rankedRed; cyan]
  /\ find (fun x => String.eqb x.(hex) "#FF0000") [rankedRed; cyan]
     = Some rankedRed
  /\ attribute "hueDiff" rankedRed = Some 10
  /\ In cyan [rankedRed; cyan]
  /\ cyan.(hex) <> "#FF0000"%string
  /\ toOffset "#FF0000" 180 cyan <= 45
  /\ toOffset "#FF0000" 180 cyan < 10
  /\ 1 <= 4
  /\ exists e rest,
       findComplementaryColorsFromCollection [rankedRed; cyan] "#FF0000" 4
       = Some (e :: rest)
       /\ e.(source).(hex) <> "#FF0000"%string.
Proof.
  assert (W : Forall (fun x => wellFormed x.(hex)) [rankedRed; cyan])
    by (repeat constructor; eexists; vm_compute; reflexivity).
  assert (F : find (fun x => String.eqb x.(hex) "#FF0000") [rankedRed; cyan]
              = Some rankedRed) by reflexivity.
  assert (A : attribute "hueDiff" rankedRed = Some 10) by reflexivity.
  assert (I : In cyan [rankedRed; cyan]) by (right; left; reflexivity).
  assert (D : cyan.(hex) <> "#FF0000"%string) by discriminate.
  assert (K : toOffset "#FF0000" 180 cyan <= 45) by (vm_compute; discriminate).
  assert (L : toOffset "#FF0000" 180 cyan < 10) by (vm_compute; reflexivity).
  assert (N : 1 <= 4) by lia.
  split; [exact red_wellFormed|]. split; [exact W|]. split; [exact F|].
  split; [exact A|]. split; [exact I|]. split; [exact D|].
  split; [exact K|]. split; [exact L|]. split; [exact N|].
  destruct (scored_base_is_ranked [rankedRed; cyan] "#FF0000" 4 rankedRed cyan 10
              red_wellFormed W F A I D K L N)
    as (e & rest & d & E & _ & _ & S & _).
  exists e, rest. split; [exact E|exact S].
Defined.

Lemma triadic_and_split_base_first_witness :
  wellFormed "#FF0000"
  /\ Forall (fun c => wellFormed c.(hex)) palette
  /\ find (fun c => String.eqb c.(hex) "#FF0000") palette = Some red
  /\ attribute "hueDiff" red = None
  /\ 1 <= 6
  /\ (exists rest,
        findTriadicColorsFromCollection palette "#FF0000" 6
        = Some (unannotated red :: rest))
  /\ (exists rest,
        findSplitComplementaryFromCollection palette "#FF0000" 6
        = Some (unannotated red :: rest)).
Proof.
  assert (F : find (fun c => String.eqb c.(hex) "#FF0000") palette = Some red)
    by reflexivity.
  assert (N : 1 <= 6) by lia.
  split; [exact red_wellFormed|]. split; [exact palette_wellFormed|].
  split; [exact F|]. split; [exact red_no_hueDiff|]. split; [exact N|].
  destruct (triadic_and_split_base_first palette "#FF0000" 6 red
              red_wellFormed palette_wellFormed F red_no_hueDiff N)
    as ((r1 & E1 & _) & (r2 & E2 & _)).
  split; [exists r1; exact E1|exists r2; exact E2].
Defined.

Lemma exact_match_comes_first_witness :
  wellFormed "#FF0000"
  /\ Forall (fun c => wellFormed c.(hex)) palette
  /\ In red palette /\ red.(hex) = "#FF0000"%string /\ 1 <= 5
  /\ (exists e rest,
        findAnalogousColorsFromCollection palette "#FF0000" 5 = Some (e :: rest)
        /\ e.(hueDiff) = Some 0)
  /\ (exists e rest,
        findMonochromaticColorsFromCollection palette "#FF0000" 5
        = Some (e :: rest)
        /\ e.(lightnessDiff) = Some 0).
Proof.
  assert (I : In red palette) by (simpl; tauto).
  assert (E : red.(hex) = "#FF0000"%string) by reflexivity.
  assert (N : 1 <= 5) by lia.
  split; [exact red_wellFormed|]. split; [exact palette_wellFormed|].
  split; [exact I|]. split; [exact E|]. split; [exact N|].
  exact (exact_match_comes_first palette "#FF0000" 5 red
           red_wellFormed palette_wellFormed I E N).
Defined.

Lemma search_edge_counts_witness :
  wellFormed "#FF0000"
  /\ Forall (fun c => wellFormed c.(hex)) palette
  /\ search Analogous [] "#FF0000" (-1) = Some []
  /\ search Analogous palette "#FF0000" 0 = Some []
  /\ (-1 < 0)
  /\ exists result dropped,
       search Analogous palette "#FF0000" (-1) = Some result
       /\ sort (comparator Analogous) (qualifying palette "#FF0000" Analogous)
          = result ++ dropped
       /\ Z.of_nat (List.length dropped)
          = Z.min (- -1)
                  (Z.of_nat (List.length
                               (qualifying palette "#FF0000" Analogous))).
Proof.
  assert (N : -1 < 0) by lia.
  split; [exact red_wellFormed|]. split; [exact palette_wellFormed|].
  destruct (search_edge_counts Analogous palette "#FF0000" (-1)
              red_wellFormed palette_wellFormed) as (E1 & E2 & E3).
  split; [exact E1|]. split; [exact E2|]. split; [exact N|]. exact (E3 N).
Defined.

Lemma search_prefix_in_count_witness :
  wellFormed "#FF0000"
  /\ Forall (fun c => wellFormed c.(hex)) palette
  /\ (0 <= 1 <= 4)
  /\ exists longer,
       search Analogous palette "#FF0000" 4 = Some longer
       /\ search Analogous palette "#FF0000" 1
          = Some (firstn (Z.to_nat 1) longer).
Proof.
  assert (N : 0 <= 1 <= 4) by lia.
  split; [exact red_wellFormed|]. split; [exact palette_wellFormed|].
  split; [exact N|].
  exact (search_prefix_in_count Analogous palette "#FF0000" 1 4
           red_wellFormed palette_wellFormed N).
Defined.

Lemma suggestions_in_order_witness :
  Forall (fun c => wellFormed c.(hex)) palette
  /\ exists a0 k0 t0 a1 k1 t1 a2,
       generateSmartPaletteSuggestions palette
       = Some (filter
                 (fun s => 3 <=? Z.of_nat (List.length s.(Suggestion.colors)))
                 [Suggestion.make "Análoga desde Bermellón" analogous
                                  vermilion a0;
                  Suggestion.make "Complementaria desde Bermellón"
                                  complementary vermilion k0;
                  Suggestion.make "Triádica desde Bermellón" triadic
                                  vermilion t0;
                  Suggestion.make "Análoga desde Cian" analogous cyan a1;
                  Suggestion.make "Complementaria desde Cian" complementary
                                  cyan k1;
                  Suggestion.make "Triádica desde Cian" triadic cyan t1;
                  Suggestion.make "Análoga desde Celeste" analogous azure a2]).
Proof.
  split; [exact palette_wellFormed|].
  destruct (suggestions_in_order vermilion cyan azure [red; lime]
              palette_wellFormed)
    as (a0 & k0 & t0 & a1 & k1 & t1 & a2 & H).
  exists a0, k0, t0, a1, k1, t1, a2.
  exact (proj2 (proj2 (proj2 (proj2 (proj2 (proj2 (proj2 H))))))).
Defined.

Lemma suggestions_hold_their_base_witness :
  Forall (fun c => wellFormed c.(hex)) palette
  /\ Forall (fun c => attribute "hueDiff" c = None) palette
  /\ exists result,
       generateSmartPaletteSuggestions palette = Some result
       /\ Forall (fun s =>
                    In s.(Suggestion.baseColor) (firstn 3 palette)
                    /\ Exists (fun e => e.(source).(hex)
                                        = s.(Suggestion.baseColor).(hex))
                              s.(Suggestion.colors))
                 result.
Proof.
  assert (N : Forall (fun c => attribute "hueDiff" c = None) palette)
    by (repeat constructor).
  split; [exact palette_wellFormed|]. split; [exact N|].
  exact (suggestions_hold_their_base palette palette_wellFormed N).
Defined.

Lemma search_ignores_collection_order_witness :
  wellFormed "#FF0000"
  /\ Forall (fun c => wellFormed c.(hex)) palette
  /\ NoDup (map hex palette)
  /\ Permutation palette (rev palette)
  /\ Z.of_nat (List.length (qualifying palette "#FF0000" Complementary)) <= 4
  /\ exists result result',
       search Complementary palette "#FF0000" 4 = Some result
       /\ search Complementary (rev palette) "#FF0000" 4 = Some result'
       /\ Permutation result result'.
Proof.
  assert (P : Permutation palette (rev palette)) by apply Permutation_rev.
  assert (N : Z.of_nat (List.length (qualifying palette "#FF0000" Complementary))
              <= 4) by (vm_compute; discriminate).
  split; [exact red_wellFormed|]. split; [exact palette_wellFormed|].
  split; [exact palette_distinct|]. split; [exact P|]. split; [exact N|].
  exact (search_ignores_collection_order Complementary palette (rev palette)
           "#FF0000" 4 red_wellFormed palette_wellFormed palette_distinct P N).
Defined.

Lemma hexToHsl_defined_in_range_witness :
  sixHexDigits "ff5733"
  /\ exists q, hexToHsl "ff5733" = Some q /\ hexToHsl "#ff5733" = Some q
               /\ 0 <= q.(h) <= 360.
Proof.
  split; [exact six_digits_lower|].
  destruct (hexToHsl_defined_in_range "ff5733" six_digits_lower)
    as (q & E1 & E2 & Hh & _).
  exists q. auto.
Defined.

Lemma hslToHex_is_canonical_witness :
  (0 <= 14 <= 360) /\ (0 <= 100 <= 100) /\ (0 <= 60 <= 100)
  /\ hslToHex 14 100 60 = "#FF6333"%string
  /\ canonicalHex (hslToHex 14 100 60) = true.
Proof.
  assert (Hh : 0 <= 14 <= 360) by lia.
  assert (Hs : 0 <= 100 <= 100) by lia.
  assert (Hl : 0 <= 60 <= 100) by lia.
  split; [exact Hh|]. split; [exact Hs|]. split; [exact Hl|].
  split; [vm_compute; reflexivity|].
  exact (proj1 (proj2 (hslToHex_is_canonical 14 100 60 Hh Hs Hl))).
Defined.

Lemma every_entry_is_scored_witness :
  wellFormed "#FF0000"
  /\ Forall (fun c => wellFormed c.(hex)) [vermilion; cyan; azure]
  /\ find (fun c => String.eqb c.(hex) "#FF0000") [vermilion; cyan; azure] = None
  /\ exists result,
       search Complementary [vermilion; cyan; azure] "#FF0000" 4 = Some result
       /\ Forall (fun e => exists d, score Complementary e = Some d) result.
Proof.
  assert (W : Forall (fun c => wellFormed c.(hex)) [vermilion; cyan; azure])
    by (repeat constructor; eexists; vm_compute; reflexivity).
  assert (F : find (fun c => String.eqb c.(hex) "#FF0000")
                   [vermilion; cyan; azure] = None) by reflexivity.
  split; [exact red_wellFormed|]. split; [exact W|]. split; [exact F|].
  exact (every_entry_is_scored Complementary [vermilion; cyan; azure]
           "#FF0000" 4 red_wellFormed W (or_introl F)).
Defined.
